(** * A fixed-step game loop in JavaScript: keyboard edge detection,
      time accumulator and per-step physics (src/main.js).

    The program is embedded once, parametrically in the arithmetic it
    computes with (class [Num]).  Two arithmetics are provided:

    - [float] (IEEE 754 binary64, Rocq's primitive floats), which is what a
      JavaScript Number is: [+], [-], [*], [/] round to nearest-even and the
      comparisons answer [false] on NaN;
    - [Q] (exact rationals), the real-number reading under which the
      algebraic statements (the steady state of the velocity recurrence)
      are phrased.

    Statements that only follow the control flow are proved for every
    arithmetic.  Statements about the running program are proved in
    binary64: by evaluation where the states are finitely many (the
    vertical motion) or the run is fixed, and from the specification of the
    primitive operations ([FloatAxioms], [SpecFloat]) where they range over
    all numbers (the accumulator). *)

From Stdlib Require Import ZArith QArith Bool List Lia Lqa.
From Stdlib Require Import Floats Uint63.
From stdpp Require Import gmap strings.

(** ** Arithmetic *)

(** The operations main.js uses on numbers: integer literals, the four
    operations, and the comparisons [>] and [>=]. *)
Class Num (N : Type) : Type := {
  ofZ : Z -> N;
  add : N -> N -> N;
  sub : N -> N -> N;
  mul : N -> N -> N;
  div : N -> N -> N;
  gtb : N -> N -> bool;
  geb : N -> N -> bool
}.

Module Binary64.

(** Integer literals of the source; all of them are small and exactly
    representable. *)
Definition of_int (z : Z) : float :=
  match z with
  | Z0 => PrimFloat.zero
  | Zpos _ => PrimFloat.of_uint63 (Uint63.of_Z z)
  | Zneg p => PrimFloat.opp (PrimFloat.of_uint63 (Uint63.of_Z (Zpos p)))
  end.

(** JavaScript's [a > b] and [a >= b]: false as soon as one side is NaN. *)
Definition gt (a b : float) : bool := PrimFloat.ltb b a.
Definition ge (a b : float) : bool := PrimFloat.leb b a.

#[global] Instance num : Num float := {|
  ofZ := of_int;
  add := PrimFloat.add;
  sub := PrimFloat.sub;
  mul := PrimFloat.mul;
  div := PrimFloat.div;
  gtb := gt;
  geb := ge
|}.

End Binary64.

Module Exact.

Definition gt (a b : Q) : bool := negb (Qle_bool a b).
Definition ge (a b : Q) : bool := Qle_bool b a.

#[global] Instance num : Num Q := {|
  ofZ := inject_Z;
  add := Qplus;
  sub := Qminus;
  mul := Qmult;
  div := Qdiv;
  gtb := gt;
  geb := ge
|}.

End Exact.

(** ** The program *)

(** Key codes are the strings of [KeyboardEvent.code]. *)
Abbreviation KeyCode := string (only parsing).

(** [const player = { x, y, w, h, vx, vy, onGround }] *)
Record Player (N : Type) : Type := mkPlayer {
  x : N;
  y : N;
  w : N;
  h : N;
  vx : N;
  vy : N;
  onGround : bool
}.
Arguments mkPlayer {N}.
Arguments x {N}.
Arguments y {N}.
Arguments w {N}.
Arguments h {N}.
Arguments vx {N}.
Arguments vy {N}.
Arguments onGround {N}.

(** The mutable variables of the closure: the player object, the two key
    sets [down] and [pressed], and the scheduler's [last] and [acc]. *)
Record Game (N : Type) : Type := mkGame {
  player : Player N;
  down : gset string;
  pressed : gset string;
  last : N;
  acc : N
}.
Arguments mkGame {N}.
Arguments player {N}.
Arguments down {N}.
Arguments pressed {N}.
Arguments last {N}.
Arguments acc {N}.

Section Program.

Context {N : Type} `{Num N}.

(** World constants. *)
Definition GROUND_Y : N := ofZ 400.
Definition GRAVITY : N := ofZ 1600.
Definition STEP : N := div (ofZ 1) (ofZ 60).
Definition MOVE_ACCEL : N := ofZ 1200.
(** [0.90] *)
Definition FRICTION : N := div (ofZ 90) (ofZ 100).
(** [-650], the upward kick of a jump. *)
Definition JUMP_VY : N := ofZ (-650).
(** [0.25], the largest frame time the loop accepts. *)
Definition MAX_DT : N := div (ofZ 25) (ofZ 100).

(** [{ x:100, y:300, w:32, h:32, vx:0, vy:0, onGround:false }] *)
Definition player0 : Player N :=
  mkPlayer (ofZ 100) (ofZ 300) (ofZ 32) (ofZ 32) (ofZ 0) (ofZ 0) false.

(** The state when the closure has run its declarations: empty key sets,
    [last] the clock reading [t0], [acc = 0]. *)
Definition game0 (t0 : N) : Game N := mkGame player0 ∅ ∅ t0 (ofZ 0).

(** *** Input handling *)

(** [keydown]: [if (!down.has(e.code)) pressed.add(e.code); down.add(e.code);] *)
Definition keydown (code : KeyCode) (g : Game N) : Game N :=
  let pressed1 :=
    if bool_decide (code ∈ down g) then pressed g else {[code]} ∪ pressed g in
  mkGame (player g) ({[code]} ∪ down g) pressed1 (last g) (acc g).

(** [keyup]: [down.delete(e.code);] *)
Definition keyup (code : KeyCode) (g : Game N) : Game N :=
  mkGame (player g) (down g ∖ {[code]}) (pressed g) (last g) (acc g).

(** [held(...codes) = codes.some(c => down.has(c))] *)
Definition held (g : Game N) (codes : list KeyCode) : bool :=
  existsb (fun c => bool_decide (c ∈ down g)) codes.

(** [justPressed(...codes) = codes.some(c => pressed.has(c))] *)
Definition justPressed (g : Game N) (codes : list KeyCode) : bool :=
  existsb (fun c => bool_decide (c ∈ pressed g)) codes.

Definition LEFT_CODES : list KeyCode := ["ArrowLeft"; "KeyA"]%string.
Definition RIGHT_CODES : list KeyCode := ["ArrowRight"; "KeyD"]%string.
Definition JUMP_CODES : list KeyCode := ["Space"; "KeyW"; "ArrowUp"]%string.

(** *** Update *)

(** [function update(dt)], statement by statement.  It reads the key sets
    and assigns fields of [player]; the new game is the old one with the
    new player. *)
Definition update (dt : N) (g : Game N) : Game N :=
  let p := player g in
  (* Horizontal control -> acceleration *)
  let ax0 := ofZ 0 in
  let ax1 := if held g LEFT_CODES then sub ax0 MOVE_ACCEL else ax0 in
  let ax := if held g RIGHT_CODES then add ax1 MOVE_ACCEL else ax1 in
  (* Apply acceleration + friction *)
  let vx1 := add (vx p) (mul ax dt) in
  let vx2 := mul vx1 FRICTION in
  (* Jump when on ground and the key was just pressed *)
  let jump := onGround p && justPressed g JUMP_CODES in
  let vy1 := if jump then JUMP_VY else vy p in
  let og1 := if jump then false else onGround p in
  (* Gravity *)
  let vy2 := add vy1 (mul GRAVITY dt) in
  (* Integrate position *)
  let x1 := add (x p) (mul vx2 dt) in
  let y1 := add (y p) (mul vy2 dt) in
  (* Ground collision *)
  let p' :=
    if gtb (add y1 (h p)) GROUND_Y
    then mkPlayer x1 (sub GROUND_Y (h p)) (w p) (h p) vx2 (ofZ 0) true
    else mkPlayer x1 y1 (w p) (h p) vx2 vy2 og1 in
  mkGame p' (down g) (pressed g) (last g) (acc g).

(** *** Game loop *)

(** The [while (acc >= STEP)] loop.  A loop over machine numbers need not
    end, so it runs on [fuel]: [None] means the fuel ran out before the
    guard failed.  The first component of the result counts the calls of
    [update]; it is not program state. *)
Fixpoint drain (fuel : nat) (g : Game N) : option (nat * Game N) :=
  if geb (acc g) STEP then
    match fuel with
    | O => None
    | S fuel' =>
        let g1 := update STEP g in
        let g2 := mkGame (player g1) (down g1) (pressed g1) (last g1)
                         (sub (acc g1) STEP) in
        let g3 := mkGame (player g2) (down g2) ∅ (last g2) (acc g2) in
        match drain fuel' g3 with
        | Some (n, g') => Some (S n, g')
        | None => None
        end
    end
  else Some (O, g).

(** [if (dt > 0.25) dt = 0.25;] *)
Definition clamp (dt : N) : N := if gtb dt MAX_DT then MAX_DT else dt.

(** The body of [loop()] from the clamp to the end of the [while], for a
    measured frame time [dt]: [if (dt > 0.25) dt = 0.25; acc += dt; while ...]. *)
Definition frame (fuel : nat) (dt : N) (g : Game N) : option (nat * Game N) :=
  let dt1 := clamp dt in
  let g1 := mkGame (player g) (down g) (pressed g) (last g) (add (acc g) dt1) in
  drain fuel g1.

(** One run of [loop()] up to [render()], with [now] the value of
    [performance.now() / 1000]: [let dt = now - last; last = now;] and then
    [frame].  Rendering reads the state and [requestAnimationFrame] schedules
    the next run; neither changes the state. *)
Definition loop (fuel : nat) (now : N) (g : Game N) : option (nat * Game N) :=
  let dt := sub now (last g) in
  let g1 := mkGame (player g) (down g) (pressed g) now (acc g) in
  frame fuel dt g1.

(** *** Runs *)

(** What the accumulator alone goes through in [drain]. *)
Fixpoint drainAcc (fuel : nat) (a : N) : option (nat * N) :=
  if geb a STEP then
    match fuel with
    | O => None
    | S fuel' =>
        match drainAcc fuel' (sub a STEP) with
        | Some (n, a') => Some (S n, a')
        | None => None
        end
    end
  else Some (O, a).

(** The key sets as the events left them before a step. *)
Definition withKeys (d pr : gset string) (g : Game N) : Game N :=
  mkGame (player g) d pr (last g) (acc g).

(** A sequence of physics steps, each under its own key sets. *)
Fixpoint steps (keys : list (gset string * gset string)) (g : Game N) : Game N :=
  match keys with
  | [] => g
  | (d, pr) :: keys' => steps keys' (update STEP (withKeys d pr g))
  end.

(** The states after each of [n] consecutive steps under unchanged keys. *)
Fixpoint trace (n : nat) (g : Game N) : list (Game N) :=
  match n with
  | O => []
  | S n' => let g' := update STEP g in g' :: trace n' g'
  end.

(** [l] is strictly increasing for [>]. *)
Fixpoint increasing (l : list N) : bool :=
  match l with
  | a :: (b :: _) as t => gtb b a && increasing t
  | _ => true
  end.

(** At rest on the ground with only ArrowRight held: the player of the
    source moved down to [y = GROUND_Y - h], nothing in [pressed]. *)
Definition restingRight : Game N :=
  mkGame (mkPlayer (ofZ 100) (sub GROUND_Y (ofZ 32)) (ofZ 32) (ofZ 32)
                   (ofZ 0) (ofZ 0) true)
         {["ArrowRight"%string]} ∅ (ofZ 0) (ofZ 0).

(** The velocity at which acceleration and friction cancel:
    [MOVE_ACCEL * dt * FRICTION / (1 - FRICTION)] for [dt = STEP]. *)
Definition VX_EQ : N :=
  div (mul (mul MOVE_ACCEL STEP) FRICTION) (sub (ofZ 1) FRICTION).

(** [0 <= a] and [a < STEP], as the comparisons [a >= 0] and [STEP > a]. *)
Definition accInRange (a : N) : bool := geb a (ofZ 0) && gtb STEP a.

(** Consecutive frames with the measured frame times [dts]: every frame
    ends, and ends with the accumulator in range. *)
Fixpoint framesOk (fuel : nat) (dts : list N) (g : Game N) : bool :=
  match dts with
  | [] => true
  | dt :: dts' =>
      match frame fuel dt g with
      | Some (_, g') => accInRange (acc g') && framesOk fuel dts' g'
      | None => false
      end
  end.

(** [n] frames of exactly one step each while Space stays held: the
    keyboard repeats the down-event before every frame. *)
Fixpoint holdFrames (n : nat) (g : Game N) : Game N :=
  match n with
  | O => g
  | S n' =>
      match frame 1 STEP (keydown "Space" g) with
      | Some (_, g') => holdFrames n' g'
      | None => g
      end
  end.

(** States the running program can be in: events and frames in any order. *)
Inductive reachable : Game N -> Prop :=
| reach_start (t0 : N) : reachable (game0 t0)
| reach_keydown (c : KeyCode) (g : Game N) :
    reachable g -> reachable (keydown c g)
| reach_keyup (c : KeyCode) (g : Game N) :
    reachable g -> reachable (keyup c g)
| reach_loop (fuel : nat) (now : N) (g : Game N) (n : nat) (g' : Game N) :
    reachable g -> loop fuel now g = Some (n, g') -> reachable g'.

(** States obtained from the initial one by physics steps alone, the key
    sets and the scheduler's variables being arbitrary before each step. *)
Inductive stepped : Game N -> Prop :=
| stepped_start (t0 : N) : stepped (game0 t0)
| stepped_input (g : Game N) (d pr : gset string) (l a : N) :
    stepped g -> stepped (mkGame (player g) d pr l a)
| stepped_update (g : Game N) : stepped g -> stepped (update STEP g).

End Program.

(** The events the loop reacts to between two frames. *)
Inductive KeyEvent : Type :=
| KeyDown (code : KeyCode)
| KeyUp (code : KeyCode).

Definition handle {N : Type} (g : Game N) (e : KeyEvent) : Game N :=
  match e with
  | KeyDown c => keydown c g
  | KeyUp c => keyup c g
  end.

Definition handleAll {N : Type} (es : list KeyEvent) (g : Game N) : Game N :=
  fold_left handle es g.

(** ** The vertical motion in binary64 *)

(** The part of the player the vertical motion reads and writes. *)
Definition vstate : Type := float * float * bool.

Definition vert (g : Game float) : vstate :=
  (y (player g), vy (player g), onGround (player g)).

(** [update(STEP)] seen on the vertical part, for the player's height 32;
    [jp] says whether a jump code is in [pressed]. *)
Definition vstep (jp : bool) (v : vstate) : vstate :=
  let '(y0, vy0, og0) := v in
  vert (update STEP
          (mkGame (mkPlayer (ofZ 0) y0 (ofZ 32) (ofZ 32) (ofZ 0) vy0 og0)
                  ∅ (if jp then {["Space"%string]} else ∅) (ofZ 0) (ofZ 0))).

Fixpoint orbit (n : nat) (v : vstate) : list vstate :=
  match n with
  | O => []
  | S n' => v :: orbit n' (vstep false v)
  end.

(** Resting on the ground. *)
Definition grounded : vstate := (ofZ 368, ofZ 0, true).

(** The fall from the initial height, up to the last state in the air. *)
Definition fallStates : list vstate :=
  Eval vm_compute in orbit 18 (vert (game0 (ofZ 0))).

(** A jump, from the step that launches it to the last state in the air. *)
Definition jumpStates : list vstate :=
  Eval vm_compute in orbit 47 (vstep true grounded).

Definition vstates : list vstate := fallStates ++ grounded :: jumpStates.

(** A binary64 value, seen through [Prim2SF], that is zero, a positive
    finite number or plus infinity. *)
Definition sf_nonneg (v : spec_float) : Prop :=
  match v with
  | S754_zero _ => True
  | S754_infinity s => s = false
  | S754_finite s _ _ => s = false
  | S754_nan => False
  end.

(** The value of a binary64 number that is not negative and finite, in
    units of 2^-1074 (every such number is a whole multiple of it). *)
Definition units (v : spec_float) : Z :=
  match v with
  | S754_finite false m e => (Zpos m * 2 ^ (e + 1074))%Z
  | _ => 0%Z
  end.

(** Zero or a positive finite number whose exponent is in range. *)
Definition sf_finite_nonneg (v : spec_float) : Prop :=
  match v with
  | S754_zero _ => True
  | S754_finite s _ e => s = false /\ (-1074 <= e)%Z
  | _ => False
  end.

(** Rounding an exact value [v], in units of 2^-1074, gives at most this:
    the relative error of a binary64 operation is below 2^-52. *)
Definition roundUp (v : Z) : Z := (v + v / 2 ^ 52 + 1)%Z.

(** [STEP] and [MAX_DT] in units of 2^-1074. *)
Definition STEP_UNITS : Z := units (Prim2SF (STEP : float)).
Definition MAX_DT_UNITS : Z := units (Prim2SF (MAX_DT : float)).

(** Starting from an accumulator of at most [b] units, the loop is over
    within [fuel] turns: each turn takes [STEP_UNITS] off and rounds. *)
Fixpoint settles (fuel : nat) (b : Z) : bool :=
  if (b <? STEP_UNITS)%Z then true
  else match fuel with
       | O => false
       | S fuel' => settles fuel' (roundUp (b - STEP_UNITS))
       end.

(** The invariant of the vertical motion: the height never changes and the
    vertical state is one of [vstates]. *)
Definition vinv (g : Game float) : Prop :=
  h (player g) = ofZ 32 /\ In (vert g) vstates.

(** ** Key events and runs of the loop, for the further properties *)

(** The code an event is about. *)
Definition codeOf (e : KeyEvent) : KeyCode :=
  match e with
  | KeyDown c => c
  | KeyUp c => c
  end.

(** The last event about [c] in [es]: [Some true] a down-event, [Some false]
    an up-event, [None] when no event is about [c]. *)
Fixpoint lastEvent (c : KeyCode) (es : list KeyEvent) : option bool :=
  match es with
  | [] => None
  | e :: es' =>
      match lastEvent c es' with
      | Some b => Some b
      | None =>
          if bool_decide (codeOf e = c)
          then Some (match e with KeyDown _ => true | KeyUp _ => false end)
          else None
      end
  end.

Section Runs.

Context {N : Type} `{Num N}.

(** One turn of the [while] loop of [loop()]:
    [update(STEP); acc -= STEP; pressed.clear();] *)
Definition turn (g : Game N) : Game N :=
  let g1 := update STEP g in
  mkGame (player g1) (down g1) ∅ (last g1) (sub (acc g1) STEP).

(** [loop()] run once for each clock reading of [nows], no key event in
    between; the calls of [update] are counted together. *)
Fixpoint runLoops (fuel : nat) (nows : list N) (g : Game N) : option (nat * Game N) :=
  match nows with
  | [] => Some (O, g)
  | now :: nows' =>
      match loop fuel now g with
      | Some (n, g1) =>
          match runLoops fuel nows' g1 with
          | Some (m, g2) => Some ((n + m)%nat, g2)
          | None => None
          end
      | None => None
      end
  end.

(** What happens to the running program: the browser calls [loop()] with
    the clock at [now], or delivers a key event. *)
Inductive Input : Type :=
| Frame (now : N)
| Key (e : KeyEvent).

(** A run of the program over a sequence of inputs; the calls of [update]
    are counted together. *)
Fixpoint run (fuel : nat) (ins : list Input) (g : Game N) : option (nat * Game N) :=
  match ins with
  | [] => Some (O, g)
  | Frame now :: ins' =>
      match loop fuel now g with
      | Some (n, g1) =>
          match run fuel ins' g1 with
          | Some (m, g2) => Some ((n + m)%nat, g2)
          | None => None
          end
      | None => None
      end
  | Key e :: ins' => run fuel ins' (handle g e)
  end.

(** The clock readings [nows] do not go back, starting from [t]. *)
Fixpoint monotone (t : N) (nows : list N) : bool :=
  match nows with
  | [] => true
  | u :: nows' => geb u t && monotone u nows'
  end.

(** Two states that [update] cannot tell apart: it reads the player and the
    key sets, not the scheduler's variables. *)
Definition sameInput (g1 g2 : Game N) : Prop :=
  player g1 = player g2 /\ down g1 = down g2 /\ pressed g1 = pressed g2.

End Runs.

Arguments Frame {N} now.
Arguments Key {N} e.

(** The vertical states of the first fall and of a jump, each followed by
    the landing. *)
Definition fallArc : list vstate := fallStates ++ [grounded].

Definition jumpArc : list vstate := jumpStates ++ [grounded].

(** Clock readings are finite numbers. *)
Definition finiteReadings (nows : list float) : bool :=
  forallb (fun t => PrimFloat.ltb t infinity) nows.

(** ** Magnitudes, for the horizontal speed in binary64 *)

(** The magnitude of a finite binary64 number in units of 2^-2148, fine
    enough to hold the exact product of two such numbers. *)
Definition mag (v : spec_float) : Z :=
  match v with
  | S754_finite _ m e => (Zpos m * 2 ^ (e + 2148))%Z
  | _ => 0%Z
  end.

(** Zero or a finite number, of either sign. *)
Definition sf_finite (v : spec_float) : Prop :=
  match v with
  | S754_zero _ | S754_finite _ _ _ => True
  | _ => False
  end.

(** Rounding an exact magnitude [v] gives at most this: the error of a
    binary64 operation is below 2^-52 of the value, or below 2^-1074. *)
Definition roundMag (v : Z) : Z := (v + v / 2 ^ 52 + 2 ^ 1074)%Z.

(** The bound on the speed, 181, and on what one step of acceleration adds
    to the velocity, [MOVE_ACCEL * STEP] as binary64 computes it, in units
    of 2^-2148. *)
Definition SPEED_MAG : Z := (181 * 2 ^ 2148)%Z.

Definition ACCEL_MAG : Z :=
  Eval vm_compute in mag (Prim2SF (mul (MOVE_ACCEL : float) STEP)).

(** What [(vx + a) * FRICTION] is at most, from a bound [v] on [vx] and a
    bound [a] on the acceleration term: a rounded sum, then a rounded
    product with [FRICTION], which is [8106479329266893 * 2^-53]. *)
Definition frictionMag (v a : Z) : Z :=
  roundMag (roundMag (v + a) * 8106479329266893 / 2 ^ 53)%Z.

(** A velocity that is finite and within the bound. *)
Definition speedOk (v : float) : Prop :=
  sf_finite (Prim2SF v) /\ (mag (Prim2SF v) <= SPEED_MAG)%Z.

(** What the speed is at most after [n] steps without acceleration, from a
    bound [b]. *)
Definition coastMag (n : nat) (b : Z) : Z :=
  Nat.iter n (fun b' => frictionMag b' 0) b.

(** ** Rounding from below, for the time a frame accounts for *)

(** Rounding an exact magnitude [v] gives at least this. *)
Definition roundLow (v : Z) : Z := (v - 3 * (v / 2 ^ 52 + 2 ^ 1074))%Z.

(** What one rounding can take from an exact value [v] in units of
    2^-1074, or add to it. *)
Definition slack (v : Z) : Z := (3 * (v / 2 ^ 52 + 2))%Z.

(** The most the accumulator can hold when the loop of a frame starts, in
    units of 2^-1074: just under [STEP], plus the cap, rounded. *)
Definition ACC_MAX : Z := roundUp (STEP_UNITS - 1 + MAX_DT_UNITS).

(** The frame times the loop measures between the clock readings [nows],
    after the clamp, added up exactly, in units of 2^-1074. *)
Fixpoint measured (t : float) (nows : list float) : Z :=
  match nows with
  | [] => 0%Z
  | now :: nows' =>
      (units (Prim2SF (clamp (sub now t))) + measured now nows')%Z
  end.

(** * Properties *)

(** The constants in binary64 are the doubles JavaScript reads from the
    literals [0.90] and [0.25] and computes for [1 / 60]. *)
Lemma constants_binary64 :
  (FRICTION : float) = 0x1.ccccccccccccdp-1%float /\
  (MAX_DT : float) = 0.25%float /\
  (STEP : float) = 0x1.1111111111111p-6%float /\
  (JUMP_VY : float) = (-650)%float.
Proof. repeat split. Qed.

(** ** What [update] leaves alone *)

Section Frame.

Context {N : Type} `{Num N}.

Lemma update_keys (dt : N) (g : Game N) :
  down (update dt g) = down g /\ pressed (update dt g) = pressed g.
Proof. split; reflexivity. Qed.

Lemma update_sched (dt : N) (g : Game N) :
  last (update dt g) = last g /\ acc (update dt g) = acc g.
Proof. split; reflexivity. Qed.

Lemma update_size (dt : N) (g : Game N) :
  w (player (update dt g)) = w (player g) /\
  h (player (update dt g)) = h (player g).
Proof.
  unfold update; cbn.
  destruct (gtb _ GROUND_Y); split; reflexivity.
Qed.

(** One turn of the [while] loop, when the guard holds: [update(STEP)], then
    [acc -= STEP], then [pressed.clear()]. *)
Lemma drain_unfold (fuel : nat) (g : Game N) :
  drain (S fuel) g =
  if geb (acc g) STEP then
    match drain fuel (mkGame (player (update STEP g)) (down g) ∅ (last g)
                             (sub (acc g) STEP)) with
    | Some (n, g') => Some (S n, g')
    | None => None
    end
  else Some (O, g).
Proof. reflexivity. Qed.

(** C10.  A physics step assigns only [x], [y], [vx], [vy] and [onGround]:
    the size [w], [h] of the player, the key sets [down] and [pressed] and
    the scheduler's [last] and [acc] come out as they went in.  The
    just-pressed set is emptied by the scheduler, after [update] has
    returned, once per turn of its loop. *)
Theorem update_frame_effect (dt : N) (g : Game N) :
  (w (player (update dt g)) = w (player g) /\
   h (player (update dt g)) = h (player g)) /\
  (down (update dt g) = down g /\ pressed (update dt g) = pressed g) /\
  (last (update dt g) = last g /\ acc (update dt g) = acc g) /\
  (forall fuel : nat,
     drain (S fuel) g =
     if geb (acc g) STEP then
       match drain fuel (mkGame (player (update STEP g)) (down (update STEP g)) ∅
                                (last g) (sub (acc g) STEP)) with
       | Some (n, g') => Some (S n, g')
       | None => None
       end
     else Some (O, g)).
Proof.
  split; [apply update_size |].
  split; [apply update_keys |].
  split; [apply update_sched |].
  intros fuel. exact (drain_unfold fuel g).
Qed.

(** ** Ground collision and jump, along the statements of [update] *)

(** The vertical outcome of a step, in the order the source computes it:
    jump check, gravity, integration, collision. *)
Lemma update_vertical (dt : N) (g : Game N) :
  let p := player g in
  let jump := onGround p && justPressed g JUMP_CODES in
  let vy2 := add (if jump then JUMP_VY else vy p) (mul GRAVITY dt) in
  let y1 := add (y p) (mul vy2 dt) in
  let p' := player (update dt g) in
  (y p', vy p', onGround p') =
  if gtb (add y1 (h p)) GROUND_Y
  then (sub GROUND_Y (h p), ofZ 0, true)
  else (y1, vy2, if jump then false else onGround p).
Proof.
  cbv zeta. unfold update; cbn.
  destruct (gtb _ GROUND_Y); reflexivity.
Qed.

(** The horizontal outcome of a step: acceleration, then friction on the
    velocity already accelerated, then integration of the new velocity. *)
Lemma update_horizontal (dt : N) (g : Game N) :
  let p := player g in
  let ax1 := if held g LEFT_CODES then sub (ofZ 0) MOVE_ACCEL else ofZ 0 in
  let ax := if held g RIGHT_CODES then add ax1 MOVE_ACCEL else ax1 in
  let vx' := mul (add (vx p) (mul ax dt)) FRICTION in
  vx (player (update dt g)) = vx' /\
  x (player (update dt g)) = add (x p) (mul vx' dt).
Proof.
  cbv zeta. unfold update; cbn.
  destruct (gtb _ GROUND_Y); split; reflexivity.
Qed.

Lemma justPressed_spec (g : Game N) (codes : list KeyCode) :
  justPressed g codes = true <-> exists c, In c codes /\ c ∈ pressed g.
Proof.
  unfold justPressed. rewrite existsb_exists.
  split; intros [c [Hc Hp]]; exists c; split; auto.
  - now apply bool_decide_eq_true in Hp.
  - now apply bool_decide_eq_true.
Qed.

Lemma held_spec (g : Game N) (codes : list KeyCode) :
  held g codes = true <-> exists c, In c codes /\ c ∈ down g.
Proof.
  unfold held. rewrite existsb_exists.
  split; intros [c [Hc Hp]]; exists c; split; auto.
  - now apply bool_decide_eq_true in Hp.
  - now apply bool_decide_eq_true.
Qed.

End Frame.

(** ** Key events *)

Section Keys.

Context {N : Type}.

Lemma keyup_pressed (c : KeyCode) (g : Game N) :
  pressed (keyup c g) = pressed g /\ c ∉ down (keyup c g).
Proof. split; [reflexivity |]. cbn. set_solver. Qed.

Lemma keydown_held (c : KeyCode) (g : Game N) :
  c ∈ down g -> pressed (keydown c g) = pressed g /\ c ∈ down (keydown c g).
Proof.
  intros Hc. unfold keydown; cbn.
  rewrite bool_decide_eq_true_2 by assumption.
  split; [reflexivity | set_solver].
Qed.

(** Auto-repeat: further down-events for a key that is held change nothing
    in [pressed]. *)
Lemma keydown_repeat (c : KeyCode) (n : nat) (g : Game N) :
  c ∈ down g ->
  pressed (handleAll (repeat (KeyDown c) n) g) = pressed g /\
  c ∈ down (handleAll (repeat (KeyDown c) n) g).
Proof.
  revert g. induction n as [| n IH]; intros g Hc; cbn.
  - split; [reflexivity | assumption].
  - destruct (keydown_held c g Hc) as [Hp Hd].
    destruct (IH (keydown c g) Hd) as [IHp IHd].
    unfold handleAll in IHp, IHd.
    split; [congruence | assumption].
Qed.

(** C4.  In the state [g] left by any sequence of key events, a down-event
    for [c] always puts [c] in [down], and it adds [c] to [pressed] exactly
    when [c] was not in [down]: held already, [pressed] is left as it is (so
    a code absent from [pressed] stays absent, however often the down-event
    repeats); not held, [c] is in [pressed] afterwards. *)
Theorem keydown_edge (es : list KeyEvent) (c : KeyCode) (g0 : Game N) :
  let g := handleAll es g0 in
  let g' := keydown c g in
  (c ∈ down g' /\ down g' = {[c]} ∪ down g) /\
  pressed g' =
    (if bool_decide (c ∈ down g) then pressed g else {[c]} ∪ pressed g) /\
  (c ∉ down g -> c ∈ pressed g') /\
  (c ∈ down g -> pressed g' = pressed g) /\
  (c ∈ (pressed g' ∖ pressed g) <-> (c ∉ down g) /\ (c ∉ pressed g)) /\
  (forall n : nat,
     c ∈ down g ->
     pressed (handleAll (repeat (KeyDown c) n) g) = pressed g).
Proof.
  cbv zeta. set (g := handleAll es g0).
  split; [split; [cbn; set_solver | reflexivity] |].
  split; [reflexivity |].
  split.
  { intros Hc. unfold keydown; cbn.
    rewrite bool_decide_eq_false_2 by assumption. set_solver. }
  split.
  { intros Hc. apply (keydown_held c g Hc). }
  split.
  { unfold keydown; cbn. destruct (decide (c ∈ down g)) as [Hc | Hc].
    - rewrite bool_decide_eq_true_2 by assumption. set_solver.
    - rewrite bool_decide_eq_false_2 by assumption. set_solver. }
  intros n Hc. apply (keydown_repeat c n g Hc).
Qed.

End Keys.

(** Two instances.  Space held and [pressed] just emptied: the repeated
    down-event leaves Space out of [pressed].  Space pressed and released:
    the next down-event puts it in [pressed]. *)
Lemma keydown_edge_witness :
  let gHeld := mkGame player0 {["Space"%string]} ∅ (ofZ 0) (ofZ 0) : Game float in
  let gFree := handleAll [KeyDown "Space"; KeyUp "Space"]
                 (mkGame player0 ∅ ∅ (ofZ 0) (ofZ 0)) : Game float in
  ("Space"%string ∈ down gHeld) /\
  pressed (keydown "Space" gHeld) = ∅ /\
  ("Space"%string ∉ down gFree) /\
  ("Space"%string ∈ pressed (keydown "Space" gFree)) /\
  ("Space"%string ∈ down (keydown "Space" gFree)).
Proof.
  cbv zeta.
  pose (gHeld := mkGame player0 {["Space"%string]} ∅ (ofZ 0) (ofZ 0) : Game float).
  pose (g0 := mkGame player0 ∅ ∅ (ofZ 0) (ofZ 0) : Game float).
  assert (Hin : "Space"%string ∈ down gHeld) by (cbn; set_solver).
  assert (Hout : "Space"%string ∉ down (handleAll [KeyDown "Space"; KeyUp "Space"] g0))
    by (cbn; set_solver).
  destruct (keydown_edge [] "Space" gHeld) as (_ & _ & _ & Hsame & _).
  destruct (keydown_edge [KeyDown "Space"; KeyUp "Space"] "Space" g0)
    as ((Hdown & _) & _ & Hnew & _).
  split; [exact Hin |].
  split; [exact (Hsame Hin) |].
  split; [exact Hout |].
  split; [exact (Hnew Hout) | exact Hdown].
Defined.

(** ** The vertical motion is a finite system *)

Lemma justPressed_probe (jp : bool) (p : Player float) (d : gset string) (l a : float) :
  justPressed (mkGame p d (if jp then {["Space"%string]} else ∅) l a) JUMP_CODES = jp.
Proof. destruct jp; vm_compute; reflexivity. Qed.

Lemma vert_update (g : Game float) :
  h (player g) = ofZ 32 ->
  vert (update STEP g) = vstep (justPressed g JUMP_CODES) (vert g).
Proof.
  intros Hh. unfold vstep, vert.
  rewrite (update_vertical STEP g).
  cbv beta iota zeta.
  rewrite (update_vertical STEP (mkGame _ _ _ _ _)).
  rewrite justPressed_probe. cbn [player y vy h onGround]. rewrite Hh.
  reflexivity.
Qed.

Ltac find_in_list :=
  repeat first [ left; reflexivity | right ].

Lemma vstates_closed (jp : bool) (v : vstate) :
  In v vstates -> In (vstep jp v) vstates.
Proof.
  intros Hin. unfold vstates, fallStates, jumpStates, grounded in Hin.
  cbn [app In] in Hin.
  repeat (destruct Hin as [<- | Hin]); try contradiction;
    destruct jp; vm_compute; find_in_list.
Qed.

(** What holds in each of the vertical states. *)
Lemma vstates_facts (v : vstate) :
  In v vstates ->
  let '(y0, vy0, og0) := v in
  geb GROUND_Y (add y0 (ofZ 32)) = true /\
  (og0 = true -> add y0 (ofZ 32) = GROUND_Y /\ vy0 = ofZ 0) /\
  (og0 = true -> v = grounded).
Proof.
  intros Hin. unfold vstates, fallStates, jumpStates, grounded in Hin.
  cbn [app In] in Hin.
  repeat (destruct Hin as [<- | Hin]); try contradiction;
    (split; [vm_compute; reflexivity |]);
    (split; intros Hg; first [discriminate Hg | vm_compute; auto]).
Qed.

Lemma vinv_start (t0 : float) : vinv (game0 t0).
Proof. split; [reflexivity |]. vm_compute. find_in_list. Qed.

Lemma vinv_update (g : Game float) : vinv g -> vinv (update STEP g).
Proof.
  intros [Hh Hin]. split.
  - rewrite <- Hh. apply update_size.
  - rewrite (vert_update g Hh). apply vstates_closed, Hin.
Qed.

Lemma vinv_player (g g' : Game float) :
  player g' = player g -> vinv g -> vinv g'.
Proof. unfold vinv, vert. intros ->. trivial. Qed.

Lemma vinv_stepped (g : Game float) : stepped g -> vinv g.
Proof.
  induction 1 as [t0 | g d pr l a _ IH | g _ IH].
  - apply vinv_start.
  - exact (vinv_player g _ eq_refl IH).
  - apply vinv_update, IH.
Qed.

(** The running program only ever steps: a frame is a sequence of physics
    steps with the scheduler's variables and [pressed] rewritten in between,
    and the key events rewrite the key sets. *)
Lemma drain_stepped {N : Type} `{Num N} (fuel : nat) (g : Game N) (n : nat) (g' : Game N) :
  stepped g -> drain fuel g = Some (n, g') -> stepped g'.
Proof.
  revert g n g'. induction fuel as [| fuel IH]; intros g n g' Hs; cbn.
  - destruct (geb (acc g) STEP); [discriminate |].
    intros [= <- <-]. exact Hs.
  - destruct (geb (acc g) STEP).
    + destruct (drain fuel _) as [[m g1] |] eqn:E; [| discriminate].
      intros [= <- <-]. eapply IH; [| exact E].
      apply (stepped_input (update STEP g)). apply stepped_update, Hs.
    + intros [= <- <-]. exact Hs.
Qed.

Lemma reachable_stepped {N : Type} `{Num N} (g : Game N) : reachable g -> stepped g.
Proof.
  induction 1 as [t0 | c g _ IH | c g _ IH | fuel now g n g' _ IH E].
  - apply stepped_start.
  - apply (stepped_input g), IH.
  - apply (stepped_input g), IH.
  - unfold loop, frame in E. eapply drain_stepped; [| exact E].
    apply (stepped_input g), IH.
Qed.

(** C2.  In every state obtained from the initial one by physics steps,
    whatever the keys before each step, the lower edge is not below the
    ground line ([GROUND_Y >= y + h]), and when [onGround] is set the
    player rests exactly on it ([y + h] is [GROUND_Y]) with [vy] zero.
    Binary64 arithmetic, as the program runs. *)
Theorem ground_invariant (g : Game float) :
  stepped g ->
  let p := player g in
  geb GROUND_Y (add (y p) (h p)) = true /\
  (onGround p = true -> add (y p) (h p) = GROUND_Y /\ vy p = ofZ 0).
Proof.
  intros Hs. apply vinv_stepped in Hs. destruct Hs as [Hh Hin].
  apply vstates_facts in Hin. unfold vert in Hin. cbv zeta.
  rewrite Hh. destruct Hin as (Hle & Hog & _). split; assumption.
Qed.

Lemma ground_invariant_witness :
  let g := Nat.iter 18 (update STEP) (game0 (ofZ 0)) : Game float in
  onGround (player g) = true /\
  geb GROUND_Y (add (y (player g)) (h (player g))) = true /\
  add (y (player g)) (h (player g)) = GROUND_Y /\ vy (player g) = ofZ 0.
Proof.
  cbv zeta.
  assert (Hs : stepped (Nat.iter 18 (update STEP) (game0 (ofZ 0)) : Game float)).
  { cbn [Nat.iter]. repeat apply stepped_update. apply stepped_start. }
  destruct (ground_invariant _ Hs) as [Hle Hog].
  assert (Ht : onGround (player (Nat.iter 18 (update STEP) (game0 (ofZ 0)) : Game float)) = true).
  { vm_compute. reflexivity. }
  split; [exact Ht |]. split; [exact Hle |]. exact (Hog Ht).
Defined.

(** The same for the running program: key events and frames. *)
Corollary ground_invariant_program (g : Game float) :
  reachable g ->
  geb GROUND_Y (add (y (player g)) (h (player g))) = true /\
  (onGround (player g) = true ->
   add (y (player g)) (h (player g)) = GROUND_Y /\ vy (player g) = ofZ 0).
Proof.
  intros Hr. apply reachable_stepped, vinv_stepped in Hr.
  destruct Hr as [Hh Hin]. apply vstates_facts in Hin. unfold vert in Hin.
  rewrite Hh. destruct Hin as (Hle & Hog & _). split; assumption.
Qed.

(** On the side of the collision test where nothing is clamped, [onGround]
    is false in every state the steps can reach: it was false before, or the
    jump check has just cleared it. *)
Lemma airborne_not_onGround (g : Game float) :
  stepped g ->
  let p := player g in
  let jump := onGround p && justPressed g JUMP_CODES in
  let vy2 := add (if jump then JUMP_VY else vy p) (mul GRAVITY STEP) in
  let y1 := add (y p) (mul vy2 STEP) in
  gtb (add y1 (h p)) GROUND_Y = false ->
  onGround (player (update STEP g)) = false.
Proof.
  intros Hs. cbv zeta. intros Hno.
  pose proof (update_vertical STEP g) as Hv. cbv zeta in Hv.
  rewrite Hno in Hv.
  assert (Hog : onGround (player (update STEP g)) =
                if onGround (player g) && justPressed g JUMP_CODES
                then false else onGround (player g))
    by exact (f_equal snd Hv).
  rewrite Hog. clear Hv Hog.
  destruct (justPressed g JUMP_CODES) eqn:Ej;
    destruct (onGround (player g)) eqn:Eg; cbn [andb]; try reflexivity.
  exfalso. apply vinv_stepped in Hs. destruct Hs as [Hh Hin].
  apply vstates_facts in Hin. unfold vert in Hin.
  destruct Hin as (_ & _ & Hgr). specialize (Hgr Eg).
  unfold grounded in Hgr. injection Hgr as Hy Hvy.
  rewrite Hy, Hvy, Hh in Hno. cbn [andb] in Hno.
  vm_compute in Hno. discriminate Hno.
Qed.

(** C1.  The ground collision of a physics step, in every state the steps
    reach from the initial one, whatever the keys (binary64, as the program
    runs).  With [y1] and [vy2] the position and the velocity after
    integration: if [y1 + h > GROUND_Y] the step sets [y = GROUND_Y - h],
    [vy = 0] and [onGround = true]; otherwise [y] and [vy] are [y1] and
    [vy2], and [onGround] is [false] after the step.  The source has no
    [else] that writes the flag: on that side it is [false] because it was
    before the step, or because the jump check has just cleared it. *)
Theorem ground_collision (g : Game float) :
  stepped g ->
  let p := player g in
  let jump := onGround p && justPressed g JUMP_CODES in
  let vy2 := add (if jump then JUMP_VY else vy p) (mul GRAVITY STEP) in
  let y1 := add (y p) (mul vy2 STEP) in
  let p' := player (update STEP g) in
  (y p', vy p', onGround p') =
  if gtb (add y1 (h p)) GROUND_Y
  then (sub GROUND_Y (h p), ofZ 0, true)
  else (y1, vy2, false).
Proof.
  intros Hs. cbv zeta.
  pose proof (update_vertical STEP g) as Hv. cbv zeta in Hv.
  pose proof (airborne_not_onGround g Hs) as Hno. cbv zeta in Hno.
  match goal with
  | |- _ = if ?c then _ else _ => destruct c eqn:E
  end.
  - exact Hv.
  - specialize (Hno eq_refl).
    pose proof (f_equal snd Hv) as Hog. cbn [snd] in Hog.
    rewrite Hv. f_equal. rewrite <- Hog. exact Hno.
Qed.

(** The two sides of the test: the first step of the fall does not reach
    the ground, the 18th does. *)
Lemma ground_collision_witness :
  let g0 := game0 (ofZ 0) : Game float in
  let g17 := Nat.iter 17 (update STEP) g0 in
  (onGround (player (update STEP g0)) = false /\
   vy (player (update STEP g0)) = mul GRAVITY STEP) /\
  (y (player (update STEP g17)) = sub GROUND_Y (h (player g17)) /\
   vy (player (update STEP g17)) = ofZ 0 /\
   onGround (player (update STEP g17)) = true).
Proof.
  cbv zeta.
  assert (Hs0 : stepped (game0 (ofZ 0) : Game float)) by apply stepped_start.
  assert (Hs17 : stepped (Nat.iter 17 (update STEP) (game0 (ofZ 0)) : Game float)).
  { cbn [Nat.iter]. repeat apply stepped_update. apply stepped_start. }
  pose proof (ground_collision _ Hs0) as H0.
  pose proof (ground_collision _ Hs17) as H17.
  cbv zeta in H0, H17.
  match type of H0 with
  | _ = if ?c then _ else _ =>
      assert (E0 : c = false) by (vm_compute; reflexivity); rewrite E0 in H0
  end.
  match type of H17 with
  | _ = if ?c then _ else _ =>
      assert (E17 : c = true) by (vm_compute; reflexivity); rewrite E17 in H17
  end.
  split.
  - split.
    + exact (f_equal snd H0).
    + etransitivity; [exact (f_equal (fun t => snd (fst t)) H0) |].
      vm_compute. reflexivity.
  - split; [exact (f_equal (fun t => fst (fst t)) H17) |].
    split; [exact (f_equal (fun t => snd (fst t)) H17) | exact (f_equal snd H17)].
Defined.

(** The model keeps the source's [if] without [else].  In a state no run
    reaches, a player flagged [onGround] at height 300 with no key pressed,
    the step keeps the integrated [y] and the flag stays [true]; by
    [ground_invariant] the steps never produce such a state. *)
Lemma collision_no_else :
  let g := mkGame (mkPlayer (ofZ 100) (ofZ 300) (ofZ 32) (ofZ 32) (ofZ 0) (ofZ 0) true)
                  ∅ ∅ (ofZ 0) (ofZ 0) : Game float in
  let p := player g in
  let vy2 := add (vy p) (mul GRAVITY STEP) in
  let y1 := add (y p) (mul vy2 STEP) in
  gtb (add y1 (h p)) GROUND_Y = false /\
  y (player (update STEP g)) = y1 /\
  onGround (player (update STEP g)) = true.
Proof. vm_compute. repeat split. Qed.

(** C3.  A player of the program's height 32 that rests on the ground
    ([onGround], [vy = 0], [y = GROUND_Y - h]) is in that same state after
    every one of any number of steps in which no jump code is in
    [pressed]: gravity is added and integrated, and the collision test
    undoes it.  Binary64 arithmetic, as the program runs. *)
Theorem grounded_stays (keys : list (gset string * gset string)) (g : Game float) :
  h (player g) = ofZ 32 ->
  onGround (player g) = true ->
  vy (player g) = ofZ 0 ->
  y (player g) = sub GROUND_Y (h (player g)) ->
  Forall (fun k => forall c, In c JUMP_CODES -> c ∉ k.2) keys ->
  forall n : nat,
    let g' := steps (firstn n keys) g in
    y (player g') = sub GROUND_Y (h (player g')) /\
    vy (player g') = ofZ 0 /\
    onGround (player g') = true.
Proof.
  intros Hh Hog Hvy Hy Hkeys n. revert g Hh Hog Hvy Hy n.
  induction Hkeys as [| [d pr] keys Hk _ IH]; intros g Hh Hog Hvy Hy n.
  - rewrite firstn_nil. cbn. auto.
  - destruct n as [| n]; [cbn; auto |].
    cbn [firstn steps]. cbv zeta in IH |- *.
    set (g1 := update STEP (withKeys d pr g)).
    assert (Hj : justPressed (withKeys d pr g) JUMP_CODES = false).
    { apply not_true_is_false. intros Hj. apply justPressed_spec in Hj.
      destruct Hj as (c & Hc & Hp). exact (Hk c Hc Hp). }
    assert (Hv : vert g1 = grounded).
    { unfold g1. rewrite vert_update by exact Hh. rewrite Hj.
      unfold vert, withKeys; cbn [player].
      rewrite Hy, Hvy, Hog, Hh. vm_compute. reflexivity. }
    assert (Hh1 : h (player g1) = ofZ 32).
    { unfold g1. rewrite <- Hh.
      exact (proj2 (update_size STEP (withKeys d pr g))). }
    clearbody g1. unfold vert, grounded in Hv. injection Hv as Hy1 Hvy1 Hog1.
    apply IH; try assumption.
    rewrite Hy1, Hh1. vm_compute. reflexivity.
Qed.

Lemma grounded_stays_witness :
  let g := mkGame (mkPlayer (ofZ 100) (ofZ 368) (ofZ 32) (ofZ 32) (ofZ 0) (ofZ 0) true)
                  ∅ ∅ (ofZ 0) (ofZ 0) : Game float in
  let keys := [({["ArrowRight"%string]}, ∅); ({["Space"%string]}, ∅); (∅, {["KeyD"%string]})]
              : list (gset string * gset string) in
  let g' := steps (firstn 3 keys) g in
  y (player g') = sub GROUND_Y (h (player g')) /\
  vy (player g') = ofZ 0 /\
  onGround (player g') = true.
Proof.
  cbv zeta.
  apply (grounded_stays
           [({["ArrowRight"%string]}, ∅); ({["Space"%string]}, ∅); (∅, {["KeyD"%string]})]
           (mkGame (mkPlayer (ofZ 100) (ofZ 368) (ofZ 32) (ofZ 32) (ofZ 0) (ofZ 0) true)
                   ∅ ∅ (ofZ 0) (ofZ 0))).
  - reflexivity.
  - reflexivity.
  - reflexivity.
  - vm_compute. reflexivity.
  - repeat constructor; cbn; intros c Hc; set_solver.
Defined.

(** Holding Space in binary64.  From rest, the first frame after the
    key goes down launches the jump and empties [pressed].  The key stays
    down and repeats: the player lands after 47 more frames and then stays
    on the ground, frame after frame, with Space still in [down].  Letting
    go and pressing again launches the next jump. *)
Lemma hold_jump_binary64 :
  let rest := mkGame (mkPlayer (ofZ 100) (ofZ 368) (ofZ 32) (ofZ 32) (ofZ 0) (ofZ 0) true)
                     ∅ ∅ (ofZ 0) (ofZ 0) : Game float in
  (vert (holdFrames 1 rest) = vstep true grounded /\
   vy (player (holdFrames 1 rest)) = add JUMP_VY (mul GRAVITY STEP) /\
   onGround (player (holdFrames 1 rest)) = false /\
   justPressed (holdFrames 1 rest) JUMP_CODES = false /\
   held (holdFrames 1 rest) JUMP_CODES = true) /\
  (onGround (player (holdFrames 47 rest)) = false /\
   vert (holdFrames 48 rest) = grounded /\
   vert (holdFrames 49 rest) = grounded /\
   vert (holdFrames 200 rest) = grounded /\
   held (holdFrames 200 rest) JUMP_CODES = true) /\
  vert (holdFrames 1 (keyup "Space" (holdFrames 200 rest))) = vstep true grounded.
Proof. vm_compute. repeat split. Qed.

(** C5.  The jump of a physics step.  With the player on the ground and one
    of Space, KeyW, ArrowUp in [pressed], the step launches: the velocity
    that receives gravity and is integrated is [-650], and [onGround] is
    [false] after the step unless the collision sets it again.  Without
    this, in the air or with no jump code in [pressed], there is no
    launch: [vy] only receives gravity and [onGround] is not cleared.  The
    set [down] plays no part: a jump code that is only held never
    launches.  In binary64, in every state the steps reach with the player
    on the ground, the launch leaves [vy = -650 + GRAVITY * STEP], which
    is negative, the player above where it was, and [onGround = false]. *)
Theorem jump_launch :
  (forall (N : Type) (HN : Num N) (dt : N) (g : Game N),
     let p := player g in
     let p' := player (update dt g) in
     let collides (vy2 : N) := gtb (add (add (y p) (mul vy2 dt)) (h p)) GROUND_Y in
     (onGround p = true ->
      (exists c, In c ["Space"; "KeyW"; "ArrowUp"]%string /\ c ∈ pressed g) ->
      let vy2 := add (ofZ (-650)) (mul GRAVITY dt) in
      (y p', vy p', onGround p') =
      if collides vy2 then (sub GROUND_Y (h p), ofZ 0, true)
      else (add (y p) (mul vy2 dt), vy2, false)) /\
     (onGround p = false \/
      (forall c, In c ["Space"; "KeyW"; "ArrowUp"]%string -> c ∉ pressed g) ->
      let vy2 := add (vy p) (mul GRAVITY dt) in
      (y p', vy p', onGround p') =
      if collides vy2 then (sub GROUND_Y (h p), ofZ 0, true)
      else (add (y p) (mul vy2 dt), vy2, onGround p)) /\
     (forall d : gset string,
        let q := player (update dt (withKeys d (pressed g) g)) in
        (y q, vy q, onGround q) = (y p', vy p', onGround p'))) /\
  (forall g : Game float,
     stepped g -> onGround (player g) = true ->
     (exists c, In c ["Space"; "KeyW"; "ArrowUp"]%string /\ c ∈ pressed g) ->
     let p' := player (update STEP g) in
     vy p' = add (ofZ (-650)) (mul GRAVITY STEP) /\
     gtb (ofZ 0) (vy p') = true /\
     gtb (y (player g)) (y p') = true /\
     onGround p' = false).
Proof.
  split.
  - intros N HN dt g. cbv zeta.
    pose proof (update_vertical dt g) as Hv. cbv zeta in Hv.
    split; [| split].
    + intros Hog (c & Hc & Hp).
      assert (Hj : justPressed g JUMP_CODES = true)
        by (apply justPressed_spec; exists c; split; assumption).
      rewrite Hog, Hj in Hv. exact Hv.
    + intros [Hog | Hnp].
      * rewrite Hog in Hv |- *. exact Hv.
      * assert (Hj : justPressed g JUMP_CODES = false).
        { apply not_true_is_false. intros Hj. apply justPressed_spec in Hj.
          destruct Hj as (c & Hc & Hp). exact (Hnp c Hc Hp). }
        rewrite Hj, andb_false_r in Hv. exact Hv.
    + intros d.
      rewrite (update_vertical dt g), (update_vertical dt (withKeys d (pressed g) g)).
      reflexivity.
  - intros g Hs Hog (c & Hc & Hp). cbv zeta.
    assert (Hj : justPressed g JUMP_CODES = true)
      by (apply justPressed_spec; exists c; split; assumption).
    apply vinv_stepped in Hs. destruct Hs as [Hh Hin].
    apply vstates_facts in Hin. unfold vert in Hin.
    destruct Hin as (_ & _ & Hgr). specialize (Hgr Hog).
    pose proof (vert_update g Hh) as Hv. rewrite Hj in Hv.
    unfold vert in Hv at 2. rewrite Hgr in Hv.
    assert (Hy : y (player g) = ofZ 368)
      by exact (f_equal (fun v : vstate => fst (fst v)) Hgr).
    assert (Hy' : y (player (update STEP g)) = fst (fst (vstep true grounded)))
      by exact (f_equal (fun v : vstate => fst (fst v)) Hv).
    assert (Hvy' : vy (player (update STEP g)) = snd (fst (vstep true grounded)))
      by exact (f_equal (fun v : vstate => snd (fst v)) Hv).
    assert (Hog' : onGround (player (update STEP g)) = snd (vstep true grounded))
      by exact (f_equal snd Hv).
    rewrite Hy, Hy', Hvy', Hog'.
    repeat split; vm_compute; reflexivity.
Qed.

(** ** The accumulator loop *)

Section Scheduler.

Context {N : Type} `{Num N}.

(** The count of steps and the final accumulator depend on the accumulator
    alone. *)
Lemma drainAcc_unfold (fuel : nat) (a : N) :
  drainAcc (S fuel) a =
  if geb a STEP then
    match drainAcc fuel (sub a STEP) with
    | Some (n, a') => Some (S n, a')
    | None => None
    end
  else Some (O, a).
Proof. reflexivity. Qed.

Lemma drain_acc (fuel : nat) (g : Game N) :
  option_map (fun r => (fst r, acc (snd r))) (drain fuel g) = drainAcc fuel (acc g).
Proof.
  revert g. induction fuel as [| fuel IH]; intros g.
  - cbn. destruct (geb (acc g) STEP); reflexivity.
  - rewrite drain_unfold, drainAcc_unfold.
    destruct (geb (acc g) STEP); [| reflexivity].
    specialize (IH (mkGame (player (update STEP g)) (down g) ∅ (last g)
                           (sub (acc g) STEP))).
    cbn [acc] in IH. rewrite <- IH.
    destruct (drain fuel _) as [[n g'] |]; reflexivity.
Qed.

Lemma drain_of_drainAcc (fuel : nat) (g : Game N) (n : nat) (a : N) :
  drainAcc fuel (acc g) = Some (n, a) ->
  exists g', drain fuel g = Some (n, g') /\ acc g' = a.
Proof.
  rewrite <- drain_acc.
  destruct (drain fuel g) as [[m g'] |]; cbn; [| discriminate].
  intros [= <- <-]. exists g'. split; reflexivity.
Qed.

(** More fuel does not change a finished run. *)
Lemma drainAcc_more (fuel k : nat) (a : N) (r : nat * N) :
  drainAcc fuel a = Some r -> drainAcc (fuel + k) a = Some r.
Proof.
  revert a r. induction fuel as [| fuel IH]; intros a r.
  - cbn. destruct (geb a STEP) eqn:E; [discriminate |].
    intros <-. destruct k; cbn; rewrite E; reflexivity.
  - change (S fuel + k)%nat with (S (fuel + k)). rewrite !drainAcc_unfold.
    destruct (geb a STEP); [| trivial].
    destruct (drainAcc fuel (sub a STEP)) as [[n a'] |] eqn:E; [| discriminate].
    intros <-. rewrite (IH _ _ E). reflexivity.
Qed.

Lemma frame_of_drainAcc (fuel k : nat) (dt : N) (g : Game N) (n : nat) (a : N) :
  drainAcc fuel (add (acc g) (clamp dt)) = Some (n, a) ->
  exists g', frame (fuel + k) dt g = Some (n, g') /\ acc g' = a.
Proof.
  intros E. unfold frame. apply drain_of_drainAcc. cbn [acc].
  apply drainAcc_more, E.
Qed.

(** When the loop is left its guard is false. *)
Lemma drain_exit (fuel : nat) (g : Game N) (n : nat) (g' : Game N) :
  drain fuel g = Some (n, g') -> geb (acc g') STEP = false.
Proof.
  revert g n g'. induction fuel as [| fuel IH]; intros g n g'.
  - cbn. destruct (geb (acc g) STEP) eqn:E; [discriminate |].
    intros [= <- <-]. exact E.
  - rewrite drain_unfold. destruct (geb (acc g) STEP) eqn:E.
    + destruct (drain fuel _) as [[m g1] |] eqn:Ed; [| discriminate].
      intros [= <- <-]. exact (IH _ _ _ Ed).
    + intros [= <- <-]. exact E.
Qed.

End Scheduler.

(** ** Signs and order in binary64 *)

(** What the loop needs of binary64 arithmetic, from the specification of
    the primitive operations: rounding keeps the sign of an exact result
    that is not negative, and the order is total away from NaN. *)

Lemma leb_zero_nonneg (x : float) :
  PrimFloat.leb 0 x = true <-> sf_nonneg (Prim2SF x).
Proof.
  rewrite FloatAxioms.leb_spec.
  change (Prim2SF 0) with (S754_zero false).
  unfold SFleb. destruct (Prim2SF x) as [s | s | | s m e]; cbn.
  - tauto.
  - destruct s; cbn; split; congruence.
  - split; [discriminate | contradiction].
  - destruct s; cbn; split; congruence.
Qed.

Lemma shr_1_nonneg (mrs : shr_record) :
  (0 <= shr_m mrs)%Z -> (0 <= shr_m (shr_1 mrs))%Z.
Proof.
  destruct mrs as [m r s]. destruct m as [| p | p]; cbn; [lia | | lia].
  destruct p; cbn; lia.
Qed.

Lemma iter_pos_invariant {A : Type} (P : A -> Prop) (f : A -> A) :
  (forall x, P x -> P (f x)) -> forall n x, P x -> P (SpecFloat.iter_pos f n x).
Proof.
  intros Hf. induction n as [n IH | n IH |]; intros x Hx; cbn; auto.
Qed.

Lemma shr_nonneg (mrs : shr_record) (e n : Z) :
  (0 <= shr_m mrs)%Z -> (0 <= shr_m (fst (shr mrs e n)))%Z.
Proof.
  intros Hm. unfold shr. destruct n; cbn [fst]; auto.
  apply (iter_pos_invariant (fun r => 0 <= shr_m r)%Z); auto using shr_1_nonneg.
Qed.

Lemma shr_fexp_nonneg (m e : Z) (l : location) :
  (0 <= m)%Z -> (0 <= shr_m (fst (shr_fexp prec emax m e l)))%Z.
Proof.
  intros Hm. unfold shr_fexp. apply shr_nonneg.
  destruct l as [| []]; cbn; exact Hm.
Qed.

Lemma round_nearest_even_nonneg (m : Z) (l : location) :
  (0 <= m)%Z -> (0 <= round_nearest_even m l)%Z.
Proof.
  intros Hm. destruct l as [| []]; cbn; try destruct (Z.even m); lia.
Qed.

Lemma binary_round_aux_nonneg (m e : Z) (l : location) :
  (0 <= m)%Z -> sf_nonneg (binary_round_aux prec emax false m e l).
Proof.
  intros Hm. unfold binary_round_aux.
  pose proof (shr_fexp_nonneg m e l Hm) as H1.
  destruct (shr_fexp prec emax m e l) as [mrs' e']. cbn [fst] in H1.
  pose proof (shr_fexp_nonneg _ e' loc_Exact
                (round_nearest_even_nonneg _ (loc_of_shr_record mrs') H1)) as H2.
  destruct (shr_fexp prec emax _ e' loc_Exact) as [mrs'' e'']. cbn [fst] in H2.
  destruct (shr_m mrs'') as [| p | p]; cbn.
  - exact I.
  - destruct (Z.leb _ _); cbn; reflexivity.
  - lia.
Qed.

Lemma binary_normalize_nonneg (m e : Z) :
  (0 <= m)%Z -> sf_nonneg (binary_normalize prec emax m e false).
Proof.
  intros Hm. destruct m as [| p | p]; cbn; [exact I | | lia].
  unfold binary_round. destruct (shl_align _ _ _) as [mz ez].
  apply binary_round_aux_nonneg. lia.
Qed.

Lemma SFadd_nonneg (x y : spec_float) :
  sf_nonneg x -> sf_nonneg y -> sf_nonneg (SF64add x y).
Proof.
  unfold SF64add.
  destruct x as [sx | sx | | sx mx ex], y as [sy | sy | | sy my ey];
    cbn [sf_nonneg]; intros Hx Hy; subst; try contradiction;
    try exact I; try reflexivity.
  - cbn. destruct sx, sy; exact I.
  - cbv beta iota delta [SFadd]. apply binary_normalize_nonneg. cbn [cond_Zopp]. lia.
Qed.

Lemma add_nonneg (x y : float) :
  PrimFloat.leb 0 x = true -> PrimFloat.leb 0 y = true ->
  PrimFloat.leb 0 (x + y) = true.
Proof.
  rewrite !leb_zero_nonneg, FloatAxioms.add_spec. apply SFadd_nonneg.
Qed.

Lemma digits2_pos_lower (m : positive) :
  (2 ^ (Zpos (digits2_pos m) - 1) <= Zpos m)%Z.
Proof.
  induction m as [p IH | p IH |]; cbn [digits2_pos].
  - rewrite Pos2Z.inj_succ.
    replace (Z.succ (Zpos (digits2_pos p)) - 1)%Z
      with (Z.succ (Zpos (digits2_pos p) - 1))%Z by lia.
    rewrite Z.pow_succ_r by lia. lia.
  - rewrite Pos2Z.inj_succ.
    replace (Z.succ (Zpos (digits2_pos p)) - 1)%Z
      with (Z.succ (Zpos (digits2_pos p) - 1))%Z by lia.
    rewrite Z.pow_succ_r by lia. lia.
  - cbn. lia.
Qed.

Lemma iter_xO_lower (m d : positive) :
  (2 * Zpos m <= Zpos (Pos.iter xO m d))%Z.
Proof.
  induction d as [| d IH] using Pos.peano_ind.
  - cbn. lia.
  - rewrite Pos.iter_succ. lia.
Qed.

Lemma sub_step_nonneg (a : float) :
  PrimFloat.leb (STEP : float) a = true -> PrimFloat.leb 0 (a - (STEP : float)) = true.
Proof.
  intros Hle. apply leb_zero_nonneg. rewrite FloatAxioms.sub_spec.
  rewrite FloatAxioms.leb_spec in Hle.
  pose proof (Prim2SF_valid a) as Hv.
  change (Prim2SF (STEP : float)) with (S754_finite false 4803839602528529 (-58)) in *.
  unfold SFleb in Hle. unfold SF64sub.
  destruct (Prim2SF a) as [s | s | | s m e];
    cbv beta iota delta [SFcompare SFsub] in *; try discriminate.
  - destruct s; [discriminate | reflexivity].
  - destruct s; [discriminate |].
    apply binary_normalize_nonneg. cbn [cond_Zopp].
    cbv beta iota delta [valid_binary bounded canonical_mantissa fexp] in Hv.
    apply andb_prop in Hv. destruct Hv as [Hc _]. apply Z.eqb_eq in Hc.
    pose proof (digits2_pos_lower m) as Hd.
    destruct (Z.compare (-58) e) eqn:Ez; try discriminate.
    + apply Z.compare_eq_iff in Ez. subst e.
      replace (Z.min (-58) (-58)) with (-58)%Z by reflexivity.
      unfold shl_align.
      replace (-58 - -58)%Z with 0%Z by reflexivity. cbn [fst].
      destruct (Pos.compare_cont Eq 4803839602528529 m) eqn:Em; try discriminate.
      * apply Pos.compare_eq_iff in Em. subst m. lia.
      * change (Pos.compare_cont Eq 4803839602528529 m)
          with (Pos.compare 4803839602528529 m) in Em.
        assert (Hlt : (4803839602528529 < m)%positive)
          by (apply Pos.compare_lt_iff; exact Em).
        lia.
    + assert (He : (-58 < e)%Z) by (apply Z.compare_lt_iff; exact Ez).
      replace (Z.min e (-58)) with (-58)%Z by lia.
      unfold shl_align.
      replace (-58 - -58)%Z with 0%Z by lia. cbn [fst].
      destruct (-58 - e)%Z as [| d | d] eqn:Ed; try lia. cbn [fst].
      pose proof (iter_xO_lower m d) as Hi.
      assert (Hdig : Zpos (digits2_pos m) = 53%Z).
      { unfold emin, prec, emax in Hc. lia. }
      rewrite Hdig in Hd. change (2 ^ (53 - 1))%Z with 4503599627370496%Z in Hd.
      lia.
Qed.

Lemma compare_cont_flip (p q : positive) :
  PosDef.Pos.compare_cont Eq q p = CompOpp (PosDef.Pos.compare_cont Eq p q).
Proof. symmetry. exact (Pos.compare_cont_antisym p q Eq). Qed.

Lemma below_step (a : float) :
  PrimFloat.leb 0 a = true -> PrimFloat.leb (STEP : float) a = false ->
  PrimFloat.ltb a (STEP : float) = true.
Proof.
  rewrite leb_zero_nonneg, FloatAxioms.leb_spec, FloatAxioms.ltb_spec.
  change (Prim2SF (STEP : float)) with (S754_finite false 4803839602528529 (-58)).
  unfold SFleb, SFltb.
  destruct (Prim2SF a) as [s | s | | s m e];
    cbv beta iota delta [SFcompare sf_nonneg]; intros Hs Hle;
    try contradiction; subst; try discriminate Hle; try reflexivity.
  rewrite (Z.compare_antisym (-58) e), (compare_cont_flip 4803839602528529 m).
  destruct (Z.compare (-58) e);
    destruct (PosDef.Pos.compare_cont Eq 4803839602528529 m);
    cbv in Hle |- *; first [discriminate Hle | reflexivity].
Qed.

(** ** Rounding in binary64 *)

(** How far the rounded result of an addition or subtraction can lie above
    the exact one, followed through the specification of rounding. *)

Section Rounding.

Local Open Scope Z_scope.

Lemma digits2_pos_upper (m : positive) :
  Zpos m < 2 ^ Zpos (digits2_pos m).
Proof.
  induction m as [p IH | p IH |]; cbn [digits2_pos].
  - rewrite Pos2Z.inj_succ, Z.pow_succ_r by lia. lia.
  - rewrite Pos2Z.inj_succ, Z.pow_succ_r by lia. lia.
  - cbn. lia.
Qed.

(** [m < 2^k] bounds the number of digits by [k]. *)
Lemma digits2_pos_le (m : positive) (k : Z) :
  0 <= k -> Zpos m < 2 ^ k -> Zpos (digits2_pos m) <= k.
Proof.
  intros Hk Hm. pose proof (digits2_pos_lower m) as Hl.
  assert (Hlt : 2 ^ (Zpos (digits2_pos m) - 1) < 2 ^ k) by lia.
  apply Z.pow_lt_mono_r_iff in Hlt; lia.
Qed.

Lemma shr_1_bound (mrs : shr_record) :
  0 <= shr_m mrs -> 0 <= shr_m (shr_1 mrs) /\ 2 * shr_m (shr_1 mrs) <= shr_m mrs.
Proof.
  destruct mrs as [m r s]. destruct m as [| p | p]; cbn; [lia | | lia].
  destruct p; cbn; lia.
Qed.

Lemma iter_shr_1_bound (p : positive) (mrs : shr_record) :
  0 <= shr_m mrs ->
  0 <= shr_m (SpecFloat.iter_pos shr_1 p mrs) /\
  2 ^ Zpos p * shr_m (SpecFloat.iter_pos shr_1 p mrs) <= shr_m mrs.
Proof.
  revert mrs. induction p as [p IH | p IH |]; intros mrs Hm; cbn [SpecFloat.iter_pos].
  - destruct (shr_1_bound mrs Hm) as [H1 H1'].
    destruct (IH _ H1) as [H2 H2'].
    destruct (IH _ H2) as [H3 H3'].
    split; [exact H3 |].
    replace (Zpos p~1) with (Zpos p + Zpos p + 1) by lia.
    rewrite !Z.pow_add_r by lia. change (2 ^ 1) with 2.
    pose proof (Z.pow_pos_nonneg 2 (Zpos p) ltac:(lia) ltac:(lia)) as Hp.
    nia.
  - destruct (IH _ Hm) as [H2 H2'].
    destruct (IH _ H2) as [H3 H3'].
    split; [exact H3 |].
    replace (Zpos p~0) with (Zpos p + Zpos p) by lia.
    rewrite !Z.pow_add_r by lia.
    pose proof (Z.pow_pos_nonneg 2 (Zpos p) ltac:(lia) ltac:(lia)) as Hp.
    nia.
  - destruct (shr_1_bound mrs Hm) as [H1 H1']. split; [exact H1 |].
    change (2 ^ 1) with 2. lia.
Qed.

(** A right shift by [n]: the exponent grows by [max n 0] and the mantissa
    shrinks accordingly. *)
Lemma shr_bound (mrs : shr_record) (e n : Z) :
  0 <= shr_m mrs ->
  let r := shr mrs e n in
  snd r = e + Z.max n 0 /\ 0 <= shr_m (fst r) /\
  2 ^ Z.max n 0 * shr_m (fst r) <= shr_m mrs.
Proof.
  intros Hm. unfold shr. destruct n as [| p | p]; cbn [fst snd].
  - change (Z.max 0 0) with 0. change (2 ^ 0) with 1. lia.
  - replace (Z.max (Zpos p) 0) with (Zpos p) by lia.
    destruct (iter_shr_1_bound p mrs Hm). auto.
  - replace (Z.max (Zneg p) 0) with 0 by lia. change (2 ^ 0) with 1. lia.
Qed.

Lemma round_nearest_even_bound (m : Z) (l : location) :
  0 <= m -> 0 <= round_nearest_even m l <= m + 1.
Proof.
  intros Hm. destruct l as [| []]; cbn; try destruct (Z.even m); lia.
Qed.

Lemma Zdigits2_le (m k : Z) :
  0 <= m -> 0 <= k -> m < 2 ^ k -> Zdigits2 m <= k.
Proof.
  intros Hm Hk Hlt. destruct m as [| p | p]; cbn [Zdigits2]; [lia | | lia].
  apply digits2_pos_le; assumption.
Qed.

Lemma binary_round_aux_bound (mz : positive) (ez : Z) :
  -1074 <= ez ->
  ez <= fexp prec emax (Zpos (digits2_pos mz) + ez) ->
  Zpos (digits2_pos mz) + ez <= 0 ->
  sf_finite_nonneg (binary_round_aux prec emax false (Zpos mz) ez loc_Exact) /\
  units (binary_round_aux prec emax false (Zpos mz) ez loc_Exact)
    <= Zpos mz * 2 ^ (ez + 1074)
       + 2 ^ (fexp prec emax (Zpos (digits2_pos mz) + ez) + 1074).
Proof.
  intros Hez Hf Hd.
  set (f := fexp prec emax (Zpos (digits2_pos mz) + ez)) in *.
  assert (Hf53 : f <= -53) by (unfold f, fexp, emin, prec, emax; lia).
  unfold binary_round_aux, shr_fexp. cbn [Zdigits2]. fold f.
  pose proof (shr_bound (shr_record_of_loc (Zpos mz) loc_Exact) ez (f - ez)
                ltac:(cbn; lia)) as H1.
  cbv zeta in H1.
  destruct (shr (shr_record_of_loc (Zpos mz) loc_Exact) ez (f - ez)) as [mrs' e'].
  cbn [fst snd shr_record_of_loc shr_m] in H1. destruct H1 as (He' & Hm' & Hs').
  replace (Z.max (f - ez) 0) with (f - ez) in * by lia.
  assert (Hef : e' = f) by lia. clear He'. subst e'.
  pose proof (round_nearest_even_bound (shr_m mrs') (loc_of_shr_record mrs') Hm')
    as Hm1.
  set (m1 := round_nearest_even (shr_m mrs') (loc_of_shr_record mrs')) in *.
  pose proof (shr_bound (shr_record_of_loc m1 loc_Exact) f
                (fexp prec emax (Zdigits2 m1 + f) - f) ltac:(cbn; lia)) as H2.
  cbv zeta in H2.
  destruct (shr (shr_record_of_loc m1 loc_Exact) f
                (fexp prec emax (Zdigits2 m1 + f) - f)) as [mrs'' e''].
  cbn [fst snd shr_record_of_loc shr_m] in H2. destruct H2 as (He'' & Hm'' & Hs'').
  set (k2 := Z.max (fexp prec emax (Zdigits2 m1 + f) - f) 0) in *.
  (* digits of the rounded mantissa *)
  pose proof (digits2_pos_upper mz) as Hup.
  pose proof (digits2_pos_lower mz) as Hlow.
  assert (Hpow : 0 < 2 ^ (f - ez)) by (apply Z.pow_pos_nonneg; lia).
  assert (Hm1up : m1 < 2 ^ (Zpos (digits2_pos mz) + 1)).
  { rewrite Z.pow_add_r by lia. change (2 ^ 1) with 2. nia. }
  pose proof (Zdigits2_le m1 (Zpos (digits2_pos mz) + 1) ltac:(lia) ltac:(lia) Hm1up)
    as Hdig.
  assert (He971 : e'' <= 971).
  { subst e''. unfold k2, fexp, emin, prec, emax. lia. }
  assert (Hk2 : 0 <= k2) by (unfold k2; lia).
  assert (HP : 2 ^ (e'' + 1074) = 2 ^ k2 * 2 ^ (f + 1074)).
  { subst e''. rewrite <- Z.pow_add_r by lia. f_equal. lia. }
  assert (HP' : 2 ^ (f + 1074) = 2 ^ (f - ez) * 2 ^ (ez + 1074)).
  { rewrite <- Z.pow_add_r by lia. f_equal. lia. }
  assert (HP1 : 0 < 2 ^ (f + 1074)) by (apply Z.pow_pos_nonneg; lia).
  assert (HP2 : 0 < 2 ^ (ez + 1074)) by (apply Z.pow_pos_nonneg; lia).
  assert (HP3 : 0 < 2 ^ k2) by (apply Z.pow_pos_nonneg; lia).
  destruct (shr_m mrs'') as [| m | m]; [| | lia].
  - cbn. split; [exact I | nia].
  - replace (Z.leb e'' (emax - prec)) with true
      by (symmetry; apply Z.leb_le; unfold emax, prec; lia).
    cbn [sf_finite_nonneg units]. split; [split; [reflexivity | lia] |].
    rewrite HP.
    set (P1 := 2 ^ (f + 1074)) in *. set (P2 := 2 ^ (ez + 1074)) in *.
    set (P3 := 2 ^ (f - ez)) in *. set (P4 := 2 ^ k2) in *.
    assert (Ha : Zpos m * (P4 * P1) <= m1 * P1) by nia.
    assert (Hb : m1 * P1 <= (shr_m mrs' + 1) * P1) by nia.
    assert (Hc : shr_m mrs' * P1 <= Zpos mz * P2) by (rewrite HP'; nia).
    lia.
Qed.

Lemma iter_xO_units (m d : positive) :
  Zpos (Pos.iter xO m d) = Zpos m * 2 ^ Zpos d.
Proof.
  induction d as [| d IH] using Pos.peano_ind.
  - cbn. lia.
  - rewrite Pos.iter_succ, Pos2Z.inj_succ, Z.pow_succ_r by lia.
    rewrite Pos2Z.inj_xO, IH. lia.
Qed.

Lemma iter_xO_digits (m d : positive) :
  Zpos (digits2_pos (Pos.iter xO m d)) = Zpos (digits2_pos m) + Zpos d.
Proof.
  induction d as [| d IH] using Pos.peano_ind.
  - cbn [Pos.iter digits2_pos]. lia.
  - rewrite Pos.iter_succ. cbn [digits2_pos]. lia.
Qed.

Lemma binary_round_bound (D : positive) (e : Z) :
  -1074 <= e ->
  Zpos (digits2_pos D) + e <= 0 ->
  sf_finite_nonneg (binary_round prec emax false D e) /\
  units (binary_round prec emax false D e)
    <= Zpos D * 2 ^ (e + 1074)
       + 2 ^ (fexp prec emax (Zpos (digits2_pos D) + e) + 1074).
Proof.
  intros He Hd. unfold binary_round, shl_align.
  set (f := fexp prec emax (Zpos (digits2_pos D) + e)).
  assert (Hf : -1074 <= f) by (unfold f, fexp, emin, prec, emax; lia).
  destruct (f - e) as [| d | d] eqn:Efe.
  - apply (binary_round_aux_bound D e He); [fold f; lia | exact Hd].
  - apply (binary_round_aux_bound D e He); [fold f; lia | exact Hd].
  - assert (Hdig : Zpos (digits2_pos (Pos.iter xO D d)) + f
                   = Zpos (digits2_pos D) + e)
      by (rewrite iter_xO_digits; lia).
    destruct (binary_round_aux_bound (Pos.iter xO D d) f Hf) as [Hfin Hu].
    + rewrite Hdig. fold f. lia.
    + rewrite Hdig. exact Hd.
    + split; [exact Hfin |]. rewrite Hdig in Hu. fold f in Hu.
      set (U := units _) in *.
      rewrite iter_xO_units in Hu.
      replace (e + 1074) with (Zpos d + (f + 1074)) by lia.
      rewrite Z.pow_add_r by lia. lia.
Qed.

Lemma ulp_bound (D : positive) (e : Z) :
  -1074 <= e ->
  2 ^ 52 * 2 ^ (fexp prec emax (Zpos (digits2_pos D) + e) + 1074)
    <= Zpos D * 2 ^ (e + 1074) + 2 ^ 52.
Proof.
  intros He. pose proof (digits2_pos_lower D) as Hl.
  assert (HP : 0 < 2 ^ (e + 1074)) by (apply Z.pow_pos_nonneg; lia).
  unfold fexp, emin, prec, emax.
  destruct (Z.max_spec (Zpos (digits2_pos D) + e - 53) (3 - 1024 - 53))
    as [[_ ->] | [_ ->]].
  - change (3 - 1024 - 53 + 1074) with 0. change (2 ^ 0) with 1. nia.
  - replace (Zpos (digits2_pos D) + e - 53 + 1074)
      with ((Zpos (digits2_pos D) - 1) + (e + 1074) - 52) by lia.
    destruct (Z.le_gt_cases 52 ((Zpos (digits2_pos D) - 1) + (e + 1074)))
      as [Hge | Hlt].
    + rewrite <- Z.pow_add_r by lia.
      replace (52 + (Zpos (digits2_pos D) - 1 + (e + 1074) - 52))
        with ((Zpos (digits2_pos D) - 1) + (e + 1074)) by lia.
      rewrite Z.pow_add_r by lia. nia.
    + rewrite (Z.pow_neg_r 2 (Zpos (digits2_pos D) - 1 + (e + 1074) - 52)) by lia.
      nia.
Qed.

Lemma roundUp_mono (u v : Z) : u <= v -> roundUp u <= roundUp v.
Proof.
  intros H. unfold roundUp.
  pose proof (Z.div_le_mono u v (2 ^ 52) ltac:(lia) H). lia.
Qed.

Lemma roundUp_ge (v : Z) : 0 <= v -> v <= roundUp v.
Proof.
  intros H. unfold roundUp.
  pose proof (Z.div_pos v (2 ^ 52) H ltac:(lia)). lia.
Qed.

Lemma binary_normalize_bound (m e : Z) :
  0 <= m -> -1074 <= e -> m * 2 ^ (e + 1074) < 2 ^ 1074 ->
  sf_finite_nonneg (binary_normalize prec emax m e false) /\
  units (binary_normalize prec emax m e false) <= roundUp (m * 2 ^ (e + 1074)).
Proof.
  intros Hm He Hlt. destruct m as [| D | D]; [| | lia].
  - cbn [binary_normalize sf_finite_nonneg units]. split; [exact I |].
    rewrite Z.mul_0_l. unfold roundUp. rewrite Z.div_0_l by lia. lia.
  - cbn [binary_normalize].
    assert (Hd : Zpos (digits2_pos D) + e <= 0).
    { pose proof (digits2_pos_lower D) as Hl.
      assert (HP : 0 < 2 ^ (e + 1074)) by (apply Z.pow_pos_nonneg; lia).
      assert (H2 : 2 ^ (Zpos (digits2_pos D) - 1 + (e + 1074)) < 2 ^ 1074).
      { rewrite Z.pow_add_r by lia. nia. }
      apply Z.pow_lt_mono_r_iff in H2; lia. }
    destruct (binary_round_bound D e He Hd) as [Hfin Hu].
    split; [exact Hfin |].
    pose proof (ulp_bound D e He) as Hulp.
    set (F := 2 ^ (fexp prec emax (Zpos (digits2_pos D) + e) + 1074)) in *.
    set (X := Zpos D * 2 ^ (e + 1074)) in *.
    unfold roundUp.
    assert (HF : F <= X / 2 ^ 52 + 1).
    { replace (X / 2 ^ 52 + 1) with ((X + 1 * 2 ^ 52) / 2 ^ 52)
        by (rewrite Z.div_add by lia; reflexivity).
      apply Z.div_le_lower_bound; lia. }
    lia.
Qed.

(** What [valid_binary] says of a finite number: the exponent is at least
    -1074, the mantissa has at most 53 digits, and exactly 53 above the
    smallest exponent. *)
Lemma valid_finite (s : bool) (m : positive) (e : Z) :
  valid_binary (S754_finite s m e) = true ->
  -1074 <= e /\ Zpos (digits2_pos m) <= 53 /\
  (-1074 < e -> Zpos (digits2_pos m) = 53).
Proof.
  cbv beta iota delta [valid_binary bounded canonical_mantissa fexp].
  intros Hv. apply andb_prop in Hv. destruct Hv as [Hc _].
  apply Z.eqb_eq in Hc. unfold emin, prec, emax in Hc. lia.
Qed.

Lemma units_lt_of_exponent (m1 : positive) (e1 : Z) (m2 : positive) (e2 : Z) :
  valid_binary (S754_finite false m1 e1) = true ->
  valid_binary (S754_finite false m2 e2) = true ->
  e1 < e2 ->
  Zpos m1 * 2 ^ (e1 + 1074) < Zpos m2 * 2 ^ (e2 + 1074).
Proof.
  intros H1 H2 Hlt.
  apply valid_finite in H1. destruct H1 as (He1 & Hd1 & _).
  apply valid_finite in H2. destruct H2 as (He2 & _ & Hd2).
  specialize (Hd2 ltac:(lia)).
  pose proof (digits2_pos_upper m1) as Hu.
  pose proof (digits2_pos_lower m2) as Hl. rewrite Hd2 in Hl.
  assert (Hm1 : Zpos m1 < 2 ^ 53).
  { eapply Z.lt_le_trans; [exact Hu |]. apply Z.pow_le_mono_r; lia. }
  assert (HP : 0 < 2 ^ (e1 + 1074)) by (apply Z.pow_pos_nonneg; lia).
  assert (HQ : 2 * 2 ^ (e1 + 1074) <= 2 ^ (e2 + 1074)).
  { rewrite <- Z.pow_succ_r by lia. apply Z.pow_le_mono_r; lia. }
  change (2 ^ (53 - 1)) with 4503599627370496 in Hl.
  change (2 ^ 53) with 9007199254740992 in Hm1.
  nia.
Qed.

(** The order of two positive finite numbers is the order of their values. *)
Lemma compare_units (m1 : positive) (e1 : Z) (m2 : positive) (e2 : Z) :
  valid_binary (S754_finite false m1 e1) = true ->
  valid_binary (S754_finite false m2 e2) = true ->
  match SFcompare (S754_finite false m1 e1) (S754_finite false m2 e2) with
  | Some Lt => Zpos m1 * 2 ^ (e1 + 1074) < Zpos m2 * 2 ^ (e2 + 1074)
  | Some Eq => Zpos m1 * 2 ^ (e1 + 1074) = Zpos m2 * 2 ^ (e2 + 1074)
  | Some Gt => Zpos m2 * 2 ^ (e2 + 1074) < Zpos m1 * 2 ^ (e1 + 1074)
  | None => False
  end.
Proof.
  intros H1 H2. cbv beta iota delta [SFcompare].
  destruct (Z.compare_spec e1 e2) as [He | He | He].
  - subst e2.
    assert (HP : 0 < 2 ^ (e1 + 1074)).
    { apply valid_finite in H1. apply Z.pow_pos_nonneg; lia. }
    pose proof (Pos.compare_spec m1 m2) as Hc.
    change (Pos.compare m1 m2) with (PosDef.Pos.compare_cont Eq m1 m2) in Hc.
    destruct Hc as [Hm | Hm | Hm].
    + subst m2. reflexivity.
    + assert (Zpos m1 < Zpos m2) by lia. nia.
    + assert (Zpos m2 < Zpos m1) by lia. nia.
  - exact (units_lt_of_exponent m1 e1 m2 e2 H1 H2 He).
  - exact (units_lt_of_exponent m2 e2 m1 e1 H2 H1 He).
Qed.

Lemma units_nonneg (v : spec_float) : 0 <= units v.
Proof.
  destruct v as [s | s | | s m e]; cbn; try lia.
  destruct s; [lia |]. apply Z.mul_nonneg_nonneg; [lia |].
  apply Z.pow_nonneg. lia.
Qed.

(** *** The guard and the subtraction *)

Lemma STEP_binary64 : Prim2SF (STEP : float) = S754_finite false 4803839602528529 (-58).
Proof. reflexivity. Qed.

Lemma MAX_DT_binary64 : Prim2SF (MAX_DT : float) = S754_finite false 4503599627370496 (-54).
Proof. reflexivity. Qed.

(** [a >= STEP] for a finite [a]: at least [STEP_UNITS] units. *)
Lemma guard_true_units (a : float) :
  sf_finite_nonneg (Prim2SF a) ->
  PrimFloat.leb (STEP : float) a = true ->
  STEP_UNITS <= units (Prim2SF a).
Proof.
  intros Hfin Hle. rewrite FloatAxioms.leb_spec in Hle.
  pose proof (Prim2SF_valid a) as Hva.
  pose proof (Prim2SF_valid (STEP : float)) as Hvs.
  unfold STEP_UNITS. rewrite STEP_binary64 in *.
  unfold SFleb in Hle.
  destruct (Prim2SF a) as [s | s | | s m e]; cbn [sf_finite_nonneg] in Hfin;
    try contradiction.
  - cbv beta iota delta [SFcompare] in Hle. discriminate Hle.
  - destruct Hfin as [-> _].
    pose proof (compare_units _ _ _ _ Hvs Hva) as Hc.
    destruct (SFcompare _ _) as [[| |] |]; try discriminate Hle;
      cbn [units]; lia.
Qed.

(** [a < STEP] for an [a] that is not negative: finite, and fewer than
    [STEP_UNITS] units. *)
Lemma below_step_units (a : float) :
  PrimFloat.leb 0 a = true ->
  PrimFloat.ltb a (STEP : float) = true ->
  sf_finite_nonneg (Prim2SF a) /\ units (Prim2SF a) < STEP_UNITS.
Proof.
  rewrite leb_zero_nonneg, FloatAxioms.ltb_spec.
  pose proof (Prim2SF_valid a) as Hva.
  pose proof (Prim2SF_valid (STEP : float)) as Hvs.
  unfold STEP_UNITS. rewrite STEP_binary64 in *.
  unfold SFltb.
  destruct (Prim2SF a) as [s | s | | s m e]; cbn [sf_nonneg];
    intros Hs Hlt; try contradiction.
  - split; [exact I |]. cbn [units]. reflexivity.
  - subst s. cbv beta iota delta [SFcompare] in Hlt. discriminate Hlt.
  - subst s.
    pose proof (compare_units _ _ _ _ Hva Hvs) as Hc.
    destruct (SFcompare _ _) as [[| |] |]; try discriminate Hlt.
    split; [| exact Hc].
    apply valid_finite in Hva. cbn. split; [reflexivity | lia].
Qed.

(** The frame time after the clamp: finite, at most [MAX_DT_UNITS] units. *)
Lemma clamp_units (dt : float) :
  PrimFloat.leb 0 dt = true ->
  sf_finite_nonneg (Prim2SF (clamp dt)) /\
  units (Prim2SF (clamp dt)) <= MAX_DT_UNITS.
Proof.
  intros H0. unfold clamp. destruct (gtb dt MAX_DT) eqn:Hgt.
  - unfold MAX_DT_UNITS. rewrite MAX_DT_binary64. cbn [sf_finite_nonneg units].
    split; [split; [reflexivity | lia] | lia].
  - change (gtb dt MAX_DT) with (PrimFloat.ltb (MAX_DT : float) dt) in Hgt.
    rewrite FloatAxioms.ltb_spec in Hgt. apply leb_zero_nonneg in H0.
    pose proof (Prim2SF_valid dt) as Hvd.
    pose proof (Prim2SF_valid (MAX_DT : float)) as Hvm.
    unfold MAX_DT_UNITS. rewrite MAX_DT_binary64 in *.
    unfold SFltb in Hgt.
    destruct (Prim2SF dt) as [s | s | | s m e]; cbn [sf_nonneg] in H0;
      try contradiction.
    + split; [exact I |]. cbn [units]. lia.
    + subst s. cbv beta iota delta [SFcompare] in Hgt. discriminate Hgt.
    + subst s.
      pose proof (compare_units _ _ _ _ Hvm Hvd) as Hc.
      apply valid_finite in Hvd.
      destruct (SFcompare _ _) as [[| |] |]; try discriminate Hgt;
        (split; [cbn; split; [reflexivity | lia] | cbn [units]; lia]).
Qed.

Lemma shl_align_units (m : positive) (e ez : Z) :
  ez <= e -> -1074 <= ez ->
  Zpos (fst (shl_align m e ez)) * 2 ^ (ez + 1074) = Zpos m * 2 ^ (e + 1074).
Proof.
  intros Hle Hez. unfold shl_align.
  destruct (ez - e) as [| d | d] eqn:Ed; cbn [fst]; try lia.
  - replace ez with e by lia. reflexivity.
  - rewrite iter_xO_units.
    replace (e + 1074) with (Zpos d + (ez + 1074)) by lia.
    rewrite (Z.pow_add_r 2 (Zpos d) (ez + 1074)) by lia. lia.
Qed.

(** The sum of two finite numbers that are not negative, when it stays
    below 1: finite, and at most the rounded-up exact sum. *)
Lemma SFadd_units (x y : spec_float) :
  valid_binary x = true -> valid_binary y = true ->
  sf_finite_nonneg x -> sf_finite_nonneg y ->
  units x + units y < 2 ^ 1074 ->
  sf_finite_nonneg (SF64add x y) /\
  units (SF64add x y) <= roundUp (units x + units y).
Proof.
  intros Hvx Hvy Hx Hy Hlt. unfold SF64add.
  pose proof (units_nonneg x) as Hux. pose proof (units_nonneg y) as Huy.
  destruct x as [sx | sx | | sx mx ex]; cbn [sf_finite_nonneg] in Hx;
    try contradiction;
    destruct y as [sy | sy | | sy my ey]; cbn [sf_finite_nonneg] in Hy;
    try contradiction.
  - split.
    + cbn. destruct sx, sy; exact I.
    + replace (units (SFadd prec emax (S754_zero sx) (S754_zero sy))) with 0
        by (destruct sx, sy; reflexivity).
      cbn [units]. apply roundUp_ge. lia.
  - cbn [SFadd]. split; [exact Hy |].
    change (units (S754_zero sx)) with 0. rewrite Z.add_0_l.
    apply roundUp_ge, Huy.
  - cbn [SFadd]. split; [exact Hx |].
    change (units (S754_zero sy)) with 0. rewrite Z.add_0_r.
    apply roundUp_ge, Hux.
  - destruct Hx as [-> Hex], Hy as [-> Hey].
    cbv beta iota delta [SFadd]. cbn [cond_Zopp units] in *.
    set (ez := Z.min ex ey).
    assert (Hsum : (Zpos (fst (shl_align mx ex ez)) + Zpos (fst (shl_align my ey ez)))
                   * 2 ^ (ez + 1074)
                   = Zpos mx * 2 ^ (ex + 1074) + Zpos my * 2 ^ (ey + 1074)).
    { rewrite Z.mul_add_distr_r.
      rewrite !shl_align_units by (unfold ez; lia). reflexivity. }
    rewrite <- Hsum in Hlt |- *.
    apply binary_normalize_bound; [lia | unfold ez; lia | exact Hlt].
Qed.

Lemma add_units (x y : float) :
  sf_finite_nonneg (Prim2SF x) -> sf_finite_nonneg (Prim2SF y) ->
  units (Prim2SF x) + units (Prim2SF y) < 2 ^ 1074 ->
  sf_finite_nonneg (Prim2SF (x + y)) /\
  units (Prim2SF (x + y)) <= roundUp (units (Prim2SF x) + units (Prim2SF y)).
Proof.
  intros Hx Hy Hlt. rewrite FloatAxioms.add_spec.
  apply SFadd_units; auto using Prim2SF_valid.
Qed.

(** One turn of the loop on the accumulator: [a >= STEP], [a] below 1. *)
Lemma sub_step_units (a : float) :
  sf_finite_nonneg (Prim2SF a) ->
  PrimFloat.leb (STEP : float) a = true ->
  units (Prim2SF a) < 2 ^ 1074 ->
  sf_finite_nonneg (Prim2SF (a - (STEP : float))) /\
  units (Prim2SF (a - (STEP : float))) <= roundUp (units (Prim2SF a) - STEP_UNITS).
Proof.
  intros Hfin Hle Hlt.
  pose proof (guard_true_units a Hfin Hle) as Hge.
  rewrite FloatAxioms.sub_spec.
  pose proof (Prim2SF_valid a) as Hva.
  unfold STEP_UNITS in *. rewrite STEP_binary64 in *. unfold SF64sub.
  destruct (Prim2SF a) as [s | s | | s m e]; cbn [sf_finite_nonneg] in Hfin;
    try contradiction.
  destruct Hfin as [-> He]. cbn [units] in *.
  cbv beta iota delta [SFsub]. cbn [cond_Zopp].
  (* the exponent of [a] is at least that of [STEP] *)
  assert (He58 : -58 <= e).
  { destruct (Z.le_gt_cases (-58) e) as [H | H]; [exact H | exfalso].
    pose proof (units_lt_of_exponent m e 4803839602528529 (-58) Hva
                  ltac:(reflexivity) H) as Hc.
    lia. }
  replace (Z.min e (-58)) with (-58) by lia.
  assert (Hdiff : (Zpos (fst (shl_align m e (-58)))
                   - Zpos (fst (shl_align 4803839602528529 (-58) (-58))))
                  * 2 ^ (-58 + 1074)
                  = Zpos m * 2 ^ (e + 1074) - 4803839602528529 * 2 ^ (-58 + 1074)).
  { rewrite Z.mul_sub_distr_r.
    rewrite !shl_align_units by lia. reflexivity. }
  rewrite <- Hdiff.
  assert (HP : 0 < 2 ^ (-58 + 1074)) by (apply Z.pow_pos_nonneg; lia).
  apply binary_normalize_bound; [nia | lia |].
  rewrite Hdiff. lia.
Qed.

(** *** The loop ends *)

Lemma settles_unfold (fuel : nat) (b : Z) :
  settles fuel b =
  if b <? STEP_UNITS then true
  else match fuel with
       | O => false
       | S fuel' => settles fuel' (roundUp (b - STEP_UNITS))
       end.
Proof. destruct fuel; reflexivity. Qed.

Lemma STEP_UNITS_large : 2 ^ 1022 < STEP_UNITS.
Proof. reflexivity. Qed.

Lemma drainAcc_settles (fuel : nat) (b : Z) (a : float) :
  settles fuel b = true -> b < 2 ^ 1074 ->
  sf_finite_nonneg (Prim2SF a) -> units (Prim2SF a) <= b ->
  exists (n : nat) (a' : float), drainAcc fuel a = Some (n, a') /\ (n <= fuel)%nat.
Proof.
  revert b a. induction fuel as [| fuel IH]; intros b a Hs Hb Hfin Hu.
  - cbn [drainAcc]. destruct (geb a STEP) eqn:E.
    + pose proof (guard_true_units a Hfin E) as Hge.
      rewrite settles_unfold in Hs.
      destruct (Z.ltb_spec b STEP_UNITS); [lia | discriminate Hs].
    + exists O, a. split; [reflexivity | lia].
  - rewrite drainAcc_unfold. destruct (geb a STEP) eqn:E.
    + pose proof (guard_true_units a Hfin E) as Hge.
      rewrite settles_unfold in Hs.
      destruct (Z.ltb_spec b STEP_UNITS) as [Hlt | Hle]; [lia |].
      destruct (sub_step_units a Hfin E ltac:(lia)) as [Hfin' Hu'].
      assert (Hm : roundUp (units (Prim2SF a) - STEP_UNITS)
                   <= roundUp (b - STEP_UNITS)) by (apply roundUp_mono; lia).
      assert (Hb' : roundUp (b - STEP_UNITS) < 2 ^ 1074).
      { unfold roundUp. pose proof STEP_UNITS_large as HS.
        assert (Hq : (b - STEP_UNITS) / 2 ^ 52 < 2 ^ 1022).
        { apply Z.div_lt_upper_bound; [lia |].
          change (2 ^ 52 * 2 ^ 1022) with (2 ^ 1074). lia. }
        lia. }
      destruct (IH (roundUp (b - STEP_UNITS)) (PrimFloat.sub a STEP) Hs Hb' Hfin')
        as (n & a' & En & Hn); [lia |].
      change (PrimFloat.sub a STEP) with (sub a STEP) in En.
      exists (S n), a'. rewrite En. split; [reflexivity | lia].
    + exists O, a. split; [reflexivity | lia].
Qed.

(** A frame in binary64, entered with the accumulator in [[0, STEP)] and a
    frame time that is not negative: the loop ends within 16 steps. *)
Lemma frame_ends_binary64 (dt : float) (g : Game float) :
  geb (acc g) (ofZ 0) = true -> gtb STEP (acc g) = true ->
  geb dt (ofZ 0) = true ->
  exists (n : nat) (g' : Game float),
    frame 16 dt g = Some (n, g') /\ (n <= 16)%nat.
Proof.
  intros H0 H1 Hdt.
  destruct (below_step_units (acc g) H0 H1) as [Hfa Hua].
  destruct (clamp_units dt Hdt) as [Hfd Hud].
  set (b := roundUp (STEP_UNITS - 1 + MAX_DT_UNITS)).
  assert (Hsum : units (Prim2SF (acc g)) + units (Prim2SF (clamp dt))
                 <= STEP_UNITS - 1 + MAX_DT_UNITS) by lia.
  assert (Hlt : STEP_UNITS - 1 + MAX_DT_UNITS < 2 ^ 1074) by reflexivity.
  destruct (add_units (acc g) (clamp dt) Hfa Hfd ltac:(lia)) as [Hf1 Hu1].
  pose proof (roundUp_mono _ _ Hsum) as Hm.
  destruct (drainAcc_settles 16 b (add (acc g) (clamp dt)))
    as (n & a' & E & Hn).
  - vm_compute. reflexivity.
  - vm_compute. reflexivity.
  - exact Hf1.
  - unfold b. cbn [add Binary64.num]. lia.
  - destruct (frame_of_drainAcc 16 0 dt g n a' E) as (g' & Ef & _).
    exists n, g'. split; [exact Ef | exact Hn].
Qed.

End Rounding.

(** ** Frames in binary64 *)

(** The loop in binary64: entered with an accumulator that is not negative,
    it can only be left with the accumulator in [[0, STEP)]. *)
Lemma drain_bounds_binary64 (fuel : nat) (g : Game float) (n : nat) (g' : Game float) :
  geb (acc g) (ofZ 0) = true ->
  drain fuel g = Some (n, g') ->
  geb (acc g') (ofZ 0) = true /\ gtb STEP (acc g') = true.
Proof.
  revert g n g'. induction fuel as [| fuel IH]; intros g n g' H0.
  - cbn [drain]. destruct (geb (acc g) STEP) eqn:E; [discriminate |].
    intros [= <- <-]. split; [exact H0 | exact (below_step _ H0 E)].
  - rewrite drain_unfold. destruct (geb (acc g) STEP) eqn:E.
    + destruct (drain fuel _) as [[m g1] |] eqn:Ed; [| discriminate].
      intros [= <- <-]. refine (IH _ _ _ _ Ed). cbn [acc].
      exact (sub_step_nonneg (acc g) E).
    + intros [= <- <-]. split; [exact H0 | exact (below_step _ H0 E)].
Qed.

Lemma clamp_nonneg_binary64 (dt : float) :
  geb dt (ofZ 0) = true -> geb (clamp dt) (ofZ 0) = true.
Proof.
  intros Hdt. unfold clamp. destruct (gtb dt MAX_DT); [reflexivity | exact Hdt].
Qed.

Lemma frame_bounds_binary64 (fuel : nat) (dt : float) (g : Game float)
      (n : nat) (g' : Game float) :
  geb (acc g) (ofZ 0) = true -> geb dt (ofZ 0) = true ->
  frame fuel dt g = Some (n, g') ->
  geb (acc g') (ofZ 0) = true /\ gtb STEP (acc g') = true.
Proof.
  intros H0 Hdt. unfold frame. apply drain_bounds_binary64. cbn [acc].
  apply add_nonneg; [exact H0 | exact (clamp_nonneg_binary64 dt Hdt)].
Qed.

(** A frame in binary64, entered with the accumulator in [[0, STEP)] and
    a frame time that is not negative: the loop ends within 16 steps and
    leaves the accumulator in [[0, STEP)]. *)
Lemma frame_binary64 (dt : float) (g : Game float) :
  accInRange (acc g) = true -> geb dt (ofZ 0) = true ->
  exists (n : nat) (g' : Game float),
    frame 16 dt g = Some (n, g') /\ (n <= 16)%nat /\
    accInRange (acc g') = true.
Proof.
  intros Hr Hdt. unfold accInRange in Hr. apply andb_prop in Hr.
  destruct Hr as [H0 H1].
  destruct (frame_ends_binary64 dt g H0 H1 Hdt) as (n & g' & E & Hn).
  destruct (frame_bounds_binary64 16 dt g n g' H0 Hdt E) as [H0' H1'].
  exists n, g'. split; [exact E |]. split; [exact Hn |].
  unfold accInRange. rewrite H0', H1'. reflexivity.
Qed.

(** Frame after frame. *)
Lemma frames_binary64 (dts : list float) (g : Game float) :
  accInRange (acc g) = true ->
  Forall (fun dt => geb dt (ofZ 0) = true) dts ->
  framesOk 16 dts g = true.
Proof.
  intros Hr Hdts. revert g Hr.
  induction Hdts as [| dt dts Hdt _ IH]; intros g Hr; [reflexivity |].
  cbn [framesOk].
  destruct (frame_binary64 dt g Hr Hdt) as (n & g' & -> & _ & Hr').
  rewrite Hr'. apply IH, Hr'.
Qed.

(** *** A stalled frame *)

(** In binary64, [x >= 0.25] without [x > 0.25] leaves [x = 0.25]. *)
Lemma float_ge_not_gt (x : float) :
  PrimFloat.leb 0.25 x = true -> PrimFloat.ltb 0.25 x = false -> x = 0.25%float.
Proof.
  intros Hle Hlt.
  rewrite FloatAxioms.leb_spec in Hle. rewrite FloatAxioms.ltb_spec in Hlt.
  apply Prim2SF_inj.
  change (Prim2SF 0.25) with (S754_finite false 4503599627370496 (-54)) in *.
  unfold SFleb, SFltb in *.
  destruct (Prim2SF x) as [s | s | | s m e];
    cbv beta iota delta [SFcompare] in *; try discriminate;
    try (destruct s; discriminate).
  destruct s; [discriminate |].
  destruct (Z.compare (-54) e) eqn:Ez; try discriminate.
  apply Z.compare_eq_iff in Ez. subst e.
  destruct (Pos.compare_cont Eq 4503599627370496 m) eqn:Em; try discriminate.
  apply Pos.compare_eq_iff in Em. subst m. reflexivity.
Qed.

Lemma clamp_stall (dt : float) : geb dt MAX_DT = true -> clamp dt = MAX_DT.
Proof.
  intros Hge. unfold clamp.
  destruct (gtb dt MAX_DT) eqn:Hgt; [reflexivity |].
  apply float_ge_not_gt; [exact Hge | exact Hgt].
Qed.

(** C7.  A frame time of at least the cap 0.25 is treated exactly as the
    cap itself: the frame makes the same calls of [update] and ends in the
    same state.  With the accumulator in [[0, STEP)] that is at most 16
    steps, however long the stall; started with an empty accumulator it is
    15 steps, also for ten times the cap.  Binary64 arithmetic, as the
    program runs. *)
Theorem stall_capped (dt : float) (g : Game float) :
  geb dt MAX_DT = true ->
  (forall fuel : nat, frame fuel dt g = frame fuel MAX_DT g) /\
  (accInRange (acc g) = true ->
   exists (n : nat) (g' : Game float),
     frame 16 dt g = Some (n, g') /\ frame 16 MAX_DT g = Some (n, g') /\
     (n <= 16)%nat) /\
  (acc g = ofZ 0 ->
   forall k : nat,
     option_map fst (frame (15 + k) dt g) = Some 15%nat /\
     option_map fst (frame (15 + k) (mul (ofZ 10) MAX_DT) g) = Some 15%nat).
Proof.
  intros Hge.
  assert (Hsame : forall fuel : nat, frame fuel dt g = frame fuel MAX_DT g).
  { intros fuel. unfold frame. rewrite (clamp_stall dt Hge).
    rewrite (clamp_stall MAX_DT) by (vm_compute; reflexivity). reflexivity. }
  split; [exact Hsame |]. split.
  - intros Hr.
    assert (Hm0 : geb (MAX_DT : float) (ofZ 0) = true) by (vm_compute; reflexivity).
    destruct (frame_binary64 MAX_DT g Hr Hm0) as (n & g' & E & Hn & _).
    exists n, g'. rewrite Hsame. auto.
  - intros Ha k.
    assert (Hrun : forall d : float, clamp d = MAX_DT ->
                   option_map fst (frame (15 + k) d g) = Some 15%nat).
    { intros d Hd.
      edestruct (frame_of_drainAcc 15 k d g) as (g' & -> & _);
        [rewrite Hd, Ha; vm_compute; reflexivity | reflexivity]. }
    split; apply Hrun.
    + exact (clamp_stall dt Hge).
    + vm_compute. reflexivity.
Qed.

Lemma stall_capped_witness :
  let g := game0 (ofZ 0) : Game float in
  let dt := mul (ofZ 10) MAX_DT : float in
  geb dt MAX_DT = true /\
  frame 15 dt g = frame 15 MAX_DT g /\
  option_map fst (frame 15 dt g) = Some 15%nat.
Proof.
  cbv zeta.
  assert (Hge : geb (mul (ofZ 10) MAX_DT : float) MAX_DT = true)
    by (vm_compute; reflexivity).
  destruct (stall_capped (mul (ofZ 10) MAX_DT) (game0 (ofZ 0)) Hge)
    as (E1 & _ & E2).
  split; [exact Hge |]. split; [exact (E1 15%nat) |].
  exact (proj1 (E2 eq_refl 0%nat)).
Defined.

(** ** Exact arithmetic *)

Section ExactArithmetic.

Local Open Scope Q_scope.

Lemma geb_exact (a b : Q) : geb a b = true <-> b <= a.
Proof. cbn. apply Qle_bool_iff. Qed.

Lemma geb_exact_false (a b : Q) : geb a b = false <-> a < b.
Proof.
  rewrite <- not_true_iff_false, geb_exact. split.
  - apply Qnot_le_lt.
  - apply Qlt_not_le.
Qed.

Lemma gtb_exact (a b : Q) : gtb a b = true <-> b < a.
Proof.
  cbn. unfold Exact.gt. rewrite negb_true_iff, <- not_true_iff_false, Qle_bool_iff.
  split.
  - apply Qnot_le_lt.
  - apply Qlt_not_le.
Qed.

Lemma gtb_exact_false (a b : Q) : gtb a b = false <-> a <= b.
Proof.
  cbn. unfold Exact.gt. rewrite negb_false_iff. apply Qle_bool_iff.
Qed.

Lemma STEP_exact : (STEP : Q) == 1 # 60.
Proof. reflexivity. Qed.

Lemma MAX_DT_exact : (MAX_DT : Q) == 1 # 4.
Proof. reflexivity. Qed.

Lemma FRICTION_exact : (FRICTION : Q) == 9 # 10.
Proof. reflexivity. Qed.

Lemma VX_EQ_exact : (VX_EQ : Q) == 180.
Proof. reflexivity. Qed.

(** The loop ends within [fuel] turns when the accumulator is below
    [(fuel + 1) * STEP], and leaves it in [[0, STEP)]. *)
Lemma drainAcc_exact (fuel : nat) (a : Q) :
  0 <= a -> a < inject_Z (Z.of_nat (S fuel)) * STEP ->
  exists (n : nat) (a' : Q),
    drainAcc fuel a = Some (n, a') /\ (n <= fuel)%nat /\ 0 <= a' /\ a' < STEP.
Proof.
  revert a. induction fuel as [| fuel IH]; intros a H0 Hb.
  - exists O, a. cbn [drainAcc].
    assert (Hlt : a < STEP)
      by (change (inject_Z (Z.of_nat 1)) with 1 in Hb; lra).
    apply geb_exact_false in Hlt. rewrite Hlt. auto.
  - rewrite drainAcc_unfold. destruct (geb a STEP) eqn:E.
    + apply geb_exact in E.
      destruct (IH (sub a STEP)) as (n & a' & En & Hn & Ha').
      * cbn [sub Exact.num]. lra.
      * cbn [sub Exact.num]. rewrite Nat2Z.inj_succ in Hb.
        unfold Z.succ in Hb. rewrite inject_Z_plus in Hb.
        change (inject_Z 1) with 1 in Hb. lra.
      * exists (S n), a'. rewrite En. split; [reflexivity |]. split; [lia | exact Ha'].
    + apply geb_exact_false in E. exists O, a. split; [reflexivity |].
      split; [lia |]. split; assumption.
Qed.

Lemma clamp_exact (dt : Q) : 0 <= dt -> 0 <= clamp dt /\ clamp dt <= 1 # 4.
Proof.
  intros Hdt. unfold clamp. pose proof MAX_DT_exact as HM.
  destruct (gtb dt MAX_DT) eqn:E.
  - lra.
  - apply gtb_exact_false in E. lra.
Qed.

(** A frame in exact arithmetic: started with the accumulator in
    [[0, STEP)] and given a frame time that is not negative, the loop ends
    after at most 15 steps with the accumulator again in [[0, STEP)]. *)
Lemma frame_exact (dt : Q) (g : Game Q) :
  0 <= acc g -> acc g < STEP -> 0 <= dt ->
  exists (n : nat) (g' : Game Q),
    frame 15 dt g = Some (n, g') /\ (n <= 15)%nat /\
    0 <= acc g' /\ acc g' < STEP.
Proof.
  intros H0 H1 Hdt.
  destruct (clamp_exact dt Hdt) as [Hc0 Hc1].
  pose proof STEP_exact as HS.
  destruct (drainAcc_exact 15 (add (acc g) (clamp dt))) as (n & a' & E & Hn & Ha').
  - cbn [add Exact.num]. lra.
  - cbn [add Exact.num].
    change (inject_Z (Z.of_nat 16)) with 16. lra.
  - destruct (frame_of_drainAcc 15 0 dt g n a' E) as (g' & Ef & Hacc).
    exists n, g'. rewrite Hacc. auto.
Qed.

Lemma accInRange_exact (a : Q) : accInRange a = true <-> 0 <= a /\ a < STEP.
Proof.
  unfold accInRange. rewrite andb_true_iff, geb_exact, gtb_exact. reflexivity.
Qed.

(** Frame after frame. *)
Lemma frames_exact (dts : list Q) (g : Game Q) :
  0 <= acc g -> acc g < STEP -> Forall (fun dt => 0 <= dt) dts ->
  framesOk 15 dts g = true.
Proof.
  intros H0 H1 Hdts. revert g H0 H1.
  induction Hdts as [| dt dts Hdt _ IH]; intros g H0 H1; [reflexivity |].
  cbn [framesOk].
  destruct (frame_exact dt g H0 H1 Hdt) as (n & g' & -> & _ & H0' & H1').
  rewrite (proj2 (accInRange_exact (acc g')) (conj H0' H1')).
  apply IH; assumption.
Qed.

(** *** Running to the right *)

(** One step with only a move-right code held, the velocity in
    [[0, VX_EQ)]: the distance to [VX_EQ] shrinks by the factor [FRICTION],
    the velocity grows and stays in range, and [x] grows. *)
Lemma right_step_exact (g : Game Q) :
  held g LEFT_CODES = false -> held g RIGHT_CODES = true ->
  0 <= vx (player g) -> vx (player g) < VX_EQ ->
  let g' := update STEP g in
  vx (player g') == (vx (player g) + MOVE_ACCEL * STEP) * FRICTION /\
  VX_EQ - vx (player g') == FRICTION * (VX_EQ - vx (player g)) /\
  vx (player g) < vx (player g') /\ vx (player g') < VX_EQ /\
  x (player g) < x (player g').
Proof.
  intros HL HR H0 H1. cbv zeta.
  destruct (update_horizontal STEP g) as [Hvx Hx]. cbv zeta in Hvx, Hx.
  rewrite HL, HR in Hvx, Hx. cbv iota in Hvx, Hx.
  rewrite Hx, Hvx. clear Hx Hvx.
  remember (mul (add (ofZ 0) MOVE_ACCEL) (STEP : Q)) as a eqn:Ea.
  assert (HA : a == 20) by (subst a; reflexivity). clear Ea.
  assert (HB : (MOVE_ACCEL : Q) * STEP == 20) by reflexivity.
  pose proof VX_EQ_exact as HV. pose proof FRICTION_exact as HF.
  pose proof STEP_exact as HS.
  cbn [add sub mul Exact.num] in *.
  rewrite HV in H1 |- *. rewrite HB, HA, HF, HS.
  repeat split; lra.
Qed.

Lemma right_run_exact (n : nat) :
  let g := Nat.iter n (update STEP) (restingRight : Game Q) in
  held g LEFT_CODES = false /\ held g RIGHT_CODES = true /\
  0 <= vx (player g) /\ vx (player g) < VX_EQ.
Proof.
  induction n as [| n IH]; cbv zeta in *.
  - repeat split; vm_compute; congruence.
  - cbn [Nat.iter]. destruct IH as (HL & HR & H0 & H1).
    destruct (right_step_exact _ HL HR H0 H1) as (_ & _ & Hup & Hlt & _).
    split; [exact HL |]. split; [exact HR |]. split; [| exact Hlt].
    apply Qlt_le_weak. eapply Qle_lt_trans; [exact H0 | exact Hup].
Qed.

(** *** Resting and three steps, exactly *)

(** A grounded player of any height stays grounded through a step without
    a jump: the clamp writes [GROUND_Y - h] and [0] back. *)
Lemma grounded_step_exact (g : Game Q) :
  onGround (player g) = true ->
  vy (player g) == 0 ->
  y (player g) == GROUND_Y - h (player g) ->
  justPressed g JUMP_CODES = false ->
  let p' := player (update STEP g) in
  y p' = sub GROUND_Y (h (player g)) /\ vy p' = ofZ 0 /\
  onGround p' = true /\ h p' = h (player g).
Proof.
  intros Hog Hvy Hy Hj. cbv zeta.
  pose proof (update_vertical STEP g) as Hv. cbv zeta in Hv.
  rewrite Hj, andb_false_r in Hv.
  assert (Hgt : gtb (add (add (y (player g))
                              (mul (add (vy (player g)) (mul GRAVITY STEP)) STEP))
                         (h (player g))) GROUND_Y = true).
  { apply gtb_exact.
    assert (HG : (GRAVITY : Q) * STEP == 80 # 3) by reflexivity.
    pose proof STEP_exact as HS.
    cbn [add mul Exact.num]. rewrite Hvy, HG, HS, Hy. lra. }
  rewrite Hgt in Hv.
  split; [exact (f_equal (fun t => fst (fst t)) Hv) |].
  split; [exact (f_equal (fun t => snd (fst t)) Hv) |].
  split; [exact (f_equal snd Hv) |].
  apply update_size.
Qed.

Lemma grounded_stays_exact (keys : list (gset string * gset string)) (g : Game Q) :
  onGround (player g) = true ->
  vy (player g) == 0 ->
  y (player g) == GROUND_Y - h (player g) ->
  Forall (fun k => forall c, In c JUMP_CODES -> c ∉ k.2) keys ->
  forall n : nat,
    let g' := steps (firstn n keys) g in
    y (player g') == GROUND_Y - h (player g') /\
    vy (player g') == 0 /\
    onGround (player g') = true.
Proof.
  intros Hog Hvy Hy Hkeys. revert g Hog Hvy Hy.
  induction Hkeys as [| [d pr] keys Hk _ IH]; intros g Hog Hvy Hy n.
  - rewrite firstn_nil. cbn. auto.
  - destruct n as [| n]; [cbn; auto |].
    cbn [firstn steps]. cbv zeta in IH |- *.
    assert (Hj : justPressed (withKeys d pr g) JUMP_CODES = false).
    { apply not_true_is_false. intros Hj. apply justPressed_spec in Hj.
      destruct Hj as (c & Hc & Hp). exact (Hk c Hc Hp). }
    destruct (grounded_step_exact (withKeys d pr g) Hog Hvy Hy Hj)
      as (Hy1 & Hvy1 & Hog1 & Hh1).
    cbn [withKeys player] in Hy1, Hh1.
    apply IH.
    + exact Hog1.
    + rewrite Hvy1. reflexivity.
    + rewrite Hy1, Hh1. reflexivity.
Qed.

(** Three steps for a frame time of [3 * STEP], and nothing left over. *)
Lemma three_steps_exact :
  exists g' : Game Q,
    frame 3 (mul (ofZ 3) STEP) (game0 0) = Some (3%nat, g') /\ acc g' == 0.
Proof.
  edestruct (frame_of_drainAcc 3 0 (mul (ofZ 3) STEP) (game0 0 : Game Q))
    as (g' & E & Hacc); [vm_compute; reflexivity |].
  exists g'. split; [exact E |]. rewrite Hacc. vm_compute. reflexivity.
Qed.

Lemma steady_state_exact :
  ((VX_EQ : Q) + MOVE_ACCEL * STEP) * FRICTION == VX_EQ.
Proof. reflexivity. Qed.

End ExactArithmetic.

(** ** The accumulator after a frame *)

(** C6.  In binary64, as the program runs: a frame that starts with the
    accumulator in [[0, STEP)] and measures a frame time that is not
    negative (the clock does not run backwards) ends its loop, after at most
    16 steps, with the accumulator again in [[0, STEP)], however long the
    frame time; so it is after every frame of any run from the initial
    state.  In exact arithmetic the same holds with at most 15 steps. *)
Theorem accumulator_bounds :
  (forall (dt : float) (g : Game float),
     geb (acc g) (ofZ 0) = true -> gtb STEP (acc g) = true ->
     geb dt (ofZ 0) = true ->
     exists (n : nat) (g' : Game float),
       frame 16 dt g = Some (n, g') /\ (n <= 16)%nat /\
       geb (acc g') (ofZ 0) = true /\ gtb STEP (acc g') = true) /\
  (forall (dts : list float) (t0 : float),
     Forall (fun dt => geb dt (ofZ 0) = true) dts ->
     framesOk 16 dts (game0 t0) = true) /\
  (forall (dt : Q) (g : Game Q),
     0 <= acc g -> acc g < STEP -> 0 <= dt ->
     exists (n : nat) (g' : Game Q),
       frame 15 dt g = Some (n, g') /\ (n <= 15)%nat /\
       0 <= acc g' /\ acc g' < STEP)%Q.
Proof.
  split; [| split].
  - intros dt g H0 H1 Hdt.
    destruct (frame_binary64 dt g) as (n & g' & E & Hn & Hr); [| exact Hdt |].
    + unfold accInRange. rewrite H0, H1. reflexivity.
    + unfold accInRange in Hr. apply andb_prop in Hr.
      exists n, g'. tauto.
  - intros dts t0 Hdts. apply frames_binary64; [reflexivity | exact Hdts].
  - exact frame_exact.
Qed.

Lemma accumulator_bounds_witness :
  exists (n : nat) (g' : Game float),
    frame 16 (ofZ 1000) (game0 (ofZ 0)) = Some (n, g') /\ (n <= 16)%nat /\
    geb (acc g') (ofZ 0) = true /\ gtb STEP (acc g') = true.
Proof.
  apply (proj1 accumulator_bounds (ofZ 1000) (game0 (ofZ 0)));
    vm_compute; reflexivity.
Defined.

(** ** Running to the right in binary64 *)

(** Sixty steps from rest with ArrowRight held: [x] and [vx] both grow at
    every step, and [vx] ends within 1 of [VX_EQ], below it. *)
Lemma right_run_binary64 :
  let run := restingRight :: trace 60 restingRight : list (Game float) in
  let g60 := Nat.iter 60 (update STEP) restingRight : Game float in
  increasing (map (fun g => x (player g)) run) = true /\
  increasing (map (fun g => vx (player g)) run) = true /\
  length run = 61%nat /\
  gtb VX_EQ (vx (player g60)) = true /\
  gtb (vx (player g60)) (sub VX_EQ (ofZ 1)) = true.
Proof. vm_compute. repeat split. Qed.

(** C9.  In every step the new [vx] is [(vx + ax * dt) * FRICTION], the
    friction applied to the velocity already accelerated, and [x] advances
    by the new [vx] times [dt].  With only move-right held from rest on the
    ground the velocity therefore follows
    [vx' = (vx + MOVE_ACCEL * STEP) * FRICTION]; in exact arithmetic its
    fixed point is [VX_EQ = MOVE_ACCEL * STEP * FRICTION / (1 - FRICTION)],
    the distance to it shrinks by [FRICTION] per step, and [x] grows at
    every step, for any number of steps; in binary64 [x] grows at each of
    the 60 steps of the scenario and [vx] ends just below [VX_EQ]. *)
Theorem friction_after_acceleration :
  (forall (N : Type) (HN : Num N) (dt : N) (g : Game N),
     let p := player g in
     let ax1 := if held g LEFT_CODES then sub (ofZ 0) MOVE_ACCEL else ofZ 0 in
     let ax := if held g RIGHT_CODES then add ax1 MOVE_ACCEL else ax1 in
     let vx' := mul (add (vx p) (mul ax dt)) FRICTION in
     vx (player (update dt g)) = vx' /\
     x (player (update dt g)) = add (x p) (mul vx' dt)) /\
  (((VX_EQ : Q) + MOVE_ACCEL * STEP) * FRICTION == VX_EQ)%Q /\
  (forall n : nat,
     let g := Nat.iter n (update STEP) (restingRight : Game Q) in
     let g' := update STEP g in
     (vx (player g') == (vx (player g) + MOVE_ACCEL * STEP) * FRICTION /\
      VX_EQ - vx (player g') == FRICTION * (VX_EQ - vx (player g)) /\
      x (player g) < x (player g'))%Q) /\
  (let run := restingRight :: trace 60 restingRight : list (Game float) in
   let g60 := Nat.iter 60 (update STEP) restingRight : Game float in
   increasing (map (fun g => x (player g)) run) = true /\
   gtb VX_EQ (vx (player g60)) = true /\
   gtb (vx (player g60)) (sub VX_EQ (ofZ 1)) = true).
Proof.
  split; [intros N HN dt g; exact (update_horizontal dt g) |].
  split; [exact steady_state_exact |].
  split.
  - intros n. cbv zeta.
    destruct (right_run_exact n) as (HL & HR & H0 & H1).
    destruct (right_step_exact _ HL HR H0 H1) as (Hrec & Hgap & _ & _ & Hx).
    split; [exact Hrec |]. split; [exact Hgap | exact Hx].
  - destruct right_run_binary64 as (Hx & _ & _ & Hhi & Hlo).
    split; [exact Hx |]. split; [exact Hhi | exact Hlo].
Qed.

(** * Further properties *)

(** ** The key listeners *)

Section KeyListeners.

Context {N : Type}.

Lemma game_eq (g1 g2 : Game N) :
  player g1 = player g2 -> down g1 = down g2 -> pressed g1 = pressed g2 ->
  last g1 = last g2 -> acc g1 = acc g2 -> g1 = g2.
Proof.
  destruct g1, g2; cbn; intros; subst; reflexivity.
Qed.

(** X1.  An up-event takes its code out of [down] and nothing else: the
    other codes stay as they are and [pressed] is not touched.  For a code
    that is not held it changes nothing at all, and a second up-event
    changes nothing more. *)
Theorem keyup_releases (c c' : KeyCode) (g : Game N) :
  (c ∉ down (keyup c g)) /\
  (c' <> c -> (c' ∈ down (keyup c g) <-> c' ∈ down g)) /\
  pressed (keyup c g) = pressed g /\
  (c ∉ down g -> keyup c g = g) /\
  keyup c (keyup c g) = keyup c g.
Proof.
  split; [cbn; set_solver |].
  split; [intros Hne; cbn; set_solver |].
  split; [reflexivity |].
  split.
  - intros Hc. apply game_eq; try reflexivity. cbn. set_solver.
  - apply game_eq; try reflexivity. cbn. set_solver.
Qed.

Lemma handle_other (e : KeyEvent) (c : KeyCode) (g : Game N) :
  codeOf e <> c ->
  (c ∈ down (handle g e) <-> c ∈ down g) /\
  (c ∈ pressed (handle g e) <-> c ∈ pressed g).
Proof.
  intros Hne. destruct e as [c' | c']; cbn in Hne |- *.
  - destruct (bool_decide (c' ∈ down g)); set_solver.
  - set_solver.
Qed.

Lemma handleAll_snoc (es : list KeyEvent) (e : KeyEvent) (g : Game N) :
  handleAll (es ++ [e]) g = handle (handleAll es g) e.
Proof. unfold handleAll. rewrite fold_left_app. reflexivity. Qed.

Lemma lastEvent_snoc (c : KeyCode) (es : list KeyEvent) (e : KeyEvent) :
  lastEvent c (es ++ [e]) =
  if bool_decide (codeOf e = c)
  then Some (match e with KeyDown _ => true | KeyUp _ => false end)
  else lastEvent c es.
Proof.
  induction es as [| e' es IH]; cbn [app lastEvent].
  - destruct (bool_decide (codeOf e = c)); reflexivity.
  - rewrite IH. destruct (bool_decide (codeOf e = c)); reflexivity.
Qed.

Lemma down_after_events (c : KeyCode) (es : list KeyEvent) (g : Game N) :
  c ∈ down (handleAll es g) <->
  match lastEvent c es with
  | Some b => b = true
  | None => c ∈ down g
  end.
Proof.
  induction es as [| e es IH] using rev_ind; [reflexivity |].
  rewrite handleAll_snoc, lastEvent_snoc.
  destruct (bool_decide (codeOf e = c)) eqn:E.
  - apply bool_decide_eq_true in E. destruct e as [c' | c']; cbn in E; subst c'.
    + cbn. split; [reflexivity | set_solver].
    + cbn. split; [set_solver | discriminate].
  - apply bool_decide_eq_false in E.
    rewrite (proj1 (handle_other e c (handleAll es g) E)). exact IH.
Qed.

(** X4.  After any sequence of key events [down] holds exactly the codes
    whose last event was a down-event, and of the codes without an event
    those that were held before. *)
Theorem down_tracks_last_event (c : KeyCode) (es : list KeyEvent) (g : Game N) :
  c ∈ down (handleAll es g) <->
  match lastEvent c es with
  | Some b => b = true
  | None => c ∈ down g
  end.
Proof. exact (down_after_events c es g). Qed.

Lemma pressed_after_events (c : KeyCode) (es : list KeyEvent) (g : Game N) :
  c ∈ pressed (handleAll es g) -> c ∈ pressed g \/ In (KeyDown c) es.
Proof.
  induction es as [| e es IH] using rev_ind; [cbn; auto |].
  rewrite handleAll_snoc. intros Hc.
  destruct (decide (codeOf e = c)) as [E | E].
  - destruct e as [c' | c']; cbn in E; subst c'.
    + right. apply in_or_app. right. left. reflexivity.
    + cbn in Hc. destruct (IH Hc) as [H | H]; [left; exact H |].
      right. apply in_or_app. left. exact H.
  - apply (handle_other e c (handleAll es g) E) in Hc.
    destruct (IH Hc) as [H | H]; [left; exact H |].
    right. apply in_or_app. left. exact H.
Qed.

(** X5.  Events only ever add to [pressed], and only on a down-event: a
    code found in [pressed] after a sequence of events was there before or
    had a down-event in the sequence, and whatever was in [pressed] before
    is still there. *)
Theorem pressed_only_by_keydown (c : KeyCode) (es : list KeyEvent) (g : Game N) :
  (c ∈ pressed (handleAll es g) -> c ∈ pressed g \/ In (KeyDown c) es) /\
  (c ∈ pressed g -> c ∈ pressed (handleAll es g)).
Proof.
  split; [apply pressed_after_events |].
  revert g. induction es as [| e es IH]; intros g Hc; [exact Hc |].
  cbn [handleAll fold_left]. apply IH.
  destruct e as [c' | c']; cbn; [| exact Hc].
  destruct (bool_decide (c' ∈ down g)); set_solver.
Qed.

(** X3.  Events about different codes commute: the state after both does
    not depend on which came first. *)
Theorem events_commute (e1 e2 : KeyEvent) (g : Game N) :
  codeOf e1 <> codeOf e2 ->
  handle (handle g e1) e2 = handle (handle g e2) e1.
Proof.
  intros Hne.
  destruct e1 as [c1 | c1], e2 as [c2 | c2]; cbn in Hne;
    apply game_eq; try reflexivity; cbn.
  - set_solver.
  - rewrite (bool_decide_ext (c2 ∈ {[c1]} ∪ down g) (c2 ∈ down g)) by set_solver.
    rewrite (bool_decide_ext (c1 ∈ {[c2]} ∪ down g) (c1 ∈ down g)) by set_solver.
    destruct (bool_decide (c1 ∈ down g)), (bool_decide (c2 ∈ down g)); set_solver.
  - set_solver.
  - rewrite (bool_decide_ext (c1 ∈ down g ∖ {[c2]}) (c1 ∈ down g)) by set_solver.
    reflexivity.
  - set_solver.
  - rewrite (bool_decide_ext (c2 ∈ down g ∖ {[c1]}) (c2 ∈ down g)) by set_solver.
    reflexivity.
  - set_solver.
Qed.

End KeyListeners.

Lemma events_commute_witness :
  let g := mkGame player0 ∅ ∅ (ofZ 0) (ofZ 0) : Game float in
  handle (handle g (KeyDown "Space")) (KeyUp "KeyA")
  = handle (handle g (KeyUp "KeyA")) (KeyDown "Space").
Proof.
  cbv zeta.
  apply (events_commute (KeyDown "Space") (KeyUp "KeyA")
           (mkGame player0 ∅ ∅ (ofZ 0) (ofZ 0) : Game float)).
  cbn. discriminate.
Defined.

(** ** The loop as a sequence of turns *)

Section Turns.

Context {N : Type} `{Num N}.

Lemma drain_turn (fuel : nat) (g : Game N) :
  drain (S fuel) g =
  if geb (acc g) STEP then
    match drain fuel (turn g) with
    | Some (n, g') => Some (S n, g')
    | None => None
    end
  else Some (O, g).
Proof. reflexivity. Qed.

Lemma drain_turns (fuel : nat) (g : Game N) (n : nat) (g' : Game N) :
  drain fuel g = Some (n, g') ->
  g' = Nat.iter n turn g /\
  geb (acc g') STEP = false /\
  (forall k : nat, (k < n)%nat -> geb (acc (Nat.iter k turn g)) STEP = true).
Proof.
  revert g n g'. induction fuel as [| fuel IH]; intros g n g'.
  - cbn [drain]. destruct (geb (acc g) STEP) eqn:E; [discriminate |].
    intros [= <- <-]. split; [reflexivity |]. split; [exact E |].
    intros k Hk. lia.
  - rewrite drain_turn. destruct (geb (acc g) STEP) eqn:E.
    + destruct (drain fuel (turn g)) as [[m g1] |] eqn:Ed; [| discriminate].
      intros [= <- <-]. destruct (IH _ _ _ Ed) as (Hg & Hex & Hk).
      split; [rewrite Nat.iter_succ_r; exact Hg |]. split; [exact Hex |].
      intros k Hlt. destruct k as [| k]; [exact E |].
      rewrite Nat.iter_succ_r. apply Hk. lia.
    + intros [= <- <-]. split; [reflexivity |]. split; [exact E |].
      intros k Hk. lia.
Qed.

(** X6.  When the loop of a frame is left after [n] calls of [update], the
    state is the one [n] turns of the loop body produce, [acc >= STEP] held
    before each of these turns and fails at the end: [n] is the first
    number of turns that brings the accumulator below [STEP]. *)
Theorem drain_is_iterated_turn (fuel : nat) (g : Game N) (n : nat) (g' : Game N) :
  drain fuel g = Some (n, g') ->
  g' = Nat.iter n turn g /\
  geb (acc g') STEP = false /\
  (forall k : nat, (k < n)%nat -> geb (acc (Nat.iter k turn g)) STEP = true).
Proof. exact (drain_turns fuel g n g'). Qed.

Lemma iter_turn_frame (n : nat) (g : Game N) :
  down (Nat.iter n turn g) = down g /\
  last (Nat.iter n turn g) = last g /\
  w (player (Nat.iter n turn g)) = w (player g) /\
  h (player (Nat.iter n turn g)) = h (player g) /\
  (n <> O -> pressed (Nat.iter n turn g) = ∅).
Proof.
  induction n as [| n IH]; [cbn; repeat split; congruence |].
  destruct IH as (Hd & Hl & Hw & Hh & _). rewrite Nat.iter_succ.
  set (g1 := Nat.iter n turn g) in *.
  destruct (update_size STEP g1) as [Hw1 Hh1].
  unfold turn. cbn [down last player pressed].
  split; [exact Hd |]. split; [exact Hl |].
  split; [rewrite Hw1; exact Hw |]. split; [rewrite Hh1; exact Hh |].
  reflexivity.
Qed.

(** What a run of [loop()] that ends does besides the physics. *)
Lemma loop_facts (fuel : nat) (now : N) (g : Game N) (n : nat) (g' : Game N) :
  loop fuel now g = Some (n, g') ->
  last g' = now /\ down g' = down g /\
  w (player g') = w (player g) /\ h (player g') = h (player g) /\
  (n = O -> player g' = player g /\ pressed g' = pressed g /\
            acc g' = add (acc g) (clamp (sub now (last g)))) /\
  (n <> O -> pressed g' = ∅).
Proof.
  unfold loop, frame. intros E.
  destruct (drain_turns _ _ _ _ E) as (-> & _ & _).
  match goal with
  | |- context [Nat.iter n turn ?g0] =>
      destruct (iter_turn_frame n g0) as (Hd & Hl & Hw & Hh & Hp)
  end.
  cbn [down last player] in Hd, Hl, Hw, Hh.
  split; [exact Hl |]. split; [exact Hd |]. split; [exact Hw |].
  split; [exact Hh |]. split; [| exact Hp].
  intros ->. cbn. auto.
Qed.

Lemma update_airborne (dt : N) (pr : gset string) (g : Game N) :
  onGround (player g) = false ->
  player (update dt (withKeys (down g) pr g)) = player (update dt g).
Proof.
  intros Hog. unfold update, withKeys. cbn [player down pressed held justPressed].
  rewrite Hog. reflexivity.
Qed.

Lemma turn_airborne (pr : gset string) (g : Game N) :
  onGround (player g) = false ->
  turn (withKeys (down g) pr g) = turn g.
Proof.
  intros Hog. unfold turn. cbv zeta.
  rewrite (update_airborne STEP pr g Hog). reflexivity.
Qed.

(** X8.  A key press that arrives while the player is in the air is lost:
    whatever is in [pressed] when a frame starts with [onGround] false, the
    steps it runs and the player it leaves are the same, and as soon as one
    step runs the whole state is the same.  The press is not kept for the
    landing. *)
Theorem airborne_press_lost (fuel : nat) (pr : gset string) (g : Game N) :
  onGround (player g) = false ->
  option_map (fun r => (fst r, player (snd r))) (drain fuel (withKeys (down g) pr g))
  = option_map (fun r => (fst r, player (snd r))) (drain fuel g) /\
  (geb (acc g) STEP = true ->
   drain fuel (withKeys (down g) pr g) = drain fuel g).
Proof.
  intros Hog.
  assert (Hstep : geb (acc g) STEP = true ->
                  drain fuel (withKeys (down g) pr g) = drain fuel g).
  { intros E. destruct fuel as [| fuel].
    - cbn [drain withKeys acc]. rewrite E. reflexivity.
    - rewrite !drain_turn. cbn [withKeys acc]. rewrite E.
      change (mkGame (player g) (down g) pr (last g) (acc g))
        with (withKeys (down g) pr g).
      rewrite (turn_airborne pr g Hog). reflexivity. }
  split; [| exact Hstep].
  destruct (geb (acc g) STEP) eqn:E.
  - rewrite (Hstep eq_refl). reflexivity.
  - destruct fuel as [| fuel].
    + cbn [drain withKeys acc]. rewrite E. reflexivity.
    + rewrite !drain_turn. cbn [withKeys acc]. rewrite E. reflexivity.
Qed.

Lemma sameInput_turn (g1 g2 : Game N) :
  sameInput g1 g2 -> sameInput (turn g1) (turn g2).
Proof.
  destruct g1 as [p1 d1 pr1 l1 a1], g2 as [p2 d2 pr2 l2 a2].
  unfold sameInput. cbn [player down pressed].
  intros (-> & -> & ->). repeat split; reflexivity.
Qed.

Lemma sameInput_iter (n : nat) (g1 g2 : Game N) :
  sameInput g1 g2 -> sameInput (Nat.iter n turn g1) (Nat.iter n turn g2).
Proof.
  intros Hs. induction n as [| n IH]; [exact Hs |].
  rewrite Nat.iter_succ. apply sameInput_turn, IH.
Qed.

Lemma sameInput_trans (g1 g2 g3 : Game N) :
  sameInput g1 g2 -> sameInput g2 g3 -> sameInput g1 g3.
Proof. unfold sameInput. intros (? & ? & ?) (? & ? & ?). repeat split; congruence. Qed.

Lemma runLoops_turns (fuel : nat) (nows : list N) (g : Game N) (n : nat) (g' : Game N) :
  runLoops fuel nows g = Some (n, g') ->
  sameInput g' (Nat.iter n turn g).
Proof.
  revert g n g'. induction nows as [| now nows IH]; intros g n g'.
  - cbn. intros [= <- <-]. repeat split.
  - cbn [runLoops]. destruct (loop fuel now g) as [[k g1] |] eqn:El; [| discriminate].
    destruct (runLoops fuel nows g1) as [[m g2] |] eqn:Er; [| discriminate].
    intros [= <- <-]. specialize (IH _ _ _ Er).
    unfold loop, frame in El. destruct (drain_turns _ _ _ _ El) as (Hg1 & _ & _).
    assert (Hs1 : sameInput g1 (Nat.iter k turn g)).
    { rewrite Hg1. apply sameInput_iter. repeat split. }
    eapply sameInput_trans; [exact IH |].
    replace (k + m)%nat with (m + k)%nat by lia. rewrite Nat.iter_add.
    apply sameInput_iter, Hs1.
Qed.

Lemma loop_last (fuel : nat) (now : N) (g : Game N) (n : nat) (g' : Game N) :
  loop fuel now g = Some (n, g') -> last g' = now.
Proof. intros E. exact (proj1 (loop_facts fuel now g n g' E)). Qed.

Lemma turn_as_update (g1 g2 : Game N) :
  sameInput g1 g2 ->
  sameInput (turn g1) (withKeys (down g2) ∅ (update STEP g2)).
Proof.
  destruct g1 as [p1 d1 pr1 l1 a1], g2 as [p2 d2 pr2 l2 a2].
  unfold sameInput. cbn [player down pressed].
  intros (-> & -> & ->). repeat split; reflexivity.
Qed.

End Turns.

Lemma drain_is_iterated_turn_witness :
  exists g' : Game float,
    drain 3 (mkGame player0 ∅ ∅ (ofZ 0) (mul (ofZ 3) STEP)) = Some (3%nat, g') /\
    g' = Nat.iter 3 turn (mkGame player0 ∅ ∅ (ofZ 0) (mul (ofZ 3) STEP)).
Proof.
  destruct (drain 3 (mkGame player0 ∅ ∅ (ofZ 0) (mul (ofZ 3) STEP) : Game float))
    as [[n g'] |] eqn:E.
  - assert (Hn : n = 3%nat).
    { pose proof (f_equal (option_map fst) E) as Hc. vm_compute in Hc.
      injection Hc as Hc. symmetry. exact Hc. }
    subst n. exists g'. split; [reflexivity |].
    exact (proj1 (drain_is_iterated_turn 3 _ 3%nat g' E)).
  - exfalso. pose proof (f_equal (option_map fst) E) as Hc.
    vm_compute in Hc. discriminate Hc.
Defined.

Lemma airborne_press_lost_witness :
  let g := mkGame player0 ∅ ∅ (ofZ 0) STEP : Game float in
  drain 1 (withKeys (down g) {["Space"%string]} g) = drain 1 g.
Proof.
  cbv zeta.
  apply (proj2 (airborne_press_lost 1 {["Space"%string]}
                  (mkGame player0 ∅ ∅ (ofZ 0) STEP : Game float) eq_refl)).
  vm_compute. reflexivity.
Defined.

Lemma last_cons {A : Type} (l : list A) (a d : A) :
  List.last (a :: l) d = List.last l a.
Proof.
  revert a d. induction l as [| b l IH]; intros a d; [reflexivity |].
  change (List.last (a :: b :: l) d) with (List.last (b :: l) d).
  rewrite (IH b d), (IH b a). reflexivity.
Qed.

(** ** A key tapped between two steps *)

Section Tap.

Context {N : Type} `{Num N}.

Lemma tap_keys (c : KeyCode) (g : Game N) :
  c ∉ down g ->
  down (keyup c (keydown c g)) = down g /\ c ∈ pressed (keyup c (keydown c g)).
Proof.
  intros Hc. unfold keyup, keydown. cbn [down pressed player last acc].
  rewrite bool_decide_eq_false_2 by assumption.
  split; [| set_solver].
  apply leibniz_equiv. set_solver.
Qed.

(** X2.  A key that was not held goes down and up again between two steps.
    [down] is as it was before the tap, so [held] sees nothing of it and
    the horizontal motion of the next step is the one without the tap.
    But the code is still in [pressed]: for a jump key and a player on the
    ground the step launches the jump. *)
Theorem tap_jumps (c : KeyCode) (dt : N) (g : Game N) :
  c ∉ down g ->
  let g1 := keyup c (keydown c g) in
  let p' := player (update dt g1) in
  down g1 = down g /\
  (forall codes, held g1 codes = held g codes) /\
  c ∈ pressed g1 /\
  (vx p' = vx (player (update dt g)) /\ x p' = x (player (update dt g))) /\
  (In c ["Space"; "KeyW"; "ArrowUp"]%string -> onGround (player g) = true ->
   let vy2 := add (ofZ (-650)) (mul GRAVITY dt) in
   let y1 := add (y (player g)) (mul vy2 dt) in
   (y p', vy p', onGround p') =
   (if gtb (add y1 (h (player g))) GROUND_Y
    then (sub GROUND_Y (h (player g)), ofZ 0, true)
    else (y1, vy2, false))).
Proof.
  intros Hc. cbv zeta.
  destruct (tap_keys c g Hc) as [Hd Hp].
  assert (Hheld : forall codes,
            held (keyup c (keydown c g)) codes = held g codes).
  { intros codes. unfold held. rewrite Hd. reflexivity. }
  split; [exact Hd |]. split; [exact Hheld |]. split; [exact Hp |]. split.
  - destruct (update_horizontal dt (keyup c (keydown c g))) as [A B].
    destruct (update_horizontal dt g) as [A' B'].
    cbv zeta in A, B, A', B'. rewrite A, B, A', B', !Hheld.
    split; reflexivity.
  - intros Hj Hog.
    rewrite (update_vertical dt (keyup c (keydown c g))).
    change (player (keyup c (keydown c g))) with (player g).
    rewrite Hog.
    assert (Hjp : justPressed (keyup c (keydown c g)) JUMP_CODES = true).
    { apply justPressed_spec. exists c. split; assumption. }
    rewrite Hjp. reflexivity.
Qed.

End Tap.

Lemma tap_jumps_witness :
  let g := restingRight : Game float in
  let g1 := keyup "Space" (keydown "Space" g) in
  "Space"%string ∈ pressed g1 /\ down g1 = down g /\
  vy (player (update STEP g1)) = add (ofZ (-650)) (mul GRAVITY STEP) /\
  onGround (player (update STEP g1)) = false.
Proof.
  cbv zeta.
  assert (Hc : "Space"%string ∉ down (restingRight : Game float))
    by (vm_compute; set_solver).
  assert (Hj : In "Space"%string ["Space"; "KeyW"; "ArrowUp"]%string)
    by (left; reflexivity).
  assert (Hog : onGround (player (restingRight : Game float)) = true) by reflexivity.
  destruct (tap_jumps "Space" (STEP : float) (restingRight : Game float) Hc)
    as (Hd & _ & Hp & _ & Hv).
  specialize (Hv Hj Hog). cbv zeta in Hv.
  split; [exact Hp |]. split; [exact Hd |]. split.
  - etransitivity; [exact (f_equal (fun t => snd (fst t)) Hv) |].
    vm_compute. reflexivity.
  - etransitivity; [exact (f_equal snd Hv) |].
    vm_compute. reflexivity.
Defined.

(** ** The fall and the jump in binary64 *)

Lemma fallArc_next (i : nat) (jp : bool) :
  (i < 18)%nat ->
  vstep jp (nth i fallArc grounded) = nth (S i) fallArc grounded.
Proof.
  do 18 (destruct i as [| i]; [intros _; destruct jp; vm_compute; reflexivity |]).
  intros Hi. lia.
Qed.

Lemma jumpArc_next (i : nat) (jp : bool) :
  (i < 47)%nat ->
  vstep jp (nth i jumpArc grounded) = nth (S i) jumpArc grounded.
Proof.
  do 47 (destruct i as [| i]; [intros _; destruct jp; vm_compute; reflexivity |]).
  intros Hi. lia.
Qed.

Lemma fallArc_onGround (i : nat) :
  (i <= 18)%nat -> snd (nth i fallArc grounded) = Nat.eqb i 18.
Proof.
  do 19 (destruct i as [| i]; [intros _; vm_compute; reflexivity |]).
  intros Hi. lia.
Qed.

Lemma jumpArc_onGround (i : nat) :
  (i <= 47)%nat -> snd (nth i jumpArc grounded) = Nat.eqb i 47.
Proof.
  do 48 (destruct i as [| i]; [intros _; vm_compute; reflexivity |]).
  intros Hi. lia.
Qed.

(** Steps along a list of vertical states in which each state, whatever is
    pressed, is followed by the next one. *)
Lemma steps_along (arc : list vstate) (len : nat) :
  (forall (i : nat) (jp : bool),
     (i < len)%nat -> vstep jp (nth i arc grounded) = nth (S i) arc grounded) ->
  forall (keys : list (gset string * gset string)) (g : Game float) (i : nat),
    h (player g) = ofZ 32 ->
    vert g = nth i arc grounded ->
    (i + length keys <= len)%nat ->
    vert (steps keys g) = nth (i + length keys) arc grounded.
Proof.
  intros Hnext keys. induction keys as [| [d pr] keys IH]; intros g i Hh Hv Hlen.
  - cbn [steps length]. rewrite Nat.add_0_r. exact Hv.
  - cbn [steps length] in *.
    replace (i + S (length keys))%nat with (S i + length keys)%nat by lia.
    apply IH.
    + rewrite <- Hh. apply (update_size STEP (withKeys d pr g)).
    + rewrite (vert_update (withKeys d pr g) Hh).
      change (vert (withKeys d pr g)) with (vert g). rewrite Hv.
      apply Hnext. lia.
    + lia.
Qed.

(** X16.  The first landing takes 18 steps, whatever the keys: from the
    initial state the vertical state after [n <= 18] steps is the [n]-th of
    one fixed fall, [onGround] is set by the 18th step and by none before.
    After the 17th step the player already stands on the ground line
    ([y = 368]) but is not grounded, so a jump key pressed then is lost. *)
Theorem first_landing (keys : list (gset string * gset string)) (t0 : float) :
  (length keys <= 18)%nat ->
  let g' := steps keys (game0 t0) in
  vert g' = nth (length keys) fallArc grounded /\
  (onGround (player g') = true <-> length keys = 18%nat) /\
  (length keys = 17%nat ->
   y (player g') = sub GROUND_Y (h (player g')) /\ onGround (player g') = false).
Proof.
  intros Hlen. cbv zeta.
  pose proof (steps_along fallArc 18 fallArc_next keys (game0 t0) 0
                eq_refl eq_refl Hlen) as Hv.
  cbn [Nat.add] in Hv. split; [exact Hv |].
  pose proof (f_equal snd Hv) as Hog. unfold vert in Hog. cbn [snd] in Hog.
  rewrite (fallArc_onGround _ Hlen) in Hog. split.
  - rewrite Hog. apply Nat.eqb_eq.
  - intros H17. rewrite H17 in Hv, Hog.
    assert (Hh : h (player (steps keys (game0 t0))) = ofZ 32).
    { clear. generalize (game0 t0 : Game float) (eq_refl : h (player (game0 t0 : Game float)) = ofZ 32).
      induction keys as [| [d pr] keys IH]; intros g Hh; [exact Hh |].
      cbn [steps]. apply IH. rewrite <- Hh.
      apply (update_size STEP (withKeys d pr g)). }
    split; [| exact Hog].
    rewrite Hh. pose proof (f_equal (fun v : vstate => fst (fst v)) Hv) as Hy.
    unfold vert in Hy. cbn [fst] in Hy. rewrite Hy. vm_compute. reflexivity.
Qed.

Lemma first_landing_witness :
  onGround (player (steps (repeat ({["Space"%string]}, {["Space"%string]}) 18)
                          (game0 (ofZ 0) : Game float))) = true.
Proof.
  apply (first_landing (repeat ({["Space"%string]}, {["Space"%string]}) 18) (ofZ 0)).
  - cbn [repeat length]. lia.
  - reflexivity.
Defined.

(** X17.  A jump is one fixed arc: from rest on the ground, once a step has
    launched the jump, the vertical state after [n <= 47] further steps is
    the [n]-th of one fixed list, whatever is held or pressed meanwhile.
    The player is in the air for 47 steps and grounded again by the next:
    releasing the key early does not shorten the jump, and pressing it
    again in the air does nothing. *)
Theorem jump_arc_fixed (keys : list (gset string * gset string)) (g : Game float) :
  h (player g) = ofZ 32 -> vert g = grounded ->
  justPressed g JUMP_CODES = true ->
  (length keys <= 47)%nat ->
  let g' := steps keys (update STEP g) in
  vert g' = nth (length keys) jumpArc grounded /\
  (onGround (player g') = true <-> length keys = 47%nat).
Proof.
  intros Hh Hv Hj Hlen. cbv zeta.
  assert (Hh1 : h (player (update STEP g)) = ofZ 32)
    by (rewrite <- Hh; apply update_size).
  assert (Hv1 : vert (update STEP g) = nth 0 jumpArc grounded).
  { rewrite (vert_update g Hh), Hj, Hv. vm_compute. reflexivity. }
  pose proof (steps_along jumpArc 47 jumpArc_next keys (update STEP g) 0
                Hh1 Hv1 Hlen) as Hs.
  cbn [Nat.add] in Hs. split; [exact Hs |].
  pose proof (f_equal snd Hs) as Hog. unfold vert in Hog. cbn [snd] in Hog.
  rewrite (jumpArc_onGround _ Hlen) in Hog.
  rewrite Hog. apply Nat.eqb_eq.
Qed.

Lemma jump_arc_fixed_witness :
  let g := withKeys ∅ {["KeyW"%string]} (restingRight : Game float) in
  onGround (player (steps (repeat ({["KeyW"%string]}, {["KeyW"%string]}) 47)
                          (update STEP g))) = true.
Proof.
  cbv zeta.
  apply (jump_arc_fixed (repeat ({["KeyW"%string]}, {["KeyW"%string]}) 47)
           (withKeys ∅ {["KeyW"%string]} (restingRight : Game float))).
  - reflexivity.
  - vm_compute. reflexivity.
  - vm_compute. reflexivity.
  - cbn [repeat length]. lia.
  - reflexivity.
Defined.

Lemma vstates_range (v : vstate) :
  In v vstates ->
  let '(y0, vy0, og0) := v in
  geb y0 (ofZ 241) = true /\ geb (ofZ 368) y0 = true /\
  geb vy0 (ofZ (-624)) = true /\ geb (ofZ 604) vy0 = true.
Proof.
  intros Hin. unfold vstates, fallStates, jumpStates, grounded in Hin.
  cbn [app In] in Hin.
  repeat (destruct Hin as [<- | Hin]); try contradiction;
    repeat split; vm_compute; reflexivity.
Qed.

(** X18.  The player stays in a band: in every state the running program
    reaches by key events and frames, in binary64, [y] is between 241 and
    368 (a jump rises less than 127 px, the top of the player never leaves
    the canvas upwards) and [vy] between -624 and 604 px/s. *)
Theorem vertical_range (g : Game float) :
  reachable g ->
  let p := player g in
  geb (y p) (ofZ 241) = true /\ geb (ofZ 368) (y p) = true /\
  geb (vy p) (ofZ (-624)) = true /\ geb (ofZ 604) (vy p) = true.
Proof.
  intros Hr. apply reachable_stepped, vinv_stepped in Hr.
  destruct Hr as [_ Hin]. apply vstates_range in Hin. exact Hin.
Qed.

Lemma reachable_run {N : Type} `{Num N} (fuel : nat) (ins : list (@Input N))
      (g : Game N) (n : nat) (g' : Game N) :
  reachable g -> run fuel ins g = Some (n, g') -> reachable g'.
Proof.
  revert g n. induction ins as [| [now | e] ins IH]; intros g n Hr.
  - cbn [run]. intros [= <- <-]. exact Hr.
  - cbn [run]. destruct (loop fuel now g) as [[k g1] |] eqn:El; [| discriminate].
    destruct (run fuel ins g1) as [[m g2] |] eqn:Er; [| discriminate].
    intros [= <- <-]. eapply IH; [| exact Er].
    eapply reach_loop; [exact Hr | exact El].
  - cbn [run]. intros E. eapply IH; [| exact E].
    destruct e as [c | c]; [apply reach_keydown | apply reach_keyup]; exact Hr.
Qed.

(** Two long frames bring the player to the ground; Space goes down and the
    next frame runs the first steps of the jump. *)
Lemma vertical_range_witness :
  exists (n : nat) (g : Game float),
    run 16 [Frame 0.25%float; Frame 0.5%float; Key (KeyDown "Space");
            Frame 0.625%float] (game0 (ofZ 0)) = Some (n, g) /\
    onGround (player g) = false /\
    geb (y (player g)) (ofZ 241) = true /\ geb (ofZ 368) (y (player g)) = true /\
    geb (vy (player g)) (ofZ (-624)) = true /\ geb (ofZ 604) (vy (player g)) = true.
Proof.
  destruct (run 16 [Frame 0.25%float; Frame 0.5%float; Key (KeyDown "Space");
                    Frame 0.625%float] (game0 (ofZ 0) : Game float))
    as [[n g] |] eqn:E.
  - exists n, g. split; [reflexivity |].
    assert (Hr : reachable g)
      by (eapply reachable_run; [apply reach_start | exact E]).
    split; [| exact (vertical_range g Hr)].
    pose proof (f_equal (option_map (fun r => onGround (player (snd r)))) E) as Hc.
    vm_compute in Hc. injection Hc as Hc. symmetry. exact Hc.
  - exfalso. pose proof (f_equal (option_map fst) E) as Hc.
    vm_compute in Hc. discriminate Hc.
Defined.

(** ** The loop under a clock that does not go back, in binary64 *)

Lemma sub_reading_nonneg (a b : float) :
  PrimFloat.leb 0 b = true -> PrimFloat.leb b a = true ->
  PrimFloat.ltb a infinity = true ->
  PrimFloat.leb 0 (a - b) = true /\ PrimFloat.leb 0 a = true.
Proof.
  rewrite !leb_zero_nonneg.
  rewrite FloatAxioms.leb_spec, FloatAxioms.ltb_spec, FloatAxioms.sub_spec.
  change (Prim2SF infinity) with (S754_infinity false).
  pose proof (Prim2SF_valid a) as Hva. pose proof (Prim2SF_valid b) as Hvb.
  unfold SF64sub, SFleb, SFltb.
  destruct (Prim2SF a) as [sa | sa | | sa ma ea];
    destruct (Prim2SF b) as [sb | sb | | sb mb eb];
    cbv beta iota delta [SFcompare SFsub sf_nonneg];
    intros Hb Hle Hfin; try contradiction; try discriminate;
    try (destruct sa; discriminate);
    try (subst sb; destruct sa; discriminate).
  - destruct sa, sb; split; exact I.
  - destruct sa; [discriminate |]. split; reflexivity.
  - subst sb. destruct sa; [discriminate |]. split; [| reflexivity].
    apply binary_normalize_nonneg. cbn [cond_Zopp].
    pose proof (compare_units mb eb ma ea Hvb Hva) as Hc.
    cbv beta iota delta [SFcompare] in Hc.
    destruct (valid_finite _ _ _ Hva) as (Hea & _).
    destruct (valid_finite _ _ _ Hvb) as (Heb & _).
    pose proof (shl_align_units ma ea (Z.min ea eb) ltac:(lia) ltac:(lia)) as Sa.
    pose proof (shl_align_units mb eb (Z.min ea eb) ltac:(lia) ltac:(lia)) as Sb.
    assert (HP : (0 < 2 ^ (Z.min ea eb + 1074))%Z) by (apply Z.pow_pos_nonneg; lia).
    assert (Hu : (Zpos mb * 2 ^ (eb + 1074) <= Zpos ma * 2 ^ (ea + 1074))%Z).
    { destruct (Z.compare eb ea);
        [destruct (PosDef.Pos.compare_cont Eq mb ma) | |];
        first [discriminate Hle | lia]. }
    nia.
Qed.

Lemma loop_binary64 (now : float) (g : Game float) :
  accInRange (acc g) = true -> geb (last g) (ofZ 0) = true ->
  geb now (last g) = true -> PrimFloat.ltb now infinity = true ->
  exists (n : nat) (g' : Game float),
    loop 16 now g = Some (n, g') /\ (n <= 16)%nat /\
    accInRange (acc g') = true /\ last g' = now /\ geb (last g') (ofZ 0) = true.
Proof.
  intros Hr H0 Hge Hfin.
  destruct (sub_reading_nonneg now (last g) H0 Hge Hfin) as [Hdt Hnow].
  set (g1 := mkGame (player g) (down g) (pressed g) now (acc g)).
  assert (Hdt' : geb (PrimFloat.sub now (last g)) (ofZ 0 : float) = true) by exact Hdt.
  assert (Hnow' : geb now (ofZ 0 : float) = true) by exact Hnow.
  destruct (frame_binary64 (PrimFloat.sub now (last g)) g1 Hr Hdt')
    as (n & g' & E & Hn & Hr').
  assert (El : loop 16 now g = Some (n, g')) by exact E.
  pose proof (loop_last 16 now g n g' El) as Hl.
  exists n, g'. rewrite Hl. repeat split; assumption.
Qed.

Lemma runLoops_binary64 (nows : list float) (g : Game float) :
  accInRange (acc g) = true -> geb (last g) (ofZ 0) = true ->
  monotone (last g) nows = true -> finiteReadings nows = true ->
  exists (n : nat) (g' : Game float),
    runLoops 16 nows g = Some (n, g') /\ (n <= 16 * length nows)%nat /\
    accInRange (acc g') = true /\ last g' = List.last nows (last g).
Proof.
  revert g. induction nows as [| now nows IH]; intros g Hr H0 Hm Hf.
  - exists O, g. cbn [runLoops length List.last]. repeat split; [lia | exact Hr].
  - cbn [monotone finiteReadings forallb] in Hm, Hf.
    apply andb_prop in Hm, Hf. destruct Hm as [Hge Hm], Hf as [Hfin Hf].
    destruct (loop_binary64 now g Hr H0 Hge Hfin)
      as (n & g1 & El & Hn & Hr1 & Hl1 & H01).
    rewrite <- Hl1 in Hm.
    destruct (IH g1 Hr1 H01 Hm Hf) as (m & g2 & Er & Hm2 & Hr2 & Hl2).
    exists (n + m)%nat, g2. cbn [runLoops length]. rewrite El, Er.
    split; [reflexivity |]. split; [lia |]. split; [exact Hr2 |].
    rewrite last_cons, Hl2, Hl1. reflexivity.
Qed.

(** X12.  The loop never hangs and never loses track of the accumulator: in
    binary64, for clock readings that are finite and do not go back, from a
    state with [last >= 0] and the accumulator in [[0, STEP)], every call of
    [loop()] ends its [while] within 16 turns, however long the gaps
    between the readings, and the run ends with the accumulator in
    [[0, STEP)] again and [last] at the latest reading. *)
Theorem loop_never_hangs (nows : list float) (g : Game float) :
  accInRange (acc g) = true -> geb (last g) (ofZ 0) = true ->
  monotone (last g) nows = true -> finiteReadings nows = true ->
  exists (n : nat) (g' : Game float),
    runLoops 16 nows g = Some (n, g') /\ (n <= 16 * length nows)%nat /\
    accInRange (acc g') = true /\ last g' = List.last nows (last g).
Proof. exact (runLoops_binary64 nows g). Qed.

Lemma loop_never_hangs_witness :
  exists (n : nat) (g' : Game float),
    runLoops 16 [0.015625%float; 0.5%float; 86400%float] (game0 (ofZ 0)) = Some (n, g') /\
    (n <= 16 * 3)%nat /\ accInRange (acc g') = true /\ last g' = 86400%float.
Proof.
  apply (loop_never_hangs [0.015625%float; 0.5%float; 86400%float] (game0 (ofZ 0)));
    vm_compute; reflexivity.
Defined.

(** X7.  What a call of [loop()] does besides the physics, in binary64 and
    for a clock reading that is finite and not before [last], from
    [last >= 0] and the accumulator in [[0, STEP)]: the call ends within 16
    turns, [last] is the clock reading, [down] and the size of the player
    are not touched; a frame without a step leaves the player and
    [pressed] as they were (a key press waits for the next step) and adds
    the clamped frame time to the accumulator; a frame with a step leaves
    [pressed] empty. *)
Theorem loop_effects (now : float) (g : Game float) :
  accInRange (acc g) = true -> geb (last g) (ofZ 0) = true ->
  geb now (last g) = true -> PrimFloat.ltb now infinity = true ->
  exists (n : nat) (g' : Game float),
    loop 16 now g = Some (n, g') /\ (n <= 16)%nat /\
    last g' = now /\ down g' = down g /\
    w (player g') = w (player g) /\ h (player g') = h (player g) /\
    (n = O -> player g' = player g /\ pressed g' = pressed g /\
              acc g' = add (acc g) (clamp (sub now (last g)))) /\
    (n <> O -> pressed g' = ∅).
Proof.
  intros Hr H0 Hge Hfin.
  destruct (loop_binary64 now g Hr H0 Hge Hfin) as (n & g' & E & Hn & _).
  exists n, g'. split; [exact E |]. split; [exact Hn |].
  exact (loop_facts 16 now g n g' E).
Qed.

Lemma loop_effects_witness :
  let g := keydown "KeyA" (game0 (ofZ 0)) : Game float in
  exists (n : nat) (g' : Game float),
    loop 16 0.0625%float g = Some (n, g') /\ (n <= 16)%nat /\
    last g' = 0.0625%float /\ down g' = down g /\
    w (player g') = w (player g) /\ h (player g') = h (player g) /\
    (n = O -> player g' = player g /\ pressed g' = pressed g /\
              acc g' = add (acc g) (clamp (sub 0.0625%float (last g)))) /\
    (n <> O -> pressed g' = ∅).
Proof.
  cbv zeta.
  apply (loop_effects 0.0625%float (keydown "KeyA" (game0 (ofZ 0))));
    vm_compute; reflexivity.
Defined.

(** X11.  The player does not depend on how the frames were cut.  In
    binary64, for clock readings that are finite and do not go back, from
    [last >= 0] and the accumulator in [[0, STEP)], with no key event in
    between: the run of frames ends, and the player and the key sets are
    those that as many turns of the loop body produce from the start,
    whatever the clock readings were. *)
Theorem frames_do_not_matter (nows : list float) (g : Game float) :
  accInRange (acc g) = true -> geb (last g) (ofZ 0) = true ->
  monotone (last g) nows = true -> finiteReadings nows = true ->
  exists (n : nat) (g' : Game float),
    runLoops 16 nows g = Some (n, g') /\
    player g' = player (Nat.iter n turn g) /\
    down g' = down (Nat.iter n turn g) /\
    pressed g' = pressed (Nat.iter n turn g).
Proof.
  intros Hr H0 Hm Hf.
  destruct (runLoops_binary64 nows g Hr H0 Hm Hf) as (n & g' & E & _).
  exists n, g'. split; [exact E |].
  exact (runLoops_turns 16 nows g n g' E).
Qed.

Lemma frames_do_not_matter_witness :
  let g := keydown "ArrowRight" (game0 (ofZ 0)) : Game float in
  exists (n : nat) (g' : Game float),
    runLoops 16 [0.015625%float; 0.0625%float; 0.5%float] g = Some (n, g') /\
    player g' = player (Nat.iter n turn g) /\
    down g' = down (Nat.iter n turn g) /\
    pressed g' = pressed (Nat.iter n turn g).
Proof.
  cbv zeta.
  apply (frames_do_not_matter [0.015625%float; 0.0625%float; 0.5%float]
           (keydown "ArrowRight" (game0 (ofZ 0))));
    vm_compute; reflexivity.
Defined.

(** ** A jump, from the key event through the frames *)

Lemma vert_turn (g : Game float) :
  h (player g) = ofZ 32 ->
  vert (turn g) = vstep (justPressed g JUMP_CODES) (vert g).
Proof.
  intros Hh. change (vert (turn g)) with (vert (update STEP g)).
  apply vert_update, Hh.
Qed.

Lemma turns_along (arc : list vstate) (len : nat) :
  (forall (i : nat) (jp : bool),
     (i < len)%nat -> vstep jp (nth i arc grounded) = nth (S i) arc grounded) ->
  forall (k : nat) (g : Game float) (i : nat),
    h (player g) = ofZ 32 ->
    vert g = nth i arc grounded ->
    (i + k <= len)%nat ->
    vert (Nat.iter k turn g) = nth (i + k) arc grounded.
Proof.
  intros Hnext k g i Hh Hv. induction k as [| k IH]; intros Hlen.
  - rewrite Nat.add_0_r. exact Hv.
  - rewrite Nat.iter_succ, vert_turn.
    + rewrite IH by lia. rewrite Nat.add_succ_r. apply Hnext. lia.
    + destruct (iter_turn_frame k g) as (_ & _ & _ & Hh' & _). congruence.
Qed.

Lemma jump_turns (c : KeyCode) (g : Game float) (k : nat) :
  h (player g) = ofZ 32 -> vert g = grounded ->
  In c JUMP_CODES -> c ∉ down g -> (k <= 47)%nat ->
  vert (Nat.iter (S k) turn (keydown c g)) = nth k jumpArc grounded.
Proof.
  intros Hh Hv Hc Hd Hk.
  rewrite Nat.iter_succ_r.
  change k with (0 + k)%nat at 2.
  apply (turns_along jumpArc 47 jumpArc_next).
  - rewrite <- Hh. apply (update_size STEP (keydown c g)).
  - rewrite (vert_turn (keydown c g) Hh).
    change (vert (keydown c g)) with (vert g). rewrite Hv.
    assert (Hj : justPressed (keydown c g) JUMP_CODES = true).
    { apply justPressed_spec. exists c. split; [exact Hc |].
      unfold keydown. cbn [pressed].
      rewrite bool_decide_eq_false_2 by assumption. set_solver. }
    rewrite Hj. vm_compute. reflexivity.
  - lia.
Qed.

(** X19.  A jump key that was not held is pressed while the player rests on
    the ground; then frames run with no further event, in binary64, under
    clock readings that are finite and do not go back (from [last >= 0]
    and the accumulator in [[0, STEP)]).  The run ends.  As long as no step
    has run, the player rests and the press waits in [pressed].  The first
    step launches the jump, with [vy = -650 + GRAVITY * STEP] after it; and
    after [n] steps in all, [n <= 48], the vertical state is the
    [(n - 1)]-th of the fixed jump arc, however the steps are spread over
    the frames: in the air up to the 47th step, on the ground by the 48th,
    and [pressed] is empty. *)
Theorem jump_through_frames (nows : list float) (c : KeyCode) (g : Game float) :
  h (player g) = ofZ 32 -> vert g = grounded ->
  In c ["Space"; "KeyW"; "ArrowUp"]%string -> c ∉ down g ->
  accInRange (acc g) = true -> geb (last g) (ofZ 0) = true ->
  monotone (last g) nows = true -> finiteReadings nows = true ->
  exists (n : nat) (g' : Game float),
    runLoops 16 nows (keydown c g) = Some (n, g') /\
    (n = O -> vert g' = grounded /\ c ∈ pressed g') /\
    (n = 1%nat -> vy (player g') = add (ofZ (-650)) (mul GRAVITY STEP)) /\
    ((1 <= n <= 48)%nat ->
     vert g' = nth (n - 1) jumpArc grounded /\ pressed g' = ∅ /\
     (onGround (player g') = true <-> n = 48%nat)).
Proof.
  intros Hh Hv Hc Hd Hr H0 Hm Hf.
  destruct (runLoops_binary64 nows (keydown c g) Hr H0 Hm Hf) as (n & g' & E & _).
  exists n, g'. split; [exact E |].
  destruct (runLoops_turns 16 nows (keydown c g) n g' E) as (Hp & _ & Hpr).
  assert (Hvg : vert g' = vert (Nat.iter n turn (keydown c g)))
    by (unfold vert; rewrite Hp; reflexivity).
  assert (Harc : forall k : nat, n = S k -> (k <= 47)%nat ->
                 vert g' = nth k jumpArc grounded).
  { intros k -> Hk. rewrite Hvg. apply jump_turns; assumption. }
  split; [| split].
  - intros ->. rewrite Hvg, Hpr. split; [exact Hv |].
    unfold keydown. cbn [Nat.iter nat_rect pressed].
    rewrite bool_decide_eq_false_2 by assumption. set_solver.
  - intros ->. pose proof (Harc O eq_refl ltac:(lia)) as H1.
    etransitivity; [exact (f_equal (fun v : vstate => snd (fst v)) H1) |].
    vm_compute. reflexivity.
  - intros [Hn1 Hn48]. destruct n as [| k]; [lia |].
    assert (Hk : (k <= 47)%nat) by lia.
    pose proof (Harc k eq_refl Hk) as Hk'.
    replace (S k - 1)%nat with k by lia.
    split; [exact Hk' |]. split.
    + rewrite Hpr. apply (iter_turn_frame (S k) (keydown c g)). discriminate.
    + pose proof (f_equal snd Hk') as Hog. unfold vert in Hog. cbn [snd] in Hog.
      rewrite (jumpArc_onGround k Hk) in Hog. rewrite Hog.
      rewrite Nat.eqb_eq. lia.
Qed.

Lemma jump_through_frames_witness :
  exists g' : Game float,
    runLoops 16 [0.015625%float; 0.03125%float; 0.5%float]
             (keydown "Space" (restingRight : Game float)) = Some (16%nat, g') /\
    vert g' = nth 15 jumpArc grounded /\ pressed g' = ∅ /\
    onGround (player g') = false.
Proof.
  assert (Hd : "Space"%string ∉ down (restingRight : Game float))
    by (vm_compute; set_solver).
  assert (Hh : h (player (restingRight : Game float)) = ofZ 32) by reflexivity.
  assert (Hv : vert restingRight = grounded) by reflexivity.
  assert (Hc : In "Space"%string ["Space"; "KeyW"; "ArrowUp"]%string)
    by (left; reflexivity).
  assert (Hr : accInRange (acc (restingRight : Game float)) = true)
    by (vm_compute; reflexivity).
  assert (H0 : geb (last (restingRight : Game float)) (ofZ 0) = true)
    by (vm_compute; reflexivity).
  assert (Hm : monotone (last (restingRight : Game float))
                 [0.015625%float; 0.03125%float; 0.5%float] = true)
    by (vm_compute; reflexivity).
  assert (Hf : finiteReadings [0.015625%float; 0.03125%float; 0.5%float] = true)
    by (vm_compute; reflexivity).
  destruct (jump_through_frames [0.015625%float; 0.03125%float; 0.5%float]
              "Space" restingRight Hh Hv Hc Hd Hr H0 Hm Hf)
    as (n & g' & E & _ & _ & Harc).
  assert (Hn : n = 16%nat).
  { pose proof (f_equal (option_map fst) E) as Hn. vm_compute in Hn.
    injection Hn as Hn. symmetry. exact Hn. }
  subst n. exists g'. split; [exact E |].
  destruct (Harc ltac:(lia)) as (Ha & Hp & Hog).
  split; [exact Ha |]. split; [exact Hp |].
  destruct (onGround (player g')); [| reflexivity].
  exfalso. assert (H48 : 16%nat = 48%nat) by (apply Hog; reflexivity).
  discriminate H48.
Defined.

(** ** The timing does not read the game *)

Section Timing.

Context {N : Type} `{Num N}.

(** X20.  How many steps a frame runs and what it leaves in the accumulator
    depend on the clock alone: two states with the same [last] and [acc]
    get the same count and the same accumulator from [loop()], whatever
    their players and key sets.  Nothing the player does can speed the
    simulation up or slow it down. *)
Theorem timing_ignores_game (fuel : nat) (now : N) (g1 g2 : Game N) :
  last g1 = last g2 -> acc g1 = acc g2 ->
  option_map (fun r => (fst r, acc (snd r))) (loop fuel now g1)
  = option_map (fun r => (fst r, acc (snd r))) (loop fuel now g2).
Proof.
  intros Hl Ha. unfold loop, frame. rewrite !drain_acc. cbn [acc].
  rewrite Hl, Ha. reflexivity.
Qed.

End Timing.

Lemma timing_ignores_game_witness :
  option_map (fun r => (fst r, acc (snd r)))
    (loop 16 0.125%float (game0 (ofZ 0)))
  = option_map (fun r => (fst r, acc (snd r)))
      (loop 16 0.125%float (keydown "Space" (restingRight : Game float))).
Proof.
  apply (timing_ignores_game 16 0.125%float (game0 (ofZ 0))
           (keydown "Space" (restingRight : Game float))); reflexivity.
Defined.

(** ** Three steps *)

(** C8.  With an empty accumulator, a frame time of [3 * STEP] is below the
    cap and makes the loop call [update(STEP)] three times, emptying
    [pressed] after each call: the player the frame leaves is the one three
    such calls produce, with [down] and [last] as they were and [pressed]
    empty.  The accumulator is left with a rounding residue between 0 and
    1e-15 (it is 2^-57).  Binary64 arithmetic, as the program runs. *)
Theorem three_steps (k : nat) (g : Game float) :
  acc g = ofZ 0 ->
  let dt := mul (ofZ 3) STEP in
  let cleared (x : Game float) := withKeys (down x) ∅ x in
  let g3 := cleared (update STEP (cleared (update STEP (cleared (update STEP g))))) in
  clamp dt = dt /\
  exists g' : Game float,
    frame (3 + k) dt g = Some (3%nat, g') /\
    player g' = player g3 /\ down g' = down g /\ pressed g' = ∅ /\
    last g' = last g /\
    geb (acc g') (ofZ 0) = true /\
    gtb (div (ofZ 1) (ofZ 1000000000000000)) (acc g') = true.
Proof.
  intros Ha. cbv zeta. split; [vm_compute; reflexivity |].
  edestruct (frame_of_drainAcc 3 k (mul (ofZ 3) STEP) g) as (g' & E & Hacc).
  { rewrite Ha. vm_compute. reflexivity. }
  exists g'. split; [exact E |]. rewrite Hacc.
  unfold frame in E. destruct (drain_turns _ _ _ _ E) as (Hg' & _ & _).
  set (g0 := mkGame (player g) (down g) (pressed g) (last g)
                    (add (acc g) (clamp (mul (ofZ 3) STEP)))) in *.
  assert (Hs0 : sameInput g0 g) by (repeat split).
  pose proof (turn_as_update _ _ Hs0) as Hs1.
  pose proof (turn_as_update _ _ Hs1) as Hs2.
  pose proof (turn_as_update _ _ Hs2) as Hs3.
  destruct (iter_turn_frame 3 g0) as (Hd & Hl & _ & _ & Hp).
  rewrite Hg'.
  split; [exact (proj1 Hs3) |]. split; [exact Hd |].
  split; [apply Hp; discriminate |]. split; [exact Hl |].
  split; vm_compute; reflexivity.
Qed.

(** From the initial state, through [loop()]: after the frame the player
    has fallen for three steps. *)
Lemma three_steps_witness :
  let g := game0 (ofZ 0) : Game float in
  exists g' : Game float,
    loop 3 (mul (ofZ 3) STEP) g = Some (3%nat, g') /\
    player g' = player (update STEP (update STEP (update STEP g))) /\
    gtb (y (player g')) (ofZ 302) = true /\ gtb (vy (player g')) (ofZ 79) = true /\
    pressed g' = ∅ /\
    geb (acc g') (ofZ 0) = true /\
    gtb (div (ofZ 1) (ofZ 1000000000000000)) (acc g') = true.
Proof.
  cbv zeta.
  pose (g1 := mkGame player0 ∅ ∅ (mul (ofZ 3) STEP) (ofZ 0) : Game float).
  assert (Ha : acc g1 = (ofZ 0 : float)) by reflexivity.
  destruct (three_steps 0 g1 Ha) as [_ (g' & E & Hp & _ & Hpr & _ & Hb)].
  exists g'. split.
  - unfold loop. cbn [last acc player down pressed game0].
    replace (sub (mul (ofZ 3) STEP) (ofZ 0) : float) with (mul (ofZ 3) STEP : float)
      by (vm_compute; reflexivity).
    exact E.
  - rewrite Hp. split; [vm_compute; reflexivity |].
    split; [vm_compute; reflexivity |]. split; [vm_compute; reflexivity |].
    split; [exact Hpr | exact Hb].
Defined.

(** ** The horizontal speed in binary64 *)

Section SpeedRounding.

Local Open Scope Z_scope.

Lemma roundMag_mono (u v : Z) : u <= v -> roundMag u <= roundMag v.
Proof.
  intros H. unfold roundMag.
  pose proof (Z.div_le_mono u v (2 ^ 52) ltac:(lia) H). lia.
Qed.

(** The rounding of [binary_round_aux], for either sign and up to large
    values, in the fine units. *)
Lemma binary_round_aux_mag (s : bool) (mz : positive) (ez : Z) :
  -2148 <= ez ->
  ez <= fexp prec emax (Zpos (digits2_pos mz) + ez) ->
  Zpos (digits2_pos mz) + ez <= 1000 ->
  sf_finite (binary_round_aux prec emax s (Zpos mz) ez loc_Exact) /\
  mag (binary_round_aux prec emax s (Zpos mz) ez loc_Exact)
    <= Zpos mz * 2 ^ (ez + 2148)
       + 2 ^ (fexp prec emax (Zpos (digits2_pos mz) + ez) + 2148).
Proof.
  intros Hez Hf Hd.
  set (f := fexp prec emax (Zpos (digits2_pos mz) + ez)) in *.
  assert (Hflo : -1074 <= f) by (unfold f, fexp, emin, prec, emax; lia).
  assert (Hfhi : f <= 947) by (unfold f, fexp, emin, prec, emax; lia).
  assert (Hfd : Zpos (digits2_pos mz) + ez - 53 <= f)
    by (unfold f, fexp, emin, prec, emax; lia).
  unfold binary_round_aux, shr_fexp. cbn [Zdigits2]. fold f.
  pose proof (shr_bound (shr_record_of_loc (Zpos mz) loc_Exact) ez (f - ez)
                ltac:(cbn; lia)) as H1.
  cbv zeta in H1.
  destruct (shr (shr_record_of_loc (Zpos mz) loc_Exact) ez (f - ez)) as [mrs' e'].
  cbn [fst snd shr_record_of_loc shr_m] in H1. destruct H1 as (He' & Hm' & Hs').
  replace (Z.max (f - ez) 0) with (f - ez) in * by lia.
  assert (Hef : e' = f) by lia. clear He'. subst e'.
  pose proof (round_nearest_even_bound (shr_m mrs') (loc_of_shr_record mrs') Hm')
    as Hm1.
  set (m1 := round_nearest_even (shr_m mrs') (loc_of_shr_record mrs')) in *.
  pose proof (shr_bound (shr_record_of_loc m1 loc_Exact) f
                (fexp prec emax (Zdigits2 m1 + f) - f) ltac:(cbn; lia)) as H2.
  cbv zeta in H2.
  destruct (shr (shr_record_of_loc m1 loc_Exact) f
                (fexp prec emax (Zdigits2 m1 + f) - f)) as [mrs'' e''].
  cbn [fst snd shr_record_of_loc shr_m] in H2. destruct H2 as (He'' & Hm'' & Hs'').
  set (k2 := Z.max (fexp prec emax (Zdigits2 m1 + f) - f) 0) in *.
  (* the mantissa after the first shift has at most 53 digits *)
  pose proof (digits2_pos_upper mz) as Hup.
  assert (Hpow : 0 < 2 ^ (f - ez)) by (apply Z.pow_pos_nonneg; lia).
  assert (Hsh : shr_m mrs' < 2 ^ 53).
  { assert (Hlt : 2 ^ (f - ez) * shr_m mrs' < 2 ^ (f - ez) * 2 ^ 53).
    { eapply Z.le_lt_trans; [exact Hs' |].
      eapply Z.lt_le_trans; [exact Hup |].
      rewrite <- Z.pow_add_r by lia. apply Z.pow_le_mono_r; lia. }
    nia. }
  assert (Hm1up : m1 < 2 ^ 54).
  { change (2 ^ 54) with (2 * 2 ^ 53). lia. }
  pose proof (Zdigits2_le m1 54 ltac:(lia) ltac:(lia) Hm1up) as Hdig.
  assert (He971 : e'' <= 971).
  { subst e''. unfold k2, fexp, emin, prec, emax. lia. }
  assert (Hk2 : 0 <= k2) by (unfold k2; lia).
  assert (HP : 2 ^ (e'' + 2148) = 2 ^ k2 * 2 ^ (f + 2148)).
  { subst e''. rewrite <- Z.pow_add_r by lia. f_equal. lia. }
  assert (HP' : 2 ^ (f + 2148) = 2 ^ (f - ez) * 2 ^ (ez + 2148)).
  { rewrite <- Z.pow_add_r by lia. f_equal. lia. }
  assert (HP1 : 0 < 2 ^ (f + 2148)) by (apply Z.pow_pos_nonneg; lia).
  assert (HP2 : 0 < 2 ^ (ez + 2148)) by (apply Z.pow_pos_nonneg; lia).
  assert (HP3 : 0 < 2 ^ k2) by (apply Z.pow_pos_nonneg; lia).
  destruct (shr_m mrs'') as [| m | m]; [| | lia].
  - cbn. split; [exact I | nia].
  - replace (Z.leb e'' (emax - prec)) with true
      by (symmetry; apply Z.leb_le; unfold emax, prec; lia).
    cbn [sf_finite mag]. split; [exact I |].
    rewrite HP.
    set (P1 := 2 ^ (f + 2148)) in *. set (P2 := 2 ^ (ez + 2148)) in *.
    set (P3 := 2 ^ (f - ez)) in *. set (P4 := 2 ^ k2) in *.
    assert (Ha : Zpos m * (P4 * P1) <= m1 * P1) by nia.
    assert (Hb : m1 * P1 <= (shr_m mrs' + 1) * P1) by nia.
    assert (Hc : shr_m mrs' * P1 <= Zpos mz * P2) by (rewrite HP'; nia).
    lia.
Qed.

Lemma binary_round_mag (s : bool) (D : positive) (e : Z) :
  -1074 <= e ->
  Zpos (digits2_pos D) + e <= 1000 ->
  sf_finite (binary_round prec emax s D e) /\
  mag (binary_round prec emax s D e)
    <= Zpos D * 2 ^ (e + 2148)
       + 2 ^ (fexp prec emax (Zpos (digits2_pos D) + e) + 2148).
Proof.
  intros He Hd. unfold binary_round, shl_align.
  set (f := fexp prec emax (Zpos (digits2_pos D) + e)).
  assert (Hf : -1074 <= f) by (unfold f, fexp, emin, prec, emax; lia).
  destruct (f - e) as [| d | d] eqn:Efe.
  - apply (binary_round_aux_mag s D e); [lia | fold f; lia | exact Hd].
  - apply (binary_round_aux_mag s D e); [lia | fold f; lia | exact Hd].
  - assert (Hdig : Zpos (digits2_pos (Pos.iter xO D d)) + f
                   = Zpos (digits2_pos D) + e)
      by (rewrite iter_xO_digits; lia).
    destruct (binary_round_aux_mag s (Pos.iter xO D d) f) as [Hfin Hu].
    + lia.
    + rewrite Hdig. fold f. lia.
    + rewrite Hdig. exact Hd.
    + split; [exact Hfin |]. rewrite Hdig in Hu. fold f in Hu.
      set (U := mag _) in *.
      rewrite iter_xO_units in Hu.
      replace (e + 2148) with (Zpos d + (f + 2148)) by lia.
      rewrite Z.pow_add_r by lia. lia.
Qed.

Lemma ulp_mag (D : positive) (e : Z) :
  -2148 <= e ->
  2 ^ 52 * 2 ^ (fexp prec emax (Zpos (digits2_pos D) + e) + 2148)
    <= Zpos D * 2 ^ (e + 2148) + 2 ^ 52 * 2 ^ 1074.
Proof.
  intros He. pose proof (digits2_pos_lower D) as Hl.
  assert (HP : 0 < 2 ^ (e + 2148)) by (apply Z.pow_pos_nonneg; lia).
  unfold fexp, emin, prec, emax.
  destruct (Z.max_spec (Zpos (digits2_pos D) + e - 53) (3 - 1024 - 53))
    as [[_ ->] | [Hge ->]].
  - change (3 - 1024 - 53 + 2148) with 1074. nia.
  - rewrite <- Z.pow_add_r by lia.
    replace (52 + (Zpos (digits2_pos D) + e - 53 + 2148))
      with ((Zpos (digits2_pos D) - 1) + (e + 2148)) by lia.
    rewrite Z.pow_add_r by lia.
    assert (H0 : 0 <= 2 ^ 52 * 2 ^ 1074) by (apply Z.mul_nonneg_nonneg; lia).
    nia.
Qed.

Lemma roundMag_of_ulp (X F : Z) :
  0 <= X -> 2 ^ 52 * F <= X + 2 ^ 52 * 2 ^ 1074 -> X + F <= roundMag X.
Proof.
  intros HX HF. unfold roundMag.
  assert (H : F <= X / 2 ^ 52 + 2 ^ 1074).
  { replace (X / 2 ^ 52 + 2 ^ 1074) with ((X + 2 ^ 1074 * 2 ^ 52) / 2 ^ 52)
      by (rewrite Z.div_add by lia; reflexivity).
    apply Z.div_le_lower_bound; lia. }
  lia.
Qed.

Lemma digits_of_mag (D : positive) (e : Z) :
  -2148 <= e -> Zpos D * 2 ^ (e + 2148) < 2 ^ 3147 ->
  Zpos (digits2_pos D) + e <= 1000.
Proof.
  intros He Hlt. pose proof (digits2_pos_lower D) as Hl.
  assert (HP : 0 < 2 ^ (e + 2148)) by (apply Z.pow_pos_nonneg; lia).
  assert (H2 : 2 ^ (Zpos (digits2_pos D) - 1 + (e + 2148)) < 2 ^ 3147).
  { rewrite Z.pow_add_r by lia. nia. }
  apply Z.pow_lt_mono_r_iff in H2; lia.
Qed.

Lemma binary_normalize_mag (m e : Z) :
  -1074 <= e -> Z.abs m * 2 ^ (e + 2148) < 2 ^ 3147 ->
  sf_finite (binary_normalize prec emax m e false) /\
  mag (binary_normalize prec emax m e false) <= roundMag (Z.abs m * 2 ^ (e + 2148)).
Proof.
  intros He Hlt.
  assert (Hsign : forall (s : bool) (D : positive),
            Zpos D * 2 ^ (e + 2148) < 2 ^ 3147 ->
            sf_finite (binary_round prec emax s D e) /\
            mag (binary_round prec emax s D e) <= roundMag (Zpos D * 2 ^ (e + 2148))).
  { intros s D HD.
    pose proof (digits_of_mag D e ltac:(lia) HD) as Hd.
    destruct (binary_round_mag s D e He Hd) as [Hfin Hu].
    split; [exact Hfin |].
    pose proof (ulp_mag D e ltac:(lia)) as Hulp.
    eapply Z.le_trans; [exact Hu |].
    apply roundMag_of_ulp; [| exact Hulp].
    apply Z.mul_nonneg_nonneg; [lia | apply Z.pow_nonneg; lia]. }
  destruct m as [| D | D]; cbn [binary_normalize Z.abs] in *.
  - cbn [sf_finite mag]. split; [exact I |]. unfold roundMag.
    change (0 * 2 ^ (e + 2148)) with 0. rewrite Z.div_0_l by lia. lia.
  - apply Hsign. exact Hlt.
  - apply Hsign. exact Hlt.
Qed.

Lemma valid_exponent (s : bool) (m : positive) (e : Z) :
  valid_binary (S754_finite s m e) = true -> e <= 971.
Proof.
  cbv beta iota delta [valid_binary bounded].
  intros Hv. apply andb_prop in Hv. destruct Hv as [_ Hb].
  apply Z.leb_le in Hb. unfold emax, prec in Hb. lia.
Qed.

Lemma shl_align_mag (m : positive) (e ez : Z) :
  ez <= e -> -1074 <= ez ->
  Zpos (fst (shl_align m e ez)) * 2 ^ (ez + 2148) = Zpos m * 2 ^ (e + 2148).
Proof.
  intros Hle Hez. pose proof (shl_align_units m e ez Hle Hez) as H.
  replace (ez + 2148) with ((ez + 1074) + 1074) by lia.
  replace (e + 2148) with ((e + 1074) + 1074) by lia.
  rewrite (Z.pow_add_r 2 (ez + 1074) 1074), (Z.pow_add_r 2 (e + 1074) 1074) by lia.
  rewrite !Z.mul_assoc, H. reflexivity.
Qed.

Lemma mag_nonneg (v : spec_float) : 0 <= mag v.
Proof.
  destruct v as [s | s | | s m e]; cbn [mag];
    first [lia | apply Z.mul_nonneg_nonneg; [lia | apply Z.pow_nonneg; lia]].
Qed.

(** The sum of two finite numbers of any signs: finite, and of magnitude
    at most the rounded-up sum of the magnitudes. *)
Lemma SFadd_mag (x y : spec_float) :
  valid_binary x = true -> valid_binary y = true ->
  sf_finite x -> sf_finite y ->
  mag x + mag y < 2 ^ 3147 ->
  sf_finite (SF64add x y) /\
  mag (SF64add x y) <= roundMag (mag x + mag y).
Proof.
  intros Hvx Hvy Hx Hy Hlt. unfold SF64add.
  pose proof (mag_nonneg x) as Hux. pose proof (mag_nonneg y) as Huy.
  assert (Hr : forall v, 0 <= v -> v <= roundMag v).
  { intros v Hv. unfold roundMag.
    pose proof (Z.div_pos v (2 ^ 52) Hv ltac:(lia)). lia. }
  destruct x as [sx | sx | | sx mx ex]; cbn [sf_finite] in Hx; try contradiction;
    destruct y as [sy | sy | | sy my ey]; cbn [sf_finite] in Hy; try contradiction;
    cbv beta iota delta [SFadd].
  - destruct sx, sy; cbn [sf_finite mag]; (split; [exact I |]);
      apply Hr; lia.
  - split; [exact I |]. cbn [mag] in *. apply Hr. lia.
  - split; [exact I |]. cbn [mag] in *. rewrite Z.add_0_r. apply Hr. lia.
  - cbv zeta.
    destruct (valid_finite _ _ _ Hvx) as (Hex & _).
    destruct (valid_finite _ _ _ Hvy) as (Hey & _).
    set (ez := Z.min ex ey).
    pose proof (shl_align_mag mx ex ez ltac:(lia) ltac:(lia)) as Sx.
    pose proof (shl_align_mag my ey ez ltac:(lia) ltac:(lia)) as Sy.
    set (A := Zpos (fst (shl_align mx ex ez))) in *.
    set (B := Zpos (fst (shl_align my ey ez))) in *.
    assert (HP : 0 < 2 ^ (ez + 2148)) by (apply Z.pow_pos_nonneg; lia).
    cbn [mag] in *.
    assert (Habs : Z.abs (cond_Zopp sx A + cond_Zopp sy B) * 2 ^ (ez + 2148)
                   <= Zpos mx * 2 ^ (ex + 2148) + Zpos my * 2 ^ (ey + 2148)).
    { rewrite <- Sx, <- Sy. rewrite <- Z.mul_add_distr_r.
      apply Z.mul_le_mono_nonneg_r; [lia |].
      unfold A, B. destruct sx, sy; cbn [cond_Zopp]; lia. }
    destruct (binary_normalize_mag (cond_Zopp sx A + cond_Zopp sy B) ez
                ltac:(lia) ltac:(lia)) as [Hfin Hu].
    split; [exact Hfin |].
    eapply Z.le_trans; [exact Hu |]. apply roundMag_mono. exact Habs.
Qed.

Lemma digits_of_small_mag (D : positive) (e : Z) :
  -2148 <= e -> Zpos D * 2 ^ (e + 2148) < 2 ^ 3000 ->
  Zpos (digits2_pos D) + e <= 853.
Proof.
  intros He Hlt. pose proof (digits2_pos_lower D) as Hl.
  assert (HP : 0 < 2 ^ (e + 2148)) by (apply Z.pow_pos_nonneg; lia).
  assert (H2 : 2 ^ (Zpos (digits2_pos D) - 1 + (e + 2148)) < 2 ^ 3000).
  { rewrite Z.pow_add_r by lia. nia. }
  apply Z.pow_lt_mono_r_iff in H2; lia.
Qed.

(** The product of a finite number with a normal one (53 digits): finite,
    and of magnitude at most the rounded-up exact product. *)
Lemma SFmul_mag (x : spec_float) (sy : bool) (my : positive) (ey : Z) :
  valid_binary x = true -> sf_finite x -> mag x < 2 ^ 3000 ->
  Zpos (digits2_pos my) = 53 -> -1074 <= ey -> ey <= 0 ->
  sf_finite (SF64mul x (S754_finite sy my ey)) /\
  mag (SF64mul x (S754_finite sy my ey))
    <= roundMag (mag x * Zpos my / 2 ^ (- ey)).
Proof.
  intros Hvx Hx Hsmall Hdy Hey Hey'. unfold SF64mul.
  assert (Hr : forall v, 0 <= v -> v <= roundMag v).
  { intros v Hv. unfold roundMag.
    pose proof (Z.div_pos v (2 ^ 52) Hv ltac:(lia)). lia. }
  destruct x as [sx | sx | | sx mx ex]; cbn [sf_finite] in Hx; try contradiction;
    cbv beta iota delta [SFmul].
  - cbn [sf_finite mag]. split; [exact I |].
    rewrite Z.mul_0_l, Z.div_0_l by (apply Z.pow_nonzero; lia).
    apply Hr. lia.
  - destruct (valid_finite _ _ _ Hvx) as (Hex & Hdx & _).
    cbn [mag] in Hsmall.
    pose proof (digits_of_small_mag mx ex ltac:(lia) Hsmall) as Hdx'.
    pose proof (digits2_pos_upper mx) as Hux.
    pose proof (digits2_pos_upper my) as Huy.
    pose proof (digits2_pos_lower my) as Hly.
    rewrite Hdy in Huy, Hly.
    change (2 ^ (53 - 1)) with (2 ^ 52) in Hly.
    assert (Hdlo : 53 <= Zpos (digits2_pos (mx * my))).
    { pose proof (digits2_pos_upper (mx * my)) as Hu.
      assert (H2 : 2 ^ 52 < 2 ^ Zpos (digits2_pos (mx * my))).
      { eapply Z.le_lt_trans; [| exact Hu]. rewrite Pos2Z.inj_mul. nia. }
      apply Z.pow_lt_mono_r_iff in H2; lia. }
    assert (Hdhi : Zpos (digits2_pos (mx * my)) <= Zpos (digits2_pos mx) + 53).
    { apply digits2_pos_le; [lia |]. rewrite Pos2Z.inj_mul.
      rewrite Z.pow_add_r by lia.
      assert (0 < 2 ^ Zpos (digits2_pos mx)) by (apply Z.pow_pos_nonneg; lia).
      nia. }
    destruct (binary_round_aux_mag (xorb sx sy) (mx * my) (ex + ey)) as [Hfin Hu].
    + lia.
    + unfold fexp, emin, prec, emax. lia.
    + lia.
    + split; [exact Hfin |].
      pose proof (ulp_mag (mx * my) (ex + ey) ltac:(lia)) as Hulp.
      eapply Z.le_trans; [exact Hu |].
      assert (Hexact : mag (S754_finite sx mx ex) * Zpos my / 2 ^ (- ey)
                       = Zpos (mx * my) * 2 ^ (ex + ey + 2148)).
      { cbn [mag]. rewrite Pos2Z.inj_mul.
        replace (ex + 2148) with ((ex + ey + 2148) + (- ey)) by lia.
        rewrite Z.pow_add_r by lia.
        replace (Zpos mx * (2 ^ (ex + ey + 2148) * 2 ^ (- ey)) * Zpos my)
          with (Zpos mx * Zpos my * 2 ^ (ex + ey + 2148) * 2 ^ (- ey)) by ring.
        apply Z.div_mul. apply Z.pow_nonzero; lia. }
      rewrite Hexact.
      apply roundMag_of_ulp; [| exact Hulp].
      apply Z.mul_nonneg_nonneg; [lia | apply Z.pow_nonneg; lia].
Qed.

(** *** One step of the velocity *)

Lemma FRICTION_binary64 :
  Prim2SF (FRICTION : float) = S754_finite false 8106479329266893 (-53).
Proof. reflexivity. Qed.

Lemma speed_constants :
  0 <= SPEED_MAG /\ 0 <= ACCEL_MAG /\
  SPEED_MAG + ACCEL_MAG < 2 ^ 3147 /\
  roundMag (SPEED_MAG + ACCEL_MAG) < 2 ^ 3000 /\
  frictionMag SPEED_MAG ACCEL_MAG <= SPEED_MAG.
Proof.
  split; [apply Z.leb_le; vm_compute; reflexivity |].
  split; [apply Z.leb_le; vm_compute; reflexivity |].
  split; [apply Z.ltb_lt; vm_compute; reflexivity |].
  split; [apply Z.ltb_lt; vm_compute; reflexivity |].
  apply Z.leb_le. vm_compute. reflexivity.
Qed.

(** [(v + a) * FRICTION], from a bound [B] on [v] and a bound [A] on
    [a]. *)
Lemma friction_step_bound (v a : float) (B A : Z) :
  sf_finite (Prim2SF v) -> mag (Prim2SF v) <= B ->
  sf_finite (Prim2SF a) -> mag (Prim2SF a) <= A ->
  roundMag (B + A) < 2 ^ 3000 ->
  sf_finite (Prim2SF (PrimFloat.mul (PrimFloat.add v a) (FRICTION : float))) /\
  mag (Prim2SF (PrimFloat.mul (PrimFloat.add v a) (FRICTION : float)))
    <= frictionMag B A.
Proof.
  intros Hv Hmv Ha Hma Hsmall.
  pose proof (mag_nonneg (Prim2SF v)) as Hv0.
  pose proof (mag_nonneg (Prim2SF a)) as Ha0.
  assert (Hr : forall u, 0 <= u -> u <= roundMag u).
  { intros u Hu. unfold roundMag.
    pose proof (Z.div_pos u (2 ^ 52) Hu ltac:(lia)). lia. }
  pose proof (Hr (B + A) ltac:(lia)) as HBA.
  assert (H3147 : 2 ^ 3000 <= 2 ^ 3147) by (apply Z.pow_le_mono_r; lia).
  destruct (SFadd_mag (Prim2SF v) (Prim2SF a) (Prim2SF_valid v) (Prim2SF_valid a)
              Hv Ha ltac:(lia)) as [Hf1 Hu1].
  pose proof (Prim2SF_valid (PrimFloat.add v a)) as Hvt.
  rewrite FloatAxioms.add_spec in Hvt.
  assert (Hmono : roundMag (mag (Prim2SF v) + mag (Prim2SF a)) <= roundMag (B + A))
    by (apply roundMag_mono; lia).
  rewrite FloatAxioms.mul_spec, FloatAxioms.add_spec, FRICTION_binary64.
  set (t := SF64add (Prim2SF v) (Prim2SF a)) in *.
  destruct (SFmul_mag t false 8106479329266893 (-53) Hvt Hf1 ltac:(lia)
              ltac:(reflexivity) ltac:(lia) ltac:(lia)) as [Hf2 Hu2].
  split; [exact Hf2 |].
  eapply Z.le_trans; [exact Hu2 |].
  unfold frictionMag. apply roundMag_mono.
  change (- -53) with 53.
  apply Z.div_le_mono; [lia |].
  apply Z.mul_le_mono_nonneg_r; lia.
Qed.

Lemma frictionMag_mono (b b' a : Z) :
  b <= b' -> frictionMag b a <= frictionMag b' a.
Proof.
  intros H. unfold frictionMag. apply roundMag_mono.
  apply Z.div_le_mono; [lia |].
  apply Z.mul_le_mono_nonneg_r; [lia |]. apply roundMag_mono. lia.
Qed.

Lemma friction_step_mag (v a : float) :
  speedOk v ->
  sf_finite (Prim2SF a) -> mag (Prim2SF a) <= ACCEL_MAG ->
  speedOk (PrimFloat.mul (PrimFloat.add v a) (FRICTION : float)).
Proof.
  intros [Hv Hmv] Ha Hma.
  destruct speed_constants as (_ & _ & _ & Hsmall & Hfix).
  destruct (friction_step_bound v a SPEED_MAG ACCEL_MAG Hv Hmv Ha Hma Hsmall)
    as [Hf Hu].
  split; [exact Hf | lia].
Qed.

(** A finite number of magnitude at most that of a positive constant [c],
    as the comparisons of the program see it: between [-c] and [c]. *)
Lemma mag_compare (v : spec_float) (mc : positive) (ec : Z) :
  valid_binary v = true ->
  valid_binary (S754_finite false mc ec) = true ->
  sf_finite v -> mag v <= Zpos mc * 2 ^ (ec + 2148) ->
  SFleb (S754_finite true mc ec) v = true /\
  SFleb v (S754_finite false mc ec) = true.
Proof.
  intros Hv Hvc Hf Hm. unfold SFleb.
  destruct v as [s | s | | s m e]; cbn [sf_finite] in Hf; try contradiction.
  - split; reflexivity.
  - destruct (valid_finite _ _ _ Hv) as (He & _).
    destruct (valid_finite _ _ _ Hvc) as (Hec & _).
    assert (Hval : Zpos m * 2 ^ (e + 1074) <= Zpos mc * 2 ^ (ec + 1074)).
    { cbn [mag] in Hm.
      replace (e + 2148) with ((e + 1074) + 1074) in Hm by lia.
      replace (ec + 2148) with ((ec + 1074) + 1074) in Hm by lia.
      rewrite (Z.pow_add_r 2 (e + 1074) 1074),
        (Z.pow_add_r 2 (ec + 1074) 1074) in Hm by lia.
      rewrite !Z.mul_assoc in Hm.
      assert (HP : 0 < 2 ^ 1074) by (apply Z.pow_pos_nonneg; lia).
      nia. }
    assert (Hvp : valid_binary (S754_finite false m e) = true) by exact Hv.
    pose proof (compare_units mc ec m e Hvc Hvp) as Hc.
    pose proof (compare_units m e mc ec Hvp Hvc) as Hc'.
    cbv beta iota delta [SFcompare] in Hc, Hc' |- *.
    destruct s.
    + split; [| reflexivity].
      destruct (Z.compare ec e);
        [destruct (PosDef.Pos.compare_cont Eq mc m) | |];
        cbn [CompOpp]; first [reflexivity | exfalso; lia].
    + split; [reflexivity |].
      destruct (Z.compare e ec);
        [destruct (PosDef.Pos.compare_cont Eq m mc) | |];
        first [reflexivity | exfalso; lia].
Qed.

Lemma speedOk_compare (v : float) :
  speedOk v ->
  PrimFloat.leb (ofZ (-181)) v = true /\ PrimFloat.leb v (ofZ 181) = true.
Proof.
  intros [Hf Hm].
  rewrite !FloatAxioms.leb_spec.
  change (Prim2SF (ofZ 181)) with (S754_finite false 6368371348078592 (-45)).
  change (Prim2SF (ofZ (-181))) with (S754_finite true 6368371348078592 (-45)).
  apply mag_compare; [apply Prim2SF_valid | reflexivity | exact Hf |].
  eapply Z.le_trans; [exact Hm |].
  apply Z.leb_le. vm_compute. reflexivity.
Qed.

End SpeedRounding.

Lemma speed_update (g : Game float) :
  speedOk (vx (player g)) -> speedOk (vx (player (update STEP g))).
Proof.
  intros Hs. destruct (update_horizontal STEP g) as [Hvx _].
  cbv zeta in Hvx. rewrite Hvx.
  destruct (held g LEFT_CODES), (held g RIGHT_CODES); cbv iota;
    apply friction_step_mag; try exact Hs;
    first [vm_compute; exact I | apply Z.leb_le; vm_compute; reflexivity].
Qed.

Lemma speed_stepped (g : Game float) : stepped g -> speedOk (vx (player g)).
Proof.
  induction 1 as [t0 | g d pr l a _ IH | g _ IH].
  - split; [exact I |]. apply Z.leb_le. vm_compute. reflexivity.
  - exact IH.
  - apply speed_update, IH.
Qed.

(** X13.  The horizontal speed is bounded in binary64, as the program
    runs: in every state reached by key events and frames, whatever the
    keys and the clock, [vx] is a number (not NaN, not infinite) between
    -181 and 181 px/s.  Acceleration adds exactly 20 px/s per step and
    friction takes a tenth of the sum, so the speed approaches 180 and the
    rounding of the two operations cannot carry it past 181. *)
Theorem speed_bounded (g : Game float) :
  reachable g ->
  geb (vx (player g)) (ofZ (-181)) = true /\ geb (ofZ 181) (vx (player g)) = true.
Proof.
  intros Hr. apply reachable_stepped, speed_stepped in Hr.
  exact (speedOk_compare _ Hr).
Qed.

(** ArrowRight goes down and stays down for eight long frames: 120 steps,
    and the speed is above 179. *)
Lemma speed_bounded_witness :
  exists (n : nat) (g : Game float),
    run 16 [Key (KeyDown "ArrowRight"); Frame 0.25%float; Frame 0.5%float;
            Frame 0.75%float; Frame 1%float; Frame 1.25%float; Frame 1.5%float;
            Frame 1.75%float; Frame 2%float] (game0 (ofZ 0)) = Some (n, g) /\
    gtb (vx (player g)) (ofZ 179) = true /\
    geb (vx (player g)) (ofZ (-181)) = true /\ geb (ofZ 181) (vx (player g)) = true.
Proof.
  destruct (run 16 [Key (KeyDown "ArrowRight"); Frame 0.25%float; Frame 0.5%float;
                    Frame 0.75%float; Frame 1%float; Frame 1.25%float;
                    Frame 1.5%float; Frame 1.75%float; Frame 2%float]
              (game0 (ofZ 0) : Game float))
    as [[n g] |] eqn:E.
  - exists n, g. split; [reflexivity |].
    assert (Hr : reachable g)
      by (eapply reachable_run; [apply reach_start | exact E]).
    split; [| exact (speed_bounded g Hr)].
    pose proof (f_equal (option_map (fun r => gtb (vx (player (snd r))) (ofZ 179))) E)
      as Hc.
    vm_compute in Hc. injection Hc as Hc. symmetry. exact Hc.
  - exfalso. pose proof (f_equal (option_map fst) E) as Hc.
    vm_compute in Hc. discriminate Hc.
Defined.

(** *** Coasting *)

Lemma stepped_turn (g : Game float) : stepped g -> stepped (turn g).
Proof.
  intros Hs. unfold turn. cbv zeta.
  apply (stepped_input (update STEP g)). apply stepped_update, Hs.
Qed.

Lemma coast_update (g : Game float) (b : Z) :
  held g LEFT_CODES = held g RIGHT_CODES ->
  sf_finite (Prim2SF (vx (player g))) ->
  (mag (Prim2SF (vx (player g))) <= b)%Z -> (b <= SPEED_MAG)%Z ->
  sf_finite (Prim2SF (vx (player (turn g)))) /\
  (mag (Prim2SF (vx (player (turn g)))) <= frictionMag b 0)%Z.
Proof.
  intros Hk Hf Hm Hb.
  change (player (turn g)) with (player (update STEP g)).
  destruct (update_horizontal STEP g) as [Hvx _].
  cbv zeta in Hvx. rewrite Hvx, <- Hk.
  destruct speed_constants as (HS0 & HA0 & _ & Hsmall & _).
  assert (Hsm : (roundMag (b + 0) < 2 ^ 3000)%Z).
  { eapply Z.le_lt_trans; [| exact Hsmall]. apply roundMag_mono. lia. }
  destruct (held g LEFT_CODES); cbv iota;
    apply friction_step_bound; try assumption;
    first [vm_compute; exact I | apply Z.leb_le; vm_compute; reflexivity].
Qed.

Lemma coast_turns (n : nat) (g : Game float) :
  stepped g -> held g LEFT_CODES = held g RIGHT_CODES ->
  sf_finite (Prim2SF (vx (player (Nat.iter n turn g)))) /\
  (mag (Prim2SF (vx (player (Nat.iter n turn g)))) <= coastMag n SPEED_MAG)%Z.
Proof.
  intros Hs Hk. induction n as [| n IH].
  - exact (speed_stepped g Hs).
  - destruct IH as [Hf Hm]. rewrite Nat.iter_succ.
    assert (Hs' : stepped (Nat.iter n turn g)).
    { clear Hf Hm. induction n as [| n IHn]; [exact Hs |].
      rewrite Nat.iter_succ. apply stepped_turn, IHn. }
    assert (Hk' : held (Nat.iter n turn g) LEFT_CODES
                  = held (Nat.iter n turn g) RIGHT_CODES).
    { unfold held. rewrite (proj1 (iter_turn_frame n g)). exact Hk. }
    destruct (speed_stepped _ Hs') as [_ Hb].
    destruct (coast_update _ _ Hk' Hf (Z.le_refl _) Hb) as [Hf1 Hm1].
    split; [exact Hf1 |].
    eapply Z.le_trans; [exact Hm1 |].
    unfold coastMag. rewrite Nat.iter_succ. apply frictionMag_mono. exact Hm.
Qed.

(** X14.  Friction brings the player to rest, in binary64: from any state
    reached by key events and frames, once no move key is held (or keys of
    both directions are), 100 turns of the loop body or more leave [vx]
    between -1/128 and 1/128 px/s, whatever the speed was. *)
Theorem coasting (k : nat) (g : Game float) :
  reachable g -> held g LEFT_CODES = held g RIGHT_CODES ->
  let v := vx (player (Nat.iter (100 + k) turn g)) in
  geb v (sub (ofZ 0) (div (ofZ 1) (ofZ 128))) = true /\
  geb (div (ofZ 1) (ofZ 128)) v = true.
Proof.
  intros Hr Hk. cbv zeta. apply reachable_stepped in Hr.
  rewrite Nat.iter_add.
  assert (Hs : stepped (Nat.iter k turn g)).
  { clear Hk. induction k as [| k IHk]; [exact Hr |].
    rewrite Nat.iter_succ. apply stepped_turn, IHk. }
  assert (Hk' : held (Nat.iter k turn g) LEFT_CODES
                = held (Nat.iter k turn g) RIGHT_CODES).
  { unfold held. rewrite (proj1 (iter_turn_frame k g)). exact Hk. }
  destruct (coast_turns 100 _ Hs Hk') as [Hf Hm].
  set (v := vx (player (Nat.iter 100 turn (Nat.iter k turn g)))) in *.
  change (PrimFloat.leb (sub (ofZ 0) (div (ofZ 1) (ofZ 128))) v = true /\
          PrimFloat.leb v (div (ofZ 1) (ofZ 128)) = true).
  rewrite !FloatAxioms.leb_spec.
  change (Prim2SF (div (ofZ 1) (ofZ 128)))
    with (S754_finite false 4503599627370496 (-59)).
  change (Prim2SF (sub (ofZ 0) (div (ofZ 1) (ofZ 128))))
    with (S754_finite true 4503599627370496 (-59)).
  apply mag_compare; [apply Prim2SF_valid | reflexivity | exact Hf |].
  eapply Z.le_trans; [exact Hm |].
  apply Z.leb_le. vm_compute. reflexivity.
Qed.

(** ArrowRight is held for eight long frames and let go: the speed was
    above 179, and 100 turns later it is below 1/128. *)
Lemma coasting_witness :
  exists (n : nat) (g : Game float),
    run 16 [Key (KeyDown "ArrowRight"); Frame 0.25%float; Frame 0.5%float;
            Frame 0.75%float; Frame 1%float; Frame 1.25%float; Frame 1.5%float;
            Frame 1.75%float; Frame 2%float; Key (KeyUp "ArrowRight")]
        (game0 (ofZ 0)) = Some (n, g) /\
    gtb (vx (player g)) (ofZ 179) = true /\
    geb (vx (player (Nat.iter 100 turn g))) (sub (ofZ 0) (div (ofZ 1) (ofZ 128))) = true /\
    geb (div (ofZ 1) (ofZ 128)) (vx (player (Nat.iter 100 turn g))) = true.
Proof.
  destruct (run 16 [Key (KeyDown "ArrowRight"); Frame 0.25%float; Frame 0.5%float;
                    Frame 0.75%float; Frame 1%float; Frame 1.25%float;
                    Frame 1.5%float; Frame 1.75%float; Frame 2%float;
                    Key (KeyUp "ArrowRight")]
              (game0 (ofZ 0) : Game float))
    as [[n g] |] eqn:E.
  - exists n, g. split; [reflexivity |].
    assert (Hr : reachable g)
      by (eapply reachable_run; [apply reach_start | exact E]).
    assert (Hk : held g LEFT_CODES = held g RIGHT_CODES).
    { pose proof (f_equal (option_map (fun r =>
                    Bool.eqb (held (snd r) LEFT_CODES) (held (snd r) RIGHT_CODES))) E)
        as Hc.
      vm_compute in Hc. injection Hc as Hc. apply Bool.eqb_prop.
      symmetry. exact Hc. }
    split; [| exact (coasting 0 g Hr Hk)].
    pose proof (f_equal (option_map (fun r => gtb (vx (player (snd r))) (ofZ 179))) E)
      as Hc.
    vm_compute in Hc. injection Hc as Hc. symmetry. exact Hc.
  - exfalso. pose proof (f_equal (option_map fst) E) as Hc.
    vm_compute in Hc. discriminate Hc.
Defined.

(** ** The time a frame accounts for, in binary64 *)

Section LowerRounding.

Local Open Scope Z_scope.

Lemma shr_1_lower (mrs : shr_record) :
  0 <= shr_m mrs -> shr_m mrs <= 2 * shr_m (shr_1 mrs) + 1.
Proof.
  destruct mrs as [m r s]. destruct m as [| p | p]; cbn; [lia | | lia].
  destruct p; cbn; lia.
Qed.

Lemma iter_shr_1_lower (p : positive) (mrs : shr_record) :
  0 <= shr_m mrs ->
  shr_m mrs < 2 ^ Zpos p * (shr_m (SpecFloat.iter_pos shr_1 p mrs) + 1).
Proof.
  revert mrs. induction p as [p IH | p IH |]; intros mrs Hm; cbn [SpecFloat.iter_pos].
  - pose proof (shr_1_lower mrs Hm) as L1.
    destruct (shr_1_bound mrs Hm) as [H1 _].
    pose proof (IH _ H1) as L2.
    destruct (iter_shr_1_bound p _ H1) as [H2 _].
    pose proof (IH _ H2) as L3.
    replace (Zpos p~1) with (Zpos p + Zpos p + 1) by lia.
    rewrite !Z.pow_add_r by lia. change (2 ^ 1) with 2.
    pose proof (Z.pow_pos_nonneg 2 (Zpos p) ltac:(lia) ltac:(lia)) as Hp.
    nia.
  - pose proof (IH _ Hm) as L2.
    destruct (iter_shr_1_bound p _ Hm) as [H2 _].
    pose proof (IH _ H2) as L3.
    replace (Zpos p~0) with (Zpos p + Zpos p) by lia.
    rewrite !Z.pow_add_r by lia.
    pose proof (Z.pow_pos_nonneg 2 (Zpos p) ltac:(lia) ltac:(lia)) as Hp.
    nia.
  - pose proof (shr_1_lower mrs Hm) as L1. change (2 ^ 1) with 2. lia.
Qed.

Lemma shr_lower (mrs : shr_record) (e n : Z) :
  0 <= shr_m mrs ->
  shr_m mrs < 2 ^ Z.max n 0 * (shr_m (fst (shr mrs e n)) + 1).
Proof.
  intros Hm. unfold shr. destruct n as [| p | p]; cbn [fst].
  - change (Z.max 0 0) with 0. change (2 ^ 0) with 1. lia.
  - replace (Z.max (Zpos p) 0) with (Zpos p) by lia.
    apply iter_shr_1_lower, Hm.
  - replace (Z.max (Zneg p) 0) with 0 by lia. change (2 ^ 0) with 1. lia.
Qed.

Lemma round_nearest_even_lower (m : Z) (l : location) :
  m <= round_nearest_even m l.
Proof.
  destruct l as [| []]; cbn; try destruct (Z.even m); lia.
Qed.

(** The rounding of [binary_round_aux] from below: at most three units in
    the last place are lost. *)
Lemma binary_round_aux_low (s : bool) (mz : positive) (ez : Z) :
  -2148 <= ez ->
  ez <= fexp prec emax (Zpos (digits2_pos mz) + ez) ->
  Zpos (digits2_pos mz) + ez <= 1000 ->
  Zpos mz * 2 ^ (ez + 2148)
    <= mag (binary_round_aux prec emax s (Zpos mz) ez loc_Exact)
       + 3 * 2 ^ (fexp prec emax (Zpos (digits2_pos mz) + ez) + 2148).
Proof.
  intros Hez Hf Hd.
  set (f := fexp prec emax (Zpos (digits2_pos mz) + ez)) in *.
  assert (Hflo : -1074 <= f) by (unfold f, fexp, emin, prec, emax; lia).
  assert (Hfhi : f <= 947) by (unfold f, fexp, emin, prec, emax; lia).
  assert (Hfd : Zpos (digits2_pos mz) + ez - 53 <= f)
    by (unfold f, fexp, emin, prec, emax; lia).
  unfold binary_round_aux, shr_fexp. cbn [Zdigits2]. fold f.
  pose proof (shr_bound (shr_record_of_loc (Zpos mz) loc_Exact) ez (f - ez)
                ltac:(cbn; lia)) as H1.
  pose proof (shr_lower (shr_record_of_loc (Zpos mz) loc_Exact) ez (f - ez)
                ltac:(cbn; lia)) as L1.
  cbv zeta in H1.
  destruct (shr (shr_record_of_loc (Zpos mz) loc_Exact) ez (f - ez)) as [mrs' e'].
  cbn [fst snd shr_record_of_loc shr_m] in H1, L1. destruct H1 as (He' & Hm' & Hs').
  replace (Z.max (f - ez) 0) with (f - ez) in * by lia.
  assert (Hef : e' = f) by lia. clear He'. subst e'.
  pose proof (round_nearest_even_bound (shr_m mrs') (loc_of_shr_record mrs') Hm')
    as Hm1.
  pose proof (round_nearest_even_lower (shr_m mrs') (loc_of_shr_record mrs')) as Lm1.
  set (m1 := round_nearest_even (shr_m mrs') (loc_of_shr_record mrs')) in *.
  pose proof (shr_bound (shr_record_of_loc m1 loc_Exact) f
                (fexp prec emax (Zdigits2 m1 + f) - f) ltac:(cbn; lia)) as H2.
  pose proof (shr_lower (shr_record_of_loc m1 loc_Exact) f
                (fexp prec emax (Zdigits2 m1 + f) - f) ltac:(cbn; lia)) as L2.
  cbv zeta in H2.
  destruct (shr (shr_record_of_loc m1 loc_Exact) f
                (fexp prec emax (Zdigits2 m1 + f) - f)) as [mrs'' e''].
  cbn [fst snd shr_record_of_loc shr_m] in H2, L2. destruct H2 as (He'' & Hm'' & Hs'').
  set (k2 := Z.max (fexp prec emax (Zdigits2 m1 + f) - f) 0) in *.
  pose proof (digits2_pos_upper mz) as Hup.
  assert (Hpow : 0 < 2 ^ (f - ez)) by (apply Z.pow_pos_nonneg; lia).
  assert (Hsh : shr_m mrs' < 2 ^ 53).
  { assert (Hlt : 2 ^ (f - ez) * shr_m mrs' < 2 ^ (f - ez) * 2 ^ 53).
    { eapply Z.le_lt_trans; [exact Hs' |].
      eapply Z.lt_le_trans; [exact Hup |].
      rewrite <- Z.pow_add_r by lia. apply Z.pow_le_mono_r; lia. }
    nia. }
  assert (Hm1up : m1 < 2 ^ 54).
  { change (2 ^ 54) with (2 * 2 ^ 53). lia. }
  pose proof (Zdigits2_le m1 54 ltac:(lia) ltac:(lia) Hm1up) as Hdig.
  assert (Hk2 : 0 <= k2 <= 1).
  { unfold k2, fexp, emin, prec, emax. lia. }
  assert (He971 : e'' <= 971) by lia.
  assert (HP4 : 2 ^ k2 <= 2).
  { change 2 with (2 ^ 1) at 2. apply Z.pow_le_mono_r; lia. }
  assert (HP : 2 ^ (e'' + 2148) = 2 ^ k2 * 2 ^ (f + 2148)).
  { subst e''. rewrite <- Z.pow_add_r by lia. f_equal. lia. }
  assert (HP' : 2 ^ (f + 2148) = 2 ^ (f - ez) * 2 ^ (ez + 2148)).
  { rewrite <- Z.pow_add_r by lia. f_equal. lia. }
  assert (HP1 : 0 < 2 ^ (f + 2148)) by (apply Z.pow_pos_nonneg; lia).
  assert (HP2 : 0 < 2 ^ (ez + 2148)) by (apply Z.pow_pos_nonneg; lia).
  assert (HP3 : 0 < 2 ^ k2) by (apply Z.pow_pos_nonneg; lia).
  set (P1 := 2 ^ (f + 2148)) in *. set (P2 := 2 ^ (ez + 2148)) in *.
  set (P3 := 2 ^ (f - ez)) in *. set (P4 := 2 ^ k2) in *.
  assert (Ha : Zpos mz * P2 <= (shr_m mrs' + 1) * P1) by (rewrite HP'; nia).
  assert (Hb : (shr_m mrs' + 1) * P1 <= (m1 + 1) * P1) by nia.
  assert (Hc : (m1 + 1) * P1 <= (P4 * (shr_m mrs'' + 1) + 1) * P1) by nia.
  destruct (shr_m mrs'') as [| m | m]; [| | lia].
  - cbn [mag]. nia.
  - replace (Z.leb e'' (emax - prec)) with true
      by (symmetry; apply Z.leb_le; unfold emax, prec; lia).
    cbn [mag]. rewrite HP. fold P4. nia.
Qed.

Lemma binary_round_low (s : bool) (D : positive) (e : Z) :
  -1074 <= e ->
  Zpos (digits2_pos D) + e <= 1000 ->
  Zpos D * 2 ^ (e + 2148)
    <= mag (binary_round prec emax s D e)
       + 3 * 2 ^ (fexp prec emax (Zpos (digits2_pos D) + e) + 2148).
Proof.
  intros He Hd. unfold binary_round, shl_align.
  set (f := fexp prec emax (Zpos (digits2_pos D) + e)).
  assert (Hf : -1074 <= f) by (unfold f, fexp, emin, prec, emax; lia).
  destruct (f - e) as [| d | d] eqn:Efe.
  - apply (binary_round_aux_low s D e); [lia | fold f; lia | exact Hd].
  - apply (binary_round_aux_low s D e); [lia | fold f; lia | exact Hd].
  - assert (Hdig : Zpos (digits2_pos (Pos.iter xO D d)) + f
                   = Zpos (digits2_pos D) + e)
      by (rewrite iter_xO_digits; lia).
    pose proof (binary_round_aux_low s (Pos.iter xO D d) f) as Hu.
    rewrite Hdig in Hu. fold f in Hu.
    specialize (Hu ltac:(lia) ltac:(lia) Hd).
    set (U := mag _) in *.
    rewrite iter_xO_units in Hu.
    replace (e + 2148) with (Zpos d + (f + 2148)) by lia.
    rewrite Z.pow_add_r by lia. lia.
Qed.

Lemma binary_normalize_low (m e : Z) :
  -1074 <= e -> Z.abs m * 2 ^ (e + 2148) < 2 ^ 3147 ->
  roundLow (Z.abs m * 2 ^ (e + 2148)) <= mag (binary_normalize prec emax m e false).
Proof.
  intros He Hlt.
  assert (Hsign : forall (s : bool) (D : positive),
            Zpos D * 2 ^ (e + 2148) < 2 ^ 3147 ->
            roundLow (Zpos D * 2 ^ (e + 2148)) <= mag (binary_round prec emax s D e)).
  { intros s D HD.
    pose proof (digits_of_mag D e ltac:(lia) HD) as Hd.
    pose proof (binary_round_low s D e He Hd) as Hu.
    pose proof (ulp_mag D e ltac:(lia)) as Hulp.
    set (X := Zpos D * 2 ^ (e + 2148)) in *.
    set (F := 2 ^ (fexp prec emax (Zpos (digits2_pos D) + e) + 2148)) in *.
    assert (HX : 0 <= X)
      by (apply Z.mul_nonneg_nonneg; [lia | apply Z.pow_nonneg; lia]).
    assert (HF : F <= X / 2 ^ 52 + 2 ^ 1074).
    { replace (X / 2 ^ 52 + 2 ^ 1074) with ((X + 2 ^ 1074 * 2 ^ 52) / 2 ^ 52)
        by (rewrite Z.div_add by lia; reflexivity).
      apply Z.div_le_lower_bound; lia. }
    unfold roundLow. lia. }
  destruct m as [| D | D]; cbn [binary_normalize Z.abs] in *.
  - cbn [mag]. unfold roundLow.
    change (0 * 2 ^ (e + 2148)) with 0. rewrite Z.div_0_l by lia. lia.
  - apply Hsign. exact Hlt.
  - apply Hsign. exact Hlt.
Qed.

Lemma mag_units (v : spec_float) :
  sf_finite_nonneg v -> mag v = units v * 2 ^ 1074.
Proof.
  destruct v as [s | s | | s m e]; cbn [sf_finite_nonneg mag units];
    try contradiction; try reflexivity.
  intros [-> He].
  replace (e + 2148) with ((e + 1074) + 1074) by lia.
  rewrite (Z.pow_add_r 2 (e + 1074) 1074) by lia. lia.
Qed.

(** The same in units of 2^-1074, for a value below 1 that is not
    negative. *)
Lemma binary_normalize_units_low (m e : Z) :
  0 <= m -> -1074 <= e -> m * 2 ^ (e + 1074) < 2 ^ 1074 ->
  m * 2 ^ (e + 1074) - slack (m * 2 ^ (e + 1074))
    <= units (binary_normalize prec emax m e false).
Proof.
  intros Hm He Hlt.
  destruct (binary_normalize_bound m e Hm He Hlt) as [Hfin _].
  pose proof (mag_units _ Hfin) as Hmu.
  set (X := m * 2 ^ (e + 1074)) in *.
  assert (HX : 0 <= X)
    by (apply Z.mul_nonneg_nonneg; [lia | apply Z.pow_nonneg; lia]).
  assert (HXf : Z.abs m * 2 ^ (e + 2148) = X * 2 ^ 1074).
  { rewrite Z.abs_eq by lia. unfold X.
    replace (e + 2148) with ((e + 1074) + 1074) by lia.
    rewrite (Z.pow_add_r 2 (e + 1074) 1074) by lia. lia. }
  pose proof (binary_normalize_low m e He) as Hl.
  rewrite HXf in Hl.
  assert (HP : 0 < 2 ^ 1074) by (apply Z.pow_pos_nonneg; lia).
  specialize (Hl ltac:(change (2 ^ 3147) with (2 ^ 2073 * 2 ^ 1074);
                       assert (2 ^ 1074 <= 2 ^ 2073) by (apply Z.pow_le_mono_r; lia);
                       nia)).
  rewrite Hmu in Hl. unfold roundLow in Hl. unfold slack.
  set (u := units _) in *.
  assert (Hq : X * 2 ^ 1074 / 2 ^ 52 <= (X / 2 ^ 52 + 1) * 2 ^ 1074).
  { apply Z.div_le_upper_bound; [lia |].
    pose proof (Z.mod_pos_bound X (2 ^ 52) ltac:(lia)) as Hmod.
    pose proof (Z.div_mod X (2 ^ 52) ltac:(lia)) as Hdm.
    nia. }
  nia.
Qed.

Lemma SFadd_units_low (x y : spec_float) :
  valid_binary x = true -> valid_binary y = true ->
  sf_finite_nonneg x -> sf_finite_nonneg y ->
  units x + units y < 2 ^ 1074 ->
  units x + units y - slack (units x + units y) <= units (SF64add x y).
Proof.
  intros Hvx Hvy Hx Hy Hlt. unfold SF64add.
  pose proof (units_nonneg x) as Hux. pose proof (units_nonneg y) as Huy.
  assert (Hs : forall v, 0 <= v -> 0 <= slack v).
  { intros v Hv. unfold slack.
    pose proof (Z.div_pos v (2 ^ 52) Hv ltac:(lia)). lia. }
  destruct x as [sx | sx | | sx mx ex]; cbn [sf_finite_nonneg] in Hx;
    try contradiction;
    destruct y as [sy | sy | | sy my ey]; cbn [sf_finite_nonneg] in Hy;
    try contradiction.
  - replace (units (SFadd prec emax (S754_zero sx) (S754_zero sy))) with 0
      by (destruct sx, sy; reflexivity).
    cbn [units]. pose proof (Hs (0 + 0) ltac:(lia)). lia.
  - cbn [SFadd]. change (units (S754_zero sx)) with 0. rewrite Z.add_0_l.
    pose proof (Hs _ Huy). lia.
  - cbn [SFadd]. change (units (S754_zero sy)) with 0. rewrite Z.add_0_r.
    pose proof (Hs _ Hux). lia.
  - destruct Hx as [-> Hex], Hy as [-> Hey].
    cbv beta iota delta [SFadd]. cbn [cond_Zopp units] in *.
    set (ez := Z.min ex ey).
    assert (Hsum : (Zpos (fst (shl_align mx ex ez)) + Zpos (fst (shl_align my ey ez)))
                   * 2 ^ (ez + 1074)
                   = Zpos mx * 2 ^ (ex + 1074) + Zpos my * 2 ^ (ey + 1074)).
    { rewrite Z.mul_add_distr_r.
      rewrite !shl_align_units by (unfold ez; lia). reflexivity. }
    rewrite <- Hsum in Hlt |- *.
    apply binary_normalize_units_low; [lia | unfold ez; lia | exact Hlt].
Qed.

Lemma add_units_low (x y : float) :
  sf_finite_nonneg (Prim2SF x) -> sf_finite_nonneg (Prim2SF y) ->
  units (Prim2SF x) + units (Prim2SF y) < 2 ^ 1074 ->
  units (Prim2SF x) + units (Prim2SF y)
    - slack (units (Prim2SF x) + units (Prim2SF y))
    <= units (Prim2SF (x + y)).
Proof.
  intros Hx Hy Hlt. rewrite FloatAxioms.add_spec.
  apply SFadd_units_low; auto using Prim2SF_valid.
Qed.

Lemma sub_step_units_low (a : float) :
  sf_finite_nonneg (Prim2SF a) ->
  PrimFloat.leb (STEP : float) a = true ->
  units (Prim2SF a) < 2 ^ 1074 ->
  units (Prim2SF a) - STEP_UNITS - slack (units (Prim2SF a) - STEP_UNITS)
    <= units (Prim2SF (a - (STEP : float))).
Proof.
  intros Hfin Hle Hlt.
  pose proof (guard_true_units a Hfin Hle) as Hge.
  rewrite FloatAxioms.sub_spec.
  pose proof (Prim2SF_valid a) as Hva.
  unfold STEP_UNITS in *. rewrite STEP_binary64 in *. unfold SF64sub.
  destruct (Prim2SF a) as [s | s | | s m e]; cbn [sf_finite_nonneg] in Hfin;
    try contradiction.
  destruct Hfin as [-> He]. cbn [units] in *.
  cbv beta iota delta [SFsub]. cbn [cond_Zopp].
  assert (He58 : -58 <= e).
  { destruct (Z.le_gt_cases (-58) e) as [H | H]; [exact H | exfalso].
    pose proof (units_lt_of_exponent m e 4803839602528529 (-58) Hva
                  ltac:(reflexivity) H) as Hc.
    lia. }
  replace (Z.min e (-58)) with (-58) by lia.
  assert (Hdiff : (Zpos (fst (shl_align m e (-58)))
                   - Zpos (fst (shl_align 4803839602528529 (-58) (-58))))
                  * 2 ^ (-58 + 1074)
                  = Zpos m * 2 ^ (e + 1074) - 4803839602528529 * 2 ^ (-58 + 1074)).
  { rewrite Z.mul_sub_distr_r.
    rewrite !shl_align_units by lia. reflexivity. }
  rewrite <- Hdiff.
  assert (HP : 0 < 2 ^ (-58 + 1074)) by (apply Z.pow_pos_nonneg; lia).
  apply binary_normalize_units_low; [nia | lia |].
  rewrite Hdiff. lia.
Qed.

End LowerRounding.

Section TimeConservation.

Local Open Scope Z_scope.

Lemma ACC_MAX_facts :
  ACC_MAX < 2 ^ 1074 /\ 3 * (ACC_MAX / 2 ^ 52 + 2) <= 2 ^ 1022.
Proof.
  split; [apply Z.ltb_lt | apply Z.leb_le]; vm_compute; reflexivity.
Qed.

Lemma slack_small (v : Z) :
  0 <= v -> v <= ACC_MAX -> slack v <= 2 ^ 1022 /\ roundUp v <= v + 2 ^ 1022.
Proof.
  intros H0 Hv. destruct ACC_MAX_facts as [_ Hc].
  pose proof (Z.div_le_mono v ACC_MAX (2 ^ 52) ltac:(lia) Hv) as Hq.
  pose proof (Z.div_pos v (2 ^ 52) H0 ltac:(lia)) as Hq0.
  unfold slack, roundUp. lia.
Qed.

(** The turns of the loop on the accumulator: what is left and the steps
    taken add up to what was there, within 2^-52 s for each turn. *)
Lemma drainAcc_conserves (fuel : nat) (a : float) (n : nat) (a' : float) :
  sf_finite_nonneg (Prim2SF a) -> units (Prim2SF a) <= ACC_MAX ->
  drainAcc fuel a = Some (n, a') ->
  Z.abs (units (Prim2SF a') + Z.of_nat n * STEP_UNITS - units (Prim2SF a))
    <= Z.of_nat n * 2 ^ 1022.
Proof.
  destruct ACC_MAX_facts as [Hmax _]. pose proof STEP_UNITS_large as HS.
  revert a n a'. induction fuel as [| fuel IH]; intros a n a' Hfin Hu.
  - cbn [drainAcc]. destruct (geb a STEP); [discriminate |].
    intros [= <- <-]. cbn [Z.of_nat]. lia.
  - rewrite drainAcc_unfold. destruct (geb a STEP) eqn:E.
    + destruct (drainAcc fuel (sub a STEP)) as [[m a1] |] eqn:Ed; [| discriminate].
      intros [= <- <-].
      pose proof (guard_true_units a Hfin E) as Hge.
      destruct (sub_step_units a Hfin E ltac:(lia)) as [Hfin' Hup].
      pose proof (sub_step_units_low a Hfin E ltac:(lia)) as Hlow.
      destruct (slack_small (units (Prim2SF a) - STEP_UNITS) ltac:(lia) ltac:(lia))
        as [Hsl Hru].
      change (PrimFloat.sub a STEP) with (sub a STEP) in Hfin', Hup, Hlow.
      specialize (IH (sub a STEP) m a1 Hfin' ltac:(lia) Ed).
      rewrite Nat2Z.inj_succ. lia.
    + intros [= <- <-]. cbn [Z.of_nat]. lia.
Qed.

Lemma frame_drainAcc (fuel : nat) (dt : float) (g : Game float)
      (n : nat) (g' : Game float) :
  frame fuel dt g = Some (n, g') ->
  drainAcc fuel (PrimFloat.add (acc g) (clamp dt)) = Some (n, acc g').
Proof.
  unfold frame. intros E.
  pose proof (drain_acc fuel (mkGame (player g) (down g) (pressed g) (last g)
                                     (add (acc g) (clamp dt)))) as Ha.
  rewrite E in Ha. symmetry. exact Ha.
Qed.

Lemma frame_start_units (dt : float) (g : Game float) :
  accInRange (acc g) = true -> geb dt (ofZ 0) = true ->
  let s := units (Prim2SF (acc g)) + units (Prim2SF (clamp dt)) in
  sf_finite_nonneg (Prim2SF (PrimFloat.add (acc g) (clamp dt))) /\
  units (Prim2SF (PrimFloat.add (acc g) (clamp dt))) <= ACC_MAX /\
  Z.abs (units (Prim2SF (PrimFloat.add (acc g) (clamp dt))) - s) <= 2 ^ 1022.
Proof.
  intros Hr Hdt. cbv zeta.
  unfold accInRange in Hr. apply andb_prop in Hr. destruct Hr as [H0 H1].
  destruct (below_step_units (acc g) H0 H1) as [Hfa Hua].
  destruct (clamp_units dt Hdt) as [Hfd Hud].
  assert (Hlt : STEP_UNITS - 1 + MAX_DT_UNITS < 2 ^ 1074) by reflexivity.
  pose proof (units_nonneg (Prim2SF (acc g))) as Ha0.
  pose proof (units_nonneg (Prim2SF (clamp dt))) as Hd0.
  assert (Hsum : units (Prim2SF (acc g)) + units (Prim2SF (clamp dt))
                 <= STEP_UNITS - 1 + MAX_DT_UNITS) by lia.
  assert (Hlt' : units (Prim2SF (acc g)) + units (Prim2SF (clamp dt)) < 2 ^ 1074)
    by lia.
  destruct (add_units (acc g) (clamp dt) Hfa Hfd Hlt') as [Hf1 Hu1].
  pose proof (add_units_low (acc g) (clamp dt) Hfa Hfd Hlt') as Hl1.
  assert (Hm : roundUp (units (Prim2SF (acc g)) + units (Prim2SF (clamp dt)))
               <= ACC_MAX)
    by (unfold ACC_MAX; apply roundUp_mono; exact Hsum).
  assert (Hsum' : units (Prim2SF (acc g)) + units (Prim2SF (clamp dt)) <= ACC_MAX).
  { eapply Z.le_trans; [exact Hsum |]. unfold ACC_MAX. apply roundUp_ge. lia. }
  assert (Hsum0 : 0 <= units (Prim2SF (acc g)) + units (Prim2SF (clamp dt))) by lia.
  destruct (slack_small _ Hsum0 Hsum') as [Hsl Hru].
  split; [exact Hf1 |]. split; lia.
Qed.

(** X9.  No time is lost or made up in a frame, in binary64: from an
    accumulator in [[0, STEP)] and a frame time that is not negative, the
    loop ends within 16 turns, and the steps taken (each worth [STEP], the
    binary64 number) and the accumulator left add up to the accumulator
    before plus the clamped frame time, within [17 * 2^-52] s (less than
    4e-15 s).  The values are the exact values of the binary64 numbers, in
    units of 2^-1074. *)
Theorem frame_conserves_time (dt : float) (g : Game float) :
  accInRange (acc g) = true -> geb dt (ofZ 0) = true ->
  exists (n : nat) (g' : Game float),
    frame 16 dt g = Some (n, g') /\ (n <= 16)%nat /\
    accInRange (acc g') = true /\
    Z.abs (units (Prim2SF (acc g')) + Z.of_nat n * STEP_UNITS
           - (units (Prim2SF (acc g)) + units (Prim2SF (clamp dt))))
      <= 17 * 2 ^ 1022.
Proof.
  intros Hr Hdt.
  destruct (frame_binary64 dt g Hr Hdt) as (n & g' & E & Hn & Hr').
  exists n, g'. split; [exact E |]. split; [exact Hn |]. split; [exact Hr' |].
  destruct (frame_start_units dt g Hr Hdt) as (Hf1 & Hu1 & Hs1).
  pose proof (frame_drainAcc 16 dt g n g' E) as Ha.
  pose proof (drainAcc_conserves 16 _ n (acc g') Hf1 Hu1 Ha) as Hc.
  assert (Hn' : Z.of_nat n <= 16) by lia.
  set (T := 2 ^ 1022) in *. lia.
Qed.

Lemma frame_conserves_time_witness :
  let g := mkGame player0 ∅ ∅ (ofZ 0) 0.0078125%float : Game float in
  exists (n : nat) (g' : Game float),
    frame 16 0.109375%float g = Some (n, g') /\ (n <= 16)%nat /\
    accInRange (acc g') = true /\
    Z.abs (units (Prim2SF (acc g')) + Z.of_nat n * STEP_UNITS
           - (units (Prim2SF (acc g)) + units (Prim2SF (clamp 0.109375%float))))
      <= 17 * 2 ^ 1022.
Proof.
  cbv zeta.
  apply (frame_conserves_time 0.109375%float
           (mkGame player0 ∅ ∅ (ofZ 0) 0.0078125%float)); vm_compute; reflexivity.
Defined.

End TimeConservation.

(** ** Frame after frame, against the clock *)

Section Pace.

Local Open Scope Z_scope.

Lemma runLoops_conserves (nows : list float) (g : Game float) :
  accInRange (acc g) = true -> geb (last g) (ofZ 0) = true ->
  monotone (last g) nows = true -> finiteReadings nows = true ->
  exists (n : nat) (g' : Game float),
    runLoops 16 nows g = Some (n, g') /\
    last g' = List.last nows (last g) /\
    accInRange (acc g') = true /\
    Z.abs (units (Prim2SF (acc g')) + Z.of_nat n * STEP_UNITS
           - (units (Prim2SF (acc g)) + measured (last g) nows))
      <= Z.of_nat (length nows) * (17 * 2 ^ 1022).
Proof.
  revert g. induction nows as [| now nows IH]; intros g Hr H0 Hm Hf.
  - exists O, g. cbn [runLoops length List.last measured Z.of_nat].
    split; [reflexivity |]. split; [reflexivity |]. split; [exact Hr |]. lia.
  - cbn [monotone finiteReadings forallb] in Hm, Hf.
    apply andb_prop in Hm, Hf. destruct Hm as [Hge Hm], Hf as [Hfin Hf].
    destruct (sub_reading_nonneg now (last g) H0 Hge Hfin) as [Hdt Hnow].
    set (g1 := mkGame (player g) (down g) (pressed g) now (acc g)).
    assert (Hdt' : geb (PrimFloat.sub now (last g)) (ofZ 0 : float) = true) by exact Hdt.
    assert (Hnow' : geb now (ofZ 0 : float) = true) by exact Hnow.
    destruct (frame_conserves_time (PrimFloat.sub now (last g)) g1 Hr Hdt')
      as (n & g2 & E & _ & Hr2 & Hc).
    assert (El : loop 16 now g = Some (n, g2)) by exact E.
    pose proof (loop_last 16 now g n g2 El) as Hl.
    rewrite <- Hl in Hm, Hnow'.
    destruct (IH g2 Hr2 Hnow' Hm Hf) as (m & g3 & Er & Hl3 & Hr3 & Hc3).
    exists (n + m)%nat, g3. cbn [runLoops length]. rewrite El, Er.
    split; [reflexivity |].
    split; [rewrite last_cons, Hl3, Hl; reflexivity |].
    split; [exact Hr3 |].
    cbn [measured]. rewrite Hl in Hc3. cbn [acc g1] in Hc.
    change (sub now (last g)) with (PrimFloat.sub now (last g)).
    rewrite Nat2Z.inj_add, Nat2Z.inj_succ.
    set (T := 17 * 2 ^ 1022) in *. lia.
Qed.

(** X10.  The simulation keeps pace with the clock as the loop measures
    it, in binary64: over any run of frames whose clock readings are finite
    and do not go back (from [last >= 0] and the accumulator in
    [[0, STEP)]), every frame ends, [last] is the latest reading, and the
    simulated time (steps taken times [STEP], plus what the accumulator
    gained) is the sum of the measured frame times, each cut at 0.25 s,
    within [17 * 2^-52] s for each frame.  The values are the exact values
    of the binary64 numbers, in units of 2^-1074. *)
Theorem simulation_keeps_pace (nows : list float) (g : Game float) :
  accInRange (acc g) = true -> geb (last g) (ofZ 0) = true ->
  monotone (last g) nows = true -> finiteReadings nows = true ->
  exists (n : nat) (g' : Game float),
    runLoops 16 nows g = Some (n, g') /\
    last g' = List.last nows (last g) /\
    accInRange (acc g') = true /\
    Z.abs (units (Prim2SF (acc g')) + Z.of_nat n * STEP_UNITS
           - (units (Prim2SF (acc g)) + measured (last g) nows))
      <= Z.of_nat (length nows) * (17 * 2 ^ 1022).
Proof. exact (runLoops_conserves nows g). Qed.

Lemma simulation_keeps_pace_witness :
  let g := mkGame player0 ∅ ∅ 1%float 0.0078125%float : Game float in
  let nows := [1.015625%float; 1.125%float; 3%float; 3.0625%float] in
  exists (n : nat) (g' : Game float),
    runLoops 16 nows g = Some (n, g') /\
    last g' = 3.0625%float /\
    accInRange (acc g') = true /\
    Z.abs (units (Prim2SF (acc g')) + Z.of_nat n * STEP_UNITS
           - (units (Prim2SF (acc g)) + measured (last g) nows))
      <= 4 * (17 * 2 ^ 1022).
Proof.
  cbv zeta.
  apply (simulation_keeps_pace [1.015625%float; 1.125%float; 3%float; 3.0625%float]
           (mkGame player0 ∅ ∅ 1%float 0.0078125%float)); vm_compute; reflexivity.
Defined.

End Pace.
